(** * ng-dynamic-component: the dynamic-directives attachment engine

    A shallow embedding of
    [projects/ng-dynamic-component/src/lib/dynamic-directives/dynamic-directives.directive.ts]
    and of the two helpers of [projects/ng-dynamic-component/src/lib/util.ts].

    The directive object is a record of its fields; its methods are
    computations in a state-and-exception monad over that record.  The
    framework services the directive consumes (the iterable differ, the
    injector, the IO service, the reflect service) are parameters: a type
    class for the differ and a record of oracles for the rest.  Every call
    that leaves the directive is appended to a trace, so that orderings can
    be stated.

    Constructors and lifecycle methods are user code and may throw, and so
    may reading the compiler metadata of a class; an exception leaves the
    fields as they are at that point.  The calls on the
    differ, on the IO service and on the event emitter are taken to return,
    and user code reached from a tick is taken not to call back into the
    directive. *)

From Stdlib Require Import List Arith Bool Lia String.
Import ListNotations.

(* ------------------------------------------------------------------ *)
(** * Data model *)
(* ------------------------------------------------------------------ *)

(** A JavaScript value that may be [undefined] or [null]. *)
Inductive Nullable (A : Type) : Type :=
| Undefined
| Null
| Defined (a : A).
Arguments Undefined {A}.
Arguments Null {A}.
Arguments Defined {A} a.

Definition truthy {A : Type} (x : Nullable A) : bool :=
  match x with Defined _ => true | _ => false end.

(** Strict equality [===] on nullable object references. *)
Definition strict_eqb (x y : Nullable nat) : bool :=
  match x, y with
  | Undefined, Undefined => true
  | Null, Null => true
  | Defined a, Defined b => a =? b
  | _, _ => false
  end.

(** [Type<unknown>]: a class, compared by identity. *)
Definition NgType := nat.
(** Identity of a heap object (component instance, directive instance, IO
    service). *)
Definition Obj := nat.
(** Opaque framework handles. *)
Definition Injector := nat.
Definition ViewRef := nat.
Definition ElementRef := nat.
Definition ChangeDetectorRef := nat.
Definition Callback := nat.
(** An injection token (a constructor parameter type). *)
Definition Token := nat.

Definition InputsType := list (string * nat).
Definition OutputsType := list (string * nat).

(** [DynamicDirectiveDef<T>].  [def_ref] is the identity of the JavaScript
    object: the same object mutated in place keeps its [def_ref]. *)
Record DynamicDirectiveDef : Type := mkDef {
  def_ref : Obj;
  def_type : NgType;
  def_inputs : option InputsType;
  def_outputs : option OutputsType
}.

(** [dynamicDirectiveDef(type, inputs, outputs)] returns a new object
    literal; the identity of that new object is the first argument here. *)
Definition dynamicDirectiveDef (fresh : Obj) (type : NgType)
    (inputs : option InputsType) (outputs : option OutputsType)
    : DynamicDirectiveDef :=
  mkDef fresh type inputs outputs.

(** [ComponentRef<unknown>], the fields the directive reads.  The adapter
    built by [dirToCompDef] has the same shape; its [setInput] closure
    assigns a property of the directive instance and is not data. *)
Record ComponentRef : Type := mkComponentRef {
  cr_instance : Obj;
  cr_componentType : NgType;
  cr_injector : Injector;
  cr_hostView : ViewRef;
  cr_location : ElementRef;
  cr_changeDetectorRef : ChangeDetectorRef;
  cr_destroy : Callback;
  cr_onDestroy : Callback
}.

(** [DirectiveRef<T>]. *)
Record DirectiveRef : Type := mkDirectiveRef {
  dr_instance : Obj;
  dr_type : NgType;
  dr_injector : Injector;
  dr_hostComponent : Obj;
  dr_hostView : ViewRef;
  dr_location : ElementRef;
  dr_changeDetectorRef : ChangeDetectorRef;
  dr_onDestroy : Callback
}.

(** An [IoService] as returned by [IoFactoryService.create]: a new object,
    remembering what it was created for. *)
Record IoService : Type := mkIoService {
  io_id : Obj;
  io_componentRef : ComponentRef;
  io_trackOutputChanges : bool;
  io_injector : Injector
}.

(** The lifecycle methods the directive looks up on an instance. *)
Inductive HookName : Type :=
| ngOnInit
| ngDoCheck_hook
| ngAfterContentInit
| ngAfterContentChecked
| ngAfterViewInit
| ngAfterViewChecked
| ngOnDestroy_hook.

Inductive Outcome : Type := Returns | Throws.

(** What [obj[hook]] holds: nothing (a falsy value), a truthy value that is
    not a function, or a method with the outcome of calling it. *)
Inductive Slot : Type :=
| Absent
| NonFunction
| Method (o : Outcome).

(** A constructor parameter as listed by the compiler metadata
    [ctorParameters()]. *)
Record CtorParam : Type := mkCtorParam { param_type : Token }.

(** An entry of the array [ctorParameters()] returns: a parameter, or
    [null], which the compiler writes for a parameter it has no type
    information for. *)
Definition CtorParamEntry := option CtorParam.

(** The part of the world outside the directive that its code consults. *)
Record World : Type := mkWorld {
  (** [type.ctorParameters?.()]: the static metadata, when there is any.
      The static is the compiler's: a function that returns an array. *)
  ctorParameters : NgType -> option (list CtorParamEntry);
  (** [ReflectService.getCtorParamTypes]. *)
  getCtorParamTypes : NgType -> option (list Token);
  (** [Injector.create({providers, parent}).get(dirType)]: whether resolving
      and constructing the class with these dependencies, under the host's
      injector and location, returns or throws. *)
  injectorGet : NgType -> list Token -> ComponentRef -> Outcome;
  (** The members of an instance. *)
  member : Obj -> HookName -> Slot
}.

(** What [forEachRemovedItem] and [forEachAddedItem] enumerate on an
    [IterableChanges] object, in their order.  (Moves and identity changes
    are part of the interface too; the directive never asks for them.) *)
Record IterableChanges : Type := mkChanges {
  removedItems : list DynamicDirectiveDef;
  addedItems : list DynamicDirectiveDef
}.

(** [IterableDiffer<DynamicDirectiveDef>], as created by
    [iterableDiffers.find([]).create((_, def) => def.type)]: a stateful
    object with one method, [diff], returning [null] or a change object. *)
Class IterableDiffer : Type := mkIterableDiffer {
  differ : Type;
  differ_create : differ;
  diff : differ -> option (list DynamicDirectiveDef)
         -> differ * option IterableChanges
}.

(** Calls that leave the directive, in the order they are made. *)
Inductive Event : Type :=
| EvDiff (collection : option (list DynamicDirectiveDef))
| EvNew (t : NgType) (o : Obj)
| EvIoCreate (io : IoService)
| EvIoUpdate (io : IoService) (i : option InputsType) (o : option OutputsType)
| EvIoDestroy (io : IoService)
| EvHook (o : Obj) (h : HookName)
| EvEmit (created : list DirectiveRef).

(** The exceptions: the injector's for a class, a lifecycle method's, and
    three [TypeError]s, of calling a member that is no function, of reading
    a property of a missing component reference and of reading [type] of a
    [null] entry of the metadata of a class. *)
Inductive Err : Type :=
| ResolutionError (t : NgType)
| HookError (o : Obj) (h : HookName)
| NotAFunction (o : Obj) (h : HookName)
| NullDeref
| NullParam (t : NgType).

(* ------------------------------------------------------------------ *)
(** * A JavaScript [Map] keyed by class: insertion-ordered, one entry per key *)
(* ------------------------------------------------------------------ *)

Section JsMap.
Context {V : Type}.

Definition JsMap := list (NgType * V).

Fixpoint map_get (k : NgType) (m : JsMap) : option V :=
  match m with
  | [] => None
  | (k', v) :: m' => if k =? k' then Some v else map_get k m'
  end.

Definition map_has (k : NgType) (m : JsMap) : bool :=
  match map_get k m with Some _ => true | None => false end.

(** [set] keeps the position of a key that is present and appends a new
    key at the end. *)
Fixpoint map_set (k : NgType) (v : V) (m : JsMap) : JsMap :=
  match m with
  | [] => [(k, v)]
  | (k', v') :: m' =>
      if k =? k' then (k, v) :: m' else (k', v') :: map_set k v m'
  end.

Definition map_delete (k : NgType) (m : JsMap) : JsMap :=
  filter (fun e => negb (k =? fst e)) m.

Definition map_clear (m : JsMap) : JsMap := [].

Definition map_keys (m : JsMap) : list NgType := map fst m.

(** The values in the order [forEach] visits them. *)
Definition map_values (m : JsMap) : list V := map snd m.
End JsMap.
Arguments JsMap V : clear implicits.

(* ------------------------------------------------------------------ *)
(** * The monad: state, with exceptions that keep the state *)
(* ------------------------------------------------------------------ *)

Inductive Result (A : Type) : Type :=
| Ok (a : A)
| Throw (e : Err).
Arguments Ok {A} a.
Arguments Throw {A} e.

Definition M (S A : Type) : Type := S -> Result A * S.

Definition ret {S A : Type} (a : A) : M S A := fun s => (Ok a, s).

Definition bind {S A B : Type} (m : M S A) (f : A -> M S B) : M S B :=
  fun s => match m s with
           | (Ok a, s') => f a s'
           | (Throw e, s') => (Throw e, s')
           end.

Definition throw {S A : Type} (e : Err) : M S A := fun s => (Throw e, s).

Definition gets {S A : Type} (f : S -> A) : M S A := fun s => (Ok (f s), s).

Definition modify {S : Type} (f : S -> S) : M S unit := fun s => (Ok tt, f s).

(** A call of a function that reads no field and may throw. *)
Definition lift {S A : Type} (r : Result A) : M S A := fun s => (r, s).

Notation "x <- m ;; k" := (bind m (fun x => k))
  (at level 61, m at next level, right associativity).
Notation "m ;;; k" := (bind m (fun _ => k))
  (at level 61, right associativity).

(** [Array.prototype.forEach], [Map.prototype.forEach] and the differ's
    [forEach...Item]: the callback runs on each element in order; an
    exception ends the loop. *)
Fixpoint forEach {S A : Type} (f : A -> M S unit) (l : list A) : M S unit :=
  match l with
  | [] => ret tt
  | a :: l' => f a ;;; forEach f l'
  end.

(* ------------------------------------------------------------------ *)
(** * The directive *)
(* ------------------------------------------------------------------ *)

(** [DynamicComponentInjector]: its [componentRef] is a component reference
    or [null]. *)
Record DynamicComponentInjector : Type := mkComponentInjector {
  ci_componentRef : option ComponentRef
}.

Section Directive.
Context {D : IterableDiffer}.
Variable W : World.

(** The fields of a [DynamicDirectivesDirective], with the allocation
    counter of the heap and the trace of outgoing calls.  The injected
    [componentInjector] is one object whose [componentRef] changes over
    time; here the field holds its current content. *)
Record St : Type := mkSt {
  ndcDynamicDirectives : option (list DynamicDirectiveDef);
  ngComponentOutletNdcDynamicDirectives : option (list DynamicDirectiveDef);
  componentInjector : option DynamicComponentInjector;
  injector : Injector;
  lastCompInstance : Nullable Obj;
  dirRef : JsMap DirectiveRef;
  dirIo : JsMap IoService;
  dirsDiffer : differ;
  heap_next : Obj;
  trace : list Event
}.

Definition set_lastCompInstance (x : Nullable Obj) (s : St) : St :=
  mkSt (ndcDynamicDirectives s) (ngComponentOutletNdcDynamicDirectives s)
       (componentInjector s) (injector s) x (dirRef s) (dirIo s)
       (dirsDiffer s) (heap_next s) (trace s).

Definition set_dirRef (m : JsMap DirectiveRef) (s : St) : St :=
  mkSt (ndcDynamicDirectives s) (ngComponentOutletNdcDynamicDirectives s)
       (componentInjector s) (injector s) (lastCompInstance s) m (dirIo s)
       (dirsDiffer s) (heap_next s) (trace s).

Definition set_dirIo (m : JsMap IoService) (s : St) : St :=
  mkSt (ndcDynamicDirectives s) (ngComponentOutletNdcDynamicDirectives s)
       (componentInjector s) (injector s) (lastCompInstance s) (dirRef s) m
       (dirsDiffer s) (heap_next s) (trace s).

Definition set_dirsDiffer (d : differ) (s : St) : St :=
  mkSt (ndcDynamicDirectives s) (ngComponentOutletNdcDynamicDirectives s)
       (componentInjector s) (injector s) (lastCompInstance s) (dirRef s)
       (dirIo s) d (heap_next s) (trace s).

Definition set_heap_next (n : Obj) (s : St) : St :=
  mkSt (ndcDynamicDirectives s) (ngComponentOutletNdcDynamicDirectives s)
       (componentInjector s) (injector s) (lastCompInstance s) (dirRef s)
       (dirIo s) (dirsDiffer s) n (trace s).

Definition set_trace (t : list Event) (s : St) : St :=
  mkSt (ndcDynamicDirectives s) (ngComponentOutletNdcDynamicDirectives s)
       (componentInjector s) (injector s) (lastCompInstance s) (dirRef s)
       (dirIo s) (dirsDiffer s) (heap_next s) t.

(** What the host writes before a tick: the two inputs and the current
    component reference of the injected [DynamicComponentInjector]. *)
Definition set_inputs (ndc outlet : option (list DynamicDirectiveDef))
    (ci : option DynamicComponentInjector) (s : St) : St :=
  mkSt ndc outlet ci (injector s) (lastCompInstance s) (dirRef s) (dirIo s)
       (dirsDiffer s) (heap_next s) (trace s).

(** The directive as its field initialisers and constructor leave it. *)
Definition new_directive (inj : Injector)
    (ci : option DynamicComponentInjector) : St :=
  mkSt None None ci inj Undefined [] [] differ_create 0 [].

Definition log (evs : list Event) (s : St) : St :=
  set_trace (trace s ++ evs) s.

Definition emit_event (e : Event) : M St unit := modify (log [e]).

(** A new heap object. *)
Definition alloc : M St Obj :=
  fun s => (Ok (heap_next s), set_heap_next (S (heap_next s)) s).

(** ** Getters *)

(** [this.ndcDynamicDirectives || this.ngComponentOutletNdcDynamicDirectives]:
    an array, even an empty one, is truthy. *)
Definition directives (s : St) : option (list DynamicDirectiveDef) :=
  match ndcDynamicDirectives s with
  | Some l => Some l
  | None => ngComponentOutletNdcDynamicDirectives s
  end.

(** [this.componentInjector?.componentRef]. *)
Definition componentRef (s : St) : Nullable ComponentRef :=
  match componentInjector s with
  | None => Undefined
  | Some ci => match ci_componentRef ci with
               | None => Null
               | Some c => Defined c
               end
  end.

(** [this.componentRef && this.componentRef.instance]. *)
Definition compInstance (s : St) : Nullable Obj :=
  match componentRef s with
  | Undefined => Undefined
  | Null => Null
  | Defined c => Defined (cr_instance c)
  end.

(** The getter [isCompChanged] updates [lastCompInstance] when it answers
    [true]. *)
Definition isCompChanged : M St bool :=
  fun s =>
    if negb (strict_eqb (lastCompInstance s) (compInstance s))
    then (Ok true, set_lastCompInstance (compInstance s) s)
    else (Ok false, s).

(** [this.componentRef!]: reading a property of it throws a [TypeError]
    when there is no component reference. *)
Definition componentRef_bang : M St ComponentRef :=
  fun s => match componentRef s with
           | Defined c => (Ok c, s)
           | _ => (Throw NullDeref, s)
           end.

(** ** util.ts *)

(** [params.map((param) => param.type)]: reading [type] of a [null] entry
    throws a [TypeError]. *)
Fixpoint param_types (t : NgType) (params : list CtorParamEntry)
    : Result (list Token) :=
  match params with
  | [] => Ok []
  | None :: _ => Throw (NullParam t)
  | Some param :: rest =>
      match param_types t rest with
      | Ok types => Ok (param_type param :: types)
      | Throw e => Throw e
      end
  end.

(** The answer is [undefined] when the class has no metadata. *)
Definition extractNgParamTypes (t : NgType) : Result (option (list Token)) :=
  match ctorParameters W t with
  | None => Ok None
  | Some params =>
      match param_types t params with
      | Ok types => Ok (Some types)
      | Throw e => Throw e
      end
  end.

Definition isOnDestroy (obj : Obj) : bool :=
  match member W obj ngOnDestroy_hook with
  | Method _ => true
  | _ => false
  end.

(** ** Methods *)

(** [obj[hook]()]: calling what the slot holds. *)
Definition invoke (obj : Obj) (hook : HookName) : M St unit :=
  match member W obj hook with
  | Method Returns => emit_event (EvHook obj hook)
  | Method Throws => emit_event (EvHook obj hook) ;;; throw (HookError obj hook)
  | _ => throw (NotAFunction obj hook)
  end.

(** [if (obj[hook]) obj[hook](...args)], always called with no [args]. *)
Definition callHook (obj : Obj) (hook : HookName) : M St unit :=
  match member W obj hook with
  | Absent => ret tt
  | _ => invoke obj hook
  end.

Definition callInitHooks (obj : Obj) : M St unit :=
  callHook obj ngOnInit ;;;
  callHook obj ngDoCheck_hook ;;;
  callHook obj ngAfterContentInit ;;;
  callHook obj ngAfterContentChecked ;;;
  callHook obj ngAfterViewInit ;;;
  callHook obj ngAfterViewChecked.

Definition resolveDirParamTypes (dirType : NgType) : Result (list Token) :=
  match extractNgParamTypes dirType with
  | Throw e => Throw e
  | Ok (Some l) => Ok l
  | Ok None => match getCtorParamTypes W dirType with
               | Some l => Ok l
               | None => Ok []
               end
  end.

(** The providers are built first, [deps] before the element reference of
    the host. *)
Definition createDirective (dirType : NgType) : M St Obj :=
  deps <- lift (resolveDirParamTypes dirType) ;;
  c <- componentRef_bang ;;
  match injectorGet W dirType deps c with
  | Throws => throw (ResolutionError dirType)
  | Returns =>
      o <- alloc ;;
      emit_event (EvNew dirType o) ;;;
      ret o
  end.

Definition destroyDirRef (dirRef0 : DirectiveRef) : M St unit :=
  io <- gets (fun s => map_get (dr_type dirRef0) (dirIo s)) ;;
  match io with
  | Some io => emit_event (EvIoDestroy io)
  | None => ret tt
  end ;;;
  if isOnDestroy (dr_instance dirRef0)
  then invoke (dr_instance dirRef0) ngOnDestroy_hook
  else ret tt.

Definition dirToCompDef (dirRef0 : DirectiveRef) : M St ComponentRef :=
  c <- componentRef_bang ;;
  ret (mkComponentRef (dr_instance dirRef0) (dr_type dirRef0)
         (cr_injector c) (cr_hostView c) (cr_location c)
         (cr_changeDetectorRef c) (cr_destroy c) (cr_onDestroy c)).

Definition initDirIO (dirRef0 : DirectiveRef) (dirDef : DynamicDirectiveDef)
    : M St unit :=
  adapter <- dirToCompDef dirRef0 ;;
  inj <- gets injector ;;
  id <- alloc ;;
  let io := mkIoService id adapter true inj in
  emit_event (EvIoCreate io) ;;;
  emit_event (EvIoUpdate io (def_inputs dirDef) (def_outputs dirDef)) ;;;
  modify (fun s => set_dirIo (map_set (dr_type dirRef0) io (dirIo s)) s).

Definition destroyDirective (dirDef : DynamicDirectiveDef) : M St unit :=
  r <- gets (fun s => map_get (def_type dirDef) (dirRef s)) ;;
  match r with
  | Some r => destroyDirRef r
  | None => ret tt
  end ;;;
  modify (fun s => set_dirRef (map_delete (def_type dirDef) (dirRef s)) s) ;;;
  modify (fun s => set_dirIo (map_delete (def_type dirDef) (dirIo s)) s).

Definition destroyAllDirectives : M St unit :=
  refs <- gets (fun s => map_values (dirRef s)) ;;
  forEach destroyDirRef refs ;;;
  modify (fun s => set_dirRef (map_clear (dirRef s)) s) ;;;
  modify (fun s => set_dirIo (map_clear (dirIo s)) s).

(** The [injector] of the record is [this.hostInjector], that is
    [this.componentRef?.injector]; the next field dereferences
    [this.componentRef!]. *)
Definition initDirective (dirDef : DynamicDirectiveDef)
    : M St (option DirectiveRef) :=
  has <- gets (fun s => map_has (def_type dirDef) (dirRef s)) ;;
  if has then ret None
  else
    instance <- createDirective (def_type dirDef) ;;
    c <- componentRef_bang ;;
    let directiveRef :=
      mkDirectiveRef instance (def_type dirDef) (cr_injector c)
        (cr_instance c) (cr_hostView c) (cr_location c)
        (cr_changeDetectorRef c) (cr_onDestroy c) in
    initDirIO directiveRef dirDef ;;;
    callInitHooks instance ;;;
    modify (fun s =>
      set_dirRef (map_set (dr_type directiveRef) directiveRef (dirRef s)) s) ;;;
    ret (Some directiveRef).

Definition updateDirective (dirDef : DynamicDirectiveDef) : M St unit :=
  io <- gets (fun s => map_get (def_type dirDef) (dirIo s)) ;;
  match io with
  | Some io =>
      emit_event (EvIoUpdate io (def_inputs dirDef) (def_outputs dirDef))
  | None => ret tt
  end.

Definition updateDirectives : M St unit :=
  ds <- gets directives ;;
  match ds with
  | Some l => forEach updateDirective l
  | None => ret tt
  end.

(** The body of [changes.forEachAddedItem(...)], with the array
    [createdDirs] it pushes to. *)
Fixpoint forEachAddedItem (items : list DynamicDirectiveDef)
    (createdDirs : list DirectiveRef) : M St (list DirectiveRef) :=
  match items with
  | [] => ret createdDirs
  | item :: rest =>
      r <- initDirective item ;;
      match r with
      | Some dirRef0 => forEachAddedItem rest (createdDirs ++ [dirRef0])
      | None => forEachAddedItem rest createdDirs
      end
  end.

Definition processDirChanges (changes : IterableChanges) : M St unit :=
  forEach destroyDirective (removedItems changes) ;;;
  createdDirs <- forEachAddedItem (addedItems changes) [] ;;
  match createdDirs with
  | [] => ret tt
  | _ :: _ => emit_event (EvEmit createdDirs)
  end.

(** [this.dirsDiffer.diff(collection)]. *)
Definition dirsDiffer_diff (collection : option (list DynamicDirectiveDef))
    : M St (option IterableChanges) :=
  fun s =>
    let (d', changes) := diff (dirsDiffer s) collection in
    (Ok changes, log [EvDiff collection] (set_dirsDiffer d' s)).

Definition maybeDestroyDirectives : M St bool :=
  changed <- isCompChanged ;;
  absent <- gets (fun s => negb (truthy (componentRef s))) ;;
  (if changed || absent
   then dirsDiffer_diff (Some []) ;;; destroyAllDirectives
   else ret tt) ;;;
  gets (fun s => negb (truthy (componentRef s))).

Definition ngDoCheck : M St unit :=
  stop <- maybeDestroyDirectives ;;
  if stop then ret tt
  else
    ds <- gets directives ;;
    dirsChanges <- dirsDiffer_diff ds ;;
    match dirsChanges with
    | None => updateDirectives
    | Some changes => processDirChanges changes
    end.

Definition ngOnDestroy : M St unit := destroyAllDirectives.
End Directive.

Arguments St {D}.
Arguments mkSt {D}.

(* ------------------------------------------------------------------ *)
(** * A differ to run the directive with *)
(* ------------------------------------------------------------------ *)

Module DefaultDiffer.

(** Two entries are the same for the differ when the tracking key
    [def.type] and the object are the same. *)
Definition same_entry (a b : DynamicDirectiveDef) : bool :=
  (def_type a =? def_type b) && (def_ref a =? def_ref b).

Fixpoint same_sequence (l1 l2 : list DynamicDirectiveDef) : bool :=
  match l1, l2 with
  | [], [] => true
  | a :: l1', b :: l2' => same_entry a b && same_sequence l1' l2'
  | _, _ => false
  end.

(** Takes the first remembered entry of class [t] out of the pool. *)
Fixpoint take (t : NgType) (pool : list DynamicDirectiveDef)
    : option (list DynamicDirectiveDef) :=
  match pool with
  | [] => None
  | d :: pool' =>
      if def_type d =? t then Some pool'
      else option_map (cons d) (take t pool')
  end.

(** Each entry of the collection is matched with one remembered entry of
    its class, if one is left; the entries without a match are the added
    ones, the remembered entries left over are the removed ones. *)
Fixpoint match_items (coll pool : list DynamicDirectiveDef)
    : list DynamicDirectiveDef * list DynamicDirectiveDef :=
  match coll with
  | [] => ([], pool)
  | d :: coll' =>
      match take (def_type d) pool with
      | Some pool' => match_items coll' pool'
      | None =>
          let (added, rest) := match_items coll' pool in (d :: added, rest)
      end
  end.

(** Modelled from the spec: the List Differ, which is the framework's
    default iterable differ and not part of the repository.  It holds the
    previously seen sequence of definitions and compares by class; a
    missing collection counts as the empty one.  It answers [null] when
    the collection is the remembered sequence, entry by entry, and
    otherwise a change object listing the removed entries (in the order
    they were remembered) and the added ones (in the order they are
    declared).  A definition object is assumed to keep its [type] once the
    differ has seen it. *)
Definition default_diff (memo : list DynamicDirectiveDef)
    (collection : option (list DynamicDirectiveDef))
    : list DynamicDirectiveDef * option IterableChanges :=
  let coll := match collection with Some l => l | None => [] end in
  if same_sequence memo coll then (coll, None)
  else
    let (added, removed) := match_items coll memo in
    (coll, Some (mkChanges removed added)).

#[export] Instance default_differ : IterableDiffer :=
  mkIterableDiffer (list DynamicDirectiveDef) [] default_diff.

End DefaultDiffer.
Export DefaultDiffer.

(* ------------------------------------------------------------------ *)
(** * What a creation builds *)
(* ------------------------------------------------------------------ *)

(** The record [initDirective] builds for a new instance [o] of class [t]
    under the host [c]. *)
Definition new_dirRef (c : ComponentRef) (t : NgType) (o : Obj)
    : DirectiveRef :=
  mkDirectiveRef o t (cr_injector c) (cr_instance c) (cr_hostView c)
    (cr_location c) (cr_changeDetectorRef c) (cr_onDestroy c).

(** The IO service [initDirIO] obtains for it: a new object [id], created
    for the adapter of the record, by the directive whose injector is
    [inj]. *)
Definition new_io (c : ComponentRef) (inj : Injector) (t : NgType)
    (o id : Obj) : IoService :=
  mkIoService id
    (mkComponentRef o t (cr_injector c) (cr_hostView c) (cr_location c)
       (cr_changeDetectorRef c) (cr_destroy c) (cr_onDestroy c))
    true inj.

(** The calls made up to the point where the port is stored. *)
Definition wiring_events (c : ComponentRef) (inj : Injector)
    (d : DynamicDirectiveDef) (o : Obj) : list Event :=
  [EvNew (def_type d) o;
   EvIoCreate (new_io c inj (def_type d) o (S o));
   EvIoUpdate (new_io c inj (def_type d) o (S o)) (def_inputs d)
     (def_outputs d)].

(* ------------------------------------------------------------------ *)
(** * Concrete worlds and inputs *)
(* ------------------------------------------------------------------ *)

Module Sample.

(** Three directive classes. *)
Definition A : NgType := 1.
Definition B : NgType := 2.
Definition C : NgType := 3.

Definition host1 : ComponentRef := mkComponentRef 100 50 60 61 62 63 64 65.
Definition host2 : ComponentRef := mkComponentRef 101 50 70 71 72 73 74 75.

Definition present (c : ComponentRef) : option DynamicComponentInjector :=
  Some (mkComponentInjector (Some c)).
Definition no_component : option DynamicComponentInjector :=
  Some (mkComponentInjector None).

Definition defA : DynamicDirectiveDef :=
  dynamicDirectiveDef 10 A (Some [("a"%string, 1)]) None.
Definition defB : DynamicDirectiveDef :=
  dynamicDirectiveDef 11 B None (Some [("b"%string, 2)]).
Definition defC : DynamicDirectiveDef :=
  dynamicDirectiveDef 12 C None None.
(** A second declaration of class [A], as another object. *)
Definition defA' : DynamicDirectiveDef :=
  dynamicDirectiveDef 13 A (Some [("a"%string, 7)]) None.

(** Every class constructs; every instance has [ngOnInit],
    [ngAfterViewInit] and [ngOnDestroy], and they return. *)
Definition quiet_world : World :=
  mkWorld (fun _ => None) (fun _ => None) (fun _ _ _ => Returns)
    (fun _ h => match h with
                | ngOnInit | ngAfterViewInit | ngOnDestroy_hook =>
                    Method Returns
                | _ => Absent
                end).

(** As [quiet_world], but [ngOnInit] throws. *)
Definition init_throws_world : World :=
  mkWorld (fun _ => None) (fun _ => None) (fun _ _ _ => Returns)
    (fun _ h => match h with
                | ngOnInit => Method Throws
                | ngOnDestroy_hook => Method Returns
                | _ => Absent
                end).

(** As [quiet_world], but class [B] cannot be constructed. *)
Definition b_fails_world : World :=
  mkWorld (fun _ => None) (fun _ => None)
    (fun t _ _ => if t =? B then Throws else Returns)
    (fun _ h => match h with
                | ngOnInit | ngAfterViewInit | ngOnDestroy_hook =>
                    Method Returns
                | _ => Absent
                end).

Definition start : St := new_directive 7 None.

(** One tick: the host writes the inputs, then change detection calls
    [ngDoCheck]. *)
Definition tick (W : World) (ndc : option (list DynamicDirectiveDef))
    (ci : option DynamicComponentInjector) (s : St) : Result unit * St :=
  ngDoCheck W (set_inputs ndc None ci s).

(** The directive after a first tick declaring [A] and [B] on [host1]. *)
Definition after_AB : St :=
  snd (tick quiet_world (Some [defA; defB]) (present host1) start).

(** The directive after a first tick declaring class [A] twice. *)
Definition after_AA : St :=
  snd (tick quiet_world (Some [defA; defA']) (present host1) start).

(** The directive after a first tick declaring nothing on [host1]. *)
Definition after_none : St :=
  snd (tick quiet_world (Some []) (present host1) start).

(** The object [defA] after its inputs were changed in place. *)
Definition defA_changed : DynamicDirectiveDef :=
  mkDef (def_ref defA) A (Some [("a"%string, 5)]) None.

(** The first two records and ports created on [host1] by [start]. *)
Definition recA : DirectiveRef := new_dirRef host1 A 0.
Definition portA : IoService := new_io host1 7 A 0 1.
Definition recB : DirectiveRef := new_dirRef host1 B 2.
Definition portB : IoService := new_io host1 7 B 2 3.
End Sample.

(** The number of [update] calls a port receives among some calls. *)
Definition update_calls (io : IoService) (evs : list Event) : nat :=
  List.length (filter (fun e => match e with
                           | EvIoUpdate io' _ _ => io_id io' =? io_id io
                           | _ => false
                           end) evs).

(** An exception raised while the hooks of a new instance run: a hook
    that throws, or a truthy slot that cannot be called. *)
Definition init_failure (e : Err) : bool :=
  match e with
  | HookError _ ngOnDestroy_hook => false
  | HookError _ _ => true
  | NotAFunction _ _ => true
  | _ => false
  end.

(** An operation's answer that is not such an exception. *)
Definition clean {A : Type} (r : Result A) : bool :=
  match r with
  | Ok _ => true
  | Throw e => negb (init_failure e)
  end.

(** The number of instances of class [T] constructed among some calls. *)
Definition is_new (T : NgType) (e : Event) : bool :=
  match e with EvNew t _ => t =? T | _ => false end.

Definition constructions (T : NgType) (evs : list Event) : nat :=
  List.length (filter (is_new T) evs).

(** The number of creation notifications among some calls. *)
Definition is_emit (e : Event) : bool :=
  match e with EvEmit _ => true | _ => false end.

Definition emissions (evs : list Event) : nat :=
  List.length (filter is_emit evs).

Arguments constructions : simpl never.
Arguments emissions : simpl never.

(* ------------------------------------------------------------------ *)
(** * Pure descriptions of what the methods do *)
(* ------------------------------------------------------------------ *)

(** The six hooks [callInitHooks] goes through, in its order. *)
Definition initHooks : list HookName :=
  [ngOnInit; ngDoCheck_hook; ngAfterContentInit; ngAfterContentChecked;
   ngAfterViewInit; ngAfterViewChecked].

Section Descriptions.
Context {D : IterableDiffer}.
Variable W : World.

(** [obj[hook]] is truthy. *)
Definition exposes (obj : Obj) (hook : HookName) : bool :=
  match member W obj hook with Absent => false | _ => true end.

(** Looking the hook up and calling it cannot throw. *)
Definition calm (obj : Obj) (hook : HookName) : bool :=
  match member W obj hook with
  | Absent | Method Returns => true
  | _ => false
  end.

(** The teardown method of the instance of a record throws. *)
Definition teardown_throws (r : DirectiveRef) : bool :=
  match member W (dr_instance r) ngOnDestroy_hook with
  | Method Throws => true
  | _ => false
  end.

(** The calls [destroyDirRef] makes for a record in a state. *)
Definition port_teardown (s : St) (r : DirectiveRef) : list Event :=
  match map_get (dr_type r) (dirIo s) with
  | Some io => [EvIoDestroy io]
  | None => []
  end.

Definition instance_teardown (r : DirectiveRef) : list Event :=
  if isOnDestroy W (dr_instance r)
  then [EvHook (dr_instance r) ngOnDestroy_hook]
  else [].

Definition destroy_events (s : St) (r : DirectiveRef) : list Event :=
  port_teardown s r ++ instance_teardown r.

(** The call [updateDirective] makes for a declaration in a state. *)
Definition update_events (s : St) (d : DynamicDirectiveDef) : list Event :=
  match map_get (def_type d) (dirIo s) with
  | Some io => [EvIoUpdate io (def_inputs d) (def_outputs d)]
  | None => []
  end.

(** The state once the port of the new instance is stored and before its
    hooks run. *)
Definition wired (c : ComponentRef) (d : DynamicDirectiveDef) (s : St)
    : St :=
  set_dirIo
    (map_set (def_type d)
       (new_io c (injector s) (def_type d) (heap_next s) (S (heap_next s)))
       (dirIo s))
    (log (wiring_events c (injector s) d (heap_next s))
       (set_heap_next (S (S (heap_next s))) s)).

(** The hook calls of [callInitHooks] on an instance none of whose hooks
    throws. *)
Definition init_events (obj : Obj) : list Event :=
  map (EvHook obj) (filter (exposes obj) initHooks).

(** All the calls of a creation that succeeds. *)
Definition create_events (c : ComponentRef) (d : DynamicDirectiveDef)
    (s : St) : list Event :=
  wiring_events c (injector s) d (heap_next s) ++ init_events (heap_next s).

(** The state after a creation that succeeds. *)
Definition attached (c : ComponentRef) (d : DynamicDirectiveDef) (s : St)
    : St :=
  set_dirRef
    (map_set (def_type d) (new_dirRef c (def_type d) (heap_next s))
       (dirRef s))
    (set_dirIo
       (map_set (def_type d)
          (new_io c (injector s) (def_type d) (heap_next s)
             (S (heap_next s)))
          (dirIo s))
       (log (create_events c d s) (set_heap_next (S (S (heap_next s))) s))).

(** [forEachAddedItem] when nothing throws: the state it reaches, the
    records it collects and the calls it makes. *)
Fixpoint attach_all (c : ComponentRef) (items : list DynamicDirectiveDef)
    (s : St) : St :=
  match items with
  | [] => s
  | d :: rest =>
      attach_all c rest
        (if map_has (def_type d) (dirRef s) then s else attached c d s)
  end.

Fixpoint created_all (c : ComponentRef) (items : list DynamicDirectiveDef)
    (s : St) : list DirectiveRef :=
  match items with
  | [] => []
  | d :: rest =>
      if map_has (def_type d) (dirRef s) then created_all c rest s
      else new_dirRef c (def_type d) (heap_next s)
           :: created_all c rest (attached c d s)
  end.

Fixpoint attach_events (c : ComponentRef) (items : list DynamicDirectiveDef)
    (s : St) : list Event :=
  match items with
  | [] => []
  | d :: rest =>
      if map_has (def_type d) (dirRef s) then attach_events c rest s
      else create_events c d s ++ attach_events c rest (attached c d s)
  end.

(** [destroyDirective] when no teardown throws. *)
Definition detached (d : DynamicDirectiveDef) (s : St) : St :=
  set_dirIo (map_delete (def_type d) (dirIo s))
    (set_dirRef (map_delete (def_type d) (dirRef s))
       (log (match map_get (def_type d) (dirRef s) with
             | Some r => destroy_events s r
             | None => []
             end) s)).

Fixpoint detach_all (items : list DynamicDirectiveDef) (s : St) : St :=
  match items with
  | [] => s
  | d :: rest => detach_all rest (detached d s)
  end.

Fixpoint detach_events (items : list DynamicDirectiveDef) (s : St)
    : list Event :=
  match items with
  | [] => []
  | d :: rest =>
      match map_get (def_type d) (dirRef s) with
      | Some r => destroy_events s r
      | None => []
      end ++ detach_events rest (detached d s)
  end.

(** The declared list, with a missing one read as empty. *)
Definition declared (s : St) : list DynamicDirectiveDef :=
  match directives s with Some l => l | None => [] end.

(** The state once the differ has been asked about the declared list. *)
Definition diffed (s : St) : St :=
  log [EvDiff (directives s)]
    (set_dirsDiffer (fst (diff (dirsDiffer s) (directives s))) s).

(** [processDirChanges] when nothing throws. *)
Definition processed (c : ComponentRef) (changes : IterableChanges) (s : St)
    : St :=
  let s0 := detach_all (removedItems changes) s in
  let s1 := attach_all c (addedItems changes) s0 in
  match created_all c (addedItems changes) s0 with
  | [] => s1
  | r :: rs => log [EvEmit (r :: rs)] s1
  end.

(** The calls made between two states of one run. *)
Definition since (s s' : St) : list Event :=
  skipn (List.length (trace s)) (trace s').

(** ** Operations and runs *)

(** What can happen to a directive: a tick, for which the host has written
    the two inputs and the component reference, or its destruction. *)
Inductive Op : Type :=
| OpTick (ndc outlet : option (list DynamicDirectiveDef))
    (ci : option DynamicComponentInjector)
| OpDestroy.

Definition apply_op (op : Op) (s : St) : Result unit * St :=
  match op with
  | OpTick ndc outlet ci => ngDoCheck W (set_inputs ndc outlet ci s)
  | OpDestroy => ngOnDestroy W s
  end.

(** A run keeps the directive whatever an operation answered: an exception
    goes to the caller, the object stays. *)
Fixpoint run (ops : list Op) (s : St) : list (Result unit) * St :=
  match ops with
  | [] => ([], s)
  | op :: rest =>
      let (r, s1) := apply_op op s in
      let (rs, s2) := run rest s1 in
      (r :: rs, s2)
  end.

(** A tick on which there is no component reference. *)
Definition host_absent (op : Op) : Prop :=
  match op with
  | OpTick _ _ None => True
  | OpTick _ _ (Some ci) => ci_componentRef ci = None
  | OpDestroy => False
  end.

(** ** The record store *)

(** What holds of the two maps in every state the directive can be in: one
    entry per class in each, every record stored under its own class, and a
    port for every class that has a record. *)
Definition store_ok (s : St) : Prop :=
  NoDup (map_keys (dirRef s)) /\
  NoDup (map_keys (dirIo s)) /\
  incl (map_keys (dirRef s)) (map_keys (dirIo s)) /\
  Forall (fun e => dr_type (snd e) = fst e) (dirRef s).

(** The two maps have the same keys (in the same order). *)
Definition store_paired (s : St) : Prop :=
  map_keys (dirRef s) = map_keys (dirIo s).

(** A method keeps the store in order, and keeps the two maps paired
    unless it ends with an exception from the hooks of a new instance. *)
Definition preserves {A : Type} (m : M St A) : Prop :=
  forall s,
    (store_ok s -> store_ok (snd (m s))) /\
    (store_paired s -> clean (fst (m s)) = true -> store_paired (snd (m s))).

(** The state after the full teardown a tick performs when the host
    changed or is absent (no teardown throwing). *)
Definition torn_down (s : St) : St :=
  set_dirIo [] (set_dirRef []
    (log (EvDiff (Some []) ::
          flat_map (destroy_events s) (map_values (dirRef s)))
       (set_dirsDiffer (fst (diff (dirsDiffer s) (Some [])))
          (if strict_eqb (lastCompInstance s) (compInstance s) then s
           else set_lastCompInstance (compInstance s) s)))).

(** The host anchor is the one seen on the previous tick. *)
Definition host_stable (s : St) (c : ComponentRef) : Prop :=
  componentRef s = Defined c /\
  lastCompInstance s = Defined (cr_instance c).

(** How the construction of class [t] under the host [c] ends: with the
    exception of reading its metadata, with the injector's, or well. *)
Definition construction (t : NgType) (c : ComponentRef) : Result unit :=
  match resolveDirParamTypes W t with
  | Throw e => Throw e
  | Ok deps =>
      match injectorGet W t deps c with
      | Throws => Throw (ResolutionError t)
      | Returns => Ok tt
      end
  end.

(** The metadata of a class can be read: it lists no [null] parameter. *)
Definition metadata_reads (t : NgType) : bool :=
  match resolveDirParamTypes W t with
  | Ok _ => true
  | Throw _ => false
  end.

(** No class fails to construct, no member access or call throws and no
    metadata fails to be read. *)
Definition never_throws : Prop :=
  (forall t deps c, injectorGet W t deps c = Returns) /\
  (forall o h, calm o h = true) /\
  (forall t, metadata_reads t = true).
End Descriptions.

(* ------------------------------------------------------------------ *)
(** * Proof tools *)
(* ------------------------------------------------------------------ *)

(** Field reads through field updates. *)
Ltac fields :=
  cbn [ndcDynamicDirectives ngComponentOutletNdcDynamicDirectives
       componentInjector injector lastCompInstance dirRef dirIo dirsDiffer
       heap_next trace set_lastCompInstance set_dirRef set_dirIo
       set_dirsDiffer set_heap_next set_trace set_inputs log fst snd].

(** Getters applied to an updated state, folded back onto the state [s] the
    updates started from, wherever the update did not touch what they read. *)
Ltac refold s :=
  repeat match goal with
  | |- context [componentRef ?x] =>
      lazymatch x with s => fail | _ => idtac end;
      change (componentRef x) with (componentRef s)
  | |- context [compInstance ?x] =>
      lazymatch x with s => fail | _ => idtac end;
      change (compInstance x) with (compInstance s)
  | |- context [directives ?x] =>
      lazymatch x with s => fail | _ => idtac end;
      change (directives x) with (directives s)
  | |- context [dirRef ?x] =>
      lazymatch x with s => fail | _ => idtac end;
      change (dirRef x) with (dirRef s)
  | |- context [dirIo ?x] =>
      lazymatch x with s => fail | _ => idtac end;
      change (dirIo x) with (dirIo s)
  | |- context [dirsDiffer ?x] =>
      lazymatch x with s => fail | _ => idtac end;
      change (dirsDiffer x) with (dirsDiffer s)
  | |- context [lastCompInstance ?x] =>
      lazymatch x with s => fail | _ => idtac end;
      change (lastCompInstance x) with (lastCompInstance s)
  | |- context [heap_next ?x] =>
      lazymatch x with s => fail | _ => idtac end;
      change (heap_next x) with (heap_next s)
  | |- context [injector ?x] =>
      lazymatch x with s => fail | _ => idtac end;
      change (injector x) with (injector s)
  end.

(** Two states built from the same one by field updates are equal when
    their traces are equal up to the bracketing of appends. *)
Ltac state_eq s :=
  destruct s; unfold log, set_trace, set_dirIo, set_dirRef, set_dirsDiffer,
    set_heap_next, set_lastCompInstance; simpl;
  rewrite <- ?app_assoc; simpl; reflexivity.

(* ------------------------------------------------------------------ *)
(** * Further descriptions: invariants, frames and failures *)
(* ------------------------------------------------------------------ *)

(** A call that tears something down: the teardown of a port or the
    teardown method of an instance. *)
Definition is_teardown (e : Event) : bool :=
  match e with
  | EvIoDestroy _ => true
  | EvHook _ ngOnDestroy_hook => true
  | _ => false
  end.

Definition not_emit (e : Event) : bool := negb (is_emit e).

(** The port was created for the adapter [dirToCompDef] builds of the
    record, with output tracking on, by a directive whose own injector is
    [inj]. *)
Definition port_for (inj : Injector) (r : DirectiveRef) (io : IoService)
    : Prop :=
  cr_instance (io_componentRef io) = dr_instance r /\
  cr_componentType (io_componentRef io) = dr_type r /\
  cr_injector (io_componentRef io) = dr_injector r /\
  cr_hostView (io_componentRef io) = dr_hostView r /\
  cr_location (io_componentRef io) = dr_location r /\
  cr_changeDetectorRef (io_componentRef io) = dr_changeDetectorRef r /\
  cr_onDestroy (io_componentRef io) = dr_onDestroy r /\
  io_trackOutputChanges io = true /\
  io_injector io = inj.

Section Conditions.
Context {D : IterableDiffer}.
Variable W : World.

(** [this.componentRef?.injector]. *)
Definition hostInjector (s : St) : Nullable Injector :=
  match componentRef s with
  | Defined c => Defined (cr_injector c)
  | _ => Undefined
  end.

(** A method keeps [I] true of the state, whatever it answers, and the only
    exceptions it can end with are those of [E]. *)
Definition triple {A : Type} (I : St -> Prop) (E : Err -> Prop)
    (m : M St A) : Prop :=
  forall s, I s -> I (snd (m s)) /\ forall e, fst (m s) = Throw e -> E e.

(** The calls made since the trace was [t0] all satisfy [P]. *)
Definition made_only (P : Event -> bool) (t0 : list Event) (s : St) : Prop :=
  exists evs, trace s = t0 ++ evs /\ forallb P evs = true.

(** The state with the two inputs replaced. *)
Definition with_inputs (ndc outlet : option (list DynamicDirectiveDef))
    (s : St) : St :=
  set_inputs ndc outlet (componentInjector s) s.

(** A method never looks at the two inputs. *)
Definition commutes {A : Type} (m : M St A) : Prop :=
  forall ndc outlet s,
    m (with_inputs ndc outlet s)
    = (fst (m s), with_inputs ndc outlet (snd (m s))).

(** Every stored record has, under its key, the port that was created for
    it. *)
Definition store_matched (s : St) : Prop :=
  forall k r,
    map_get k (dirRef s) = Some r ->
    exists io, map_get k (dirIo s) = Some io /\ port_for (injector s) r io.

(** Every stored record was created on the host instance the directive saw
    last. *)
Definition hosted (s : St) : Prop :=
  forall k r,
    map_get k (dirRef s) = Some r ->
    lastCompInstance s = Defined (dr_hostComponent r).

(** No teardown method throws. *)
Definition teardowns_return : Prop :=
  forall o, member W o ngOnDestroy_hook <> Method Throws.

(** What in the world raised an exception: the injector that could not
    resolve or construct a class, a lifecycle method that threw, a truthy
    member that was called and is no function, or metadata that lists a
    [null] parameter.  Nothing raises the exception of a missing component
    reference. *)
Definition raised (e : Err) : Prop :=
  match e with
  | ResolutionError t => exists deps c, injectorGet W t deps c = Throws
  | HookError o h => member W o h = Method Throws
  | NotAFunction o h => member W o h = NonFunction
  | NullParam t =>
      exists params, ctorParameters W t = Some params /\ In None params
  | NullDeref => False
  end.

(** What [callHook] answers for a hook that is not [calm]. *)
Definition hook_failure (obj : Obj) (h : HookName) : Err :=
  match member W obj h with
  | Method _ => HookError obj h
  | _ => NotAFunction obj h
  end.

(** The call that was made before that answer. *)
Definition hook_failure_events (obj : Obj) (h : HookName) : list Event :=
  match member W obj h with
  | Method _ => [EvHook obj h]
  | _ => []
  end.
End Conditions.

(* ------------------------------------------------------------------ *)
(** * Worlds in which something goes wrong *)
(* ------------------------------------------------------------------ *)

Module Faulty.
Import Sample.

(** As [quiet_world], but the teardown method of the object 2 (the second
    instance created from [start]) throws. *)
Definition teardown_throws_world : World :=
  mkWorld (fun _ => None) (fun _ => None) (fun _ _ _ => Returns)
    (fun o h => match h with
                | ngOnInit | ngAfterViewInit => Method Returns
                | ngOnDestroy_hook =>
                    if o =? 2 then Method Throws else Method Returns
                | _ => Absent
                end).

(** Every instance holds a truthy [ngAfterContentInit] and [ngOnDestroy]
    that are not functions, besides an [ngOnInit] that returns. *)
Definition odd_members_world : World :=
  mkWorld (fun _ => None) (fun _ => None) (fun _ _ _ => Returns)
    (fun _ h => match h with
                | ngOnInit => Method Returns
                | ngAfterContentInit | ngOnDestroy_hook => NonFunction
                | _ => Absent
                end).

(** Class [A] has compiler metadata listing no constructor parameter, class
    [B] metadata listing two, the second without type information; the
    reflect service lists one parameter for every class, and a class
    resolved with that answer fails to construct. *)
Definition metadata_world : World :=
  mkWorld
    (fun t => if t =? A then Some []
              else if t =? B then Some [Some (mkCtorParam 5); None]
              else None)
    (fun _ => Some [9])
    (fun _ deps _ => match deps with [9] => Throws | _ => Returns end)
    (fun _ _ => Absent).

(** The directive after a first tick declaring [A] and [B] on [host1] in
    [teardown_throws_world]. *)
Definition after_AB_faulty : St :=
  snd (tick teardown_throws_world (Some [defA; defB]) (present host1) start).
End Faulty.
(* ------------------------------------------------------------------ *)
(** * The monad and the state record *)
(* ------------------------------------------------------------------ *)

Lemma bind_ok {S A B : Type} (m : M S A) (f : A -> M S B) s a s' :
  m s = (Ok a, s') -> bind m f s = f a s'.
Proof. intros H. unfold bind. rewrite H. reflexivity. Qed.

Lemma bind_throw {S A B : Type} (m : M S A) (f : A -> M S B) s e s' :
  m s = (Throw e, s') -> bind m f s = (Throw e, s').
Proof. intros H. unfold bind. rewrite H. reflexivity. Qed.

Lemma bind_assoc {S A B C : Type} (m : M S A) (f : A -> M S B)
    (g : B -> M S C) s :
  bind (bind m f) g s = bind m (fun a => bind (f a) g) s.
Proof. unfold bind. destruct (m s) as [[a|e] s1]; reflexivity. Qed.

Section StateFacts.
Context {D : IterableDiffer}.

Lemma log_nil (s : St) : log [] s = s.
Proof.
  destruct s. unfold log, set_trace. simpl. rewrite app_nil_r. reflexivity.
Qed.

Lemma log_log (e1 e2 : list Event) (s : St) :
  log e2 (log e1 s) = log (e1 ++ e2) s.
Proof.
  unfold log, set_trace. simpl. rewrite app_assoc. reflexivity.
Qed.

Lemma isCompChanged_eq (s : St) :
  isCompChanged s
  = (Ok (negb (strict_eqb (lastCompInstance s) (compInstance s))),
     if strict_eqb (lastCompInstance s) (compInstance s) then s
     else set_lastCompInstance (compInstance s) s).
Proof.
  unfold isCompChanged.
  destruct (strict_eqb (lastCompInstance s) (compInstance s)); reflexivity.
Qed.

Lemma dirsDiffer_diff_eq coll (s : St) :
  dirsDiffer_diff coll s
  = (Ok (snd (diff (dirsDiffer s) coll)),
     log [EvDiff coll] (set_dirsDiffer (fst (diff (dirsDiffer s) coll)) s)).
Proof.
  unfold dirsDiffer_diff. destruct (diff (dirsDiffer s) coll); reflexivity.
Qed.
End StateFacts.

(* ------------------------------------------------------------------ *)
(** * Facts about the map *)
(* ------------------------------------------------------------------ *)

Section JsMapFacts.
Context {V : Type}.
Implicit Types (m : JsMap V) (k : NgType).

Lemma map_get_none_keys k m :
  map_get k m = None <-> ~ In k (map_keys m).
Proof.
  induction m as [|[k' v] m IH]; simpl.
  - tauto.
  - destruct (Nat.eqb_spec k k') as [->|Hne].
    + split; [discriminate | intros H; exfalso; apply H; now left].
    + rewrite IH. split.
      * intros H [Heq|Hin]; [now apply Hne | now apply H].
      * intros H Hin. apply H. now right.
Qed.

Lemma map_has_false_keys k m :
  map_has k m = false <-> ~ In k (map_keys m).
Proof.
  unfold map_has. rewrite <- map_get_none_keys.
  destruct (map_get k m); split; congruence.
Qed.

Lemma map_delete_absent k m :
  ~ In k (map_keys m) -> map_delete k m = m.
Proof.
  induction m as [|[k' v] m IH]; simpl; intros H; [reflexivity|].
  destruct (Nat.eqb_spec k k') as [->|Hne]; simpl.
  - exfalso. apply H. now left.
  - f_equal. apply IH. tauto.
Qed.

Lemma map_keys_delete k m :
  map_keys (map_delete k m) = filter (fun k' => negb (k =? k')) (map_keys m).
Proof.
  induction m as [|[k' v] m IH]; simpl; [reflexivity|].
  destruct (k =? k'); simpl; [exact IH | now rewrite IH].
Qed.

Lemma map_set_absent k v m :
  ~ In k (map_keys m) -> map_set k v m = m ++ [(k, v)].
Proof.
  induction m as [|[k' v'] m IH]; simpl; intros H; [reflexivity|].
  destruct (Nat.eqb_spec k k') as [->|Hne].
  - exfalso. apply H. now left.
  - f_equal. apply IH. tauto.
Qed.

Lemma map_keys_set_present k v m :
  In k (map_keys m) -> map_keys (map_set k v m) = map_keys m.
Proof.
  induction m as [|[k' v'] m IH]; simpl; intros H; [contradiction|].
  destruct (Nat.eqb_spec k k') as [->|Hne]; simpl; [reflexivity|].
  f_equal. apply IH. destruct H; [congruence | assumption].
Qed.

Lemma map_get_set_same k v m : map_get k (map_set k v m) = Some v.
Proof.
  induction m as [|[k' v'] m IH]; simpl.
  - now rewrite Nat.eqb_refl.
  - destruct (Nat.eqb_spec k k') as [->|Hne]; simpl.
    + now rewrite Nat.eqb_refl.
    + destruct (Nat.eqb_spec k k'); [contradiction | exact IH].
Qed.

Lemma map_get_set_other k k' v m :
  k' <> k -> map_get k' (map_set k v m) = map_get k' m.
Proof.
  intros Hne. induction m as [|[k0 v0] m IH]; simpl.
  - destruct (Nat.eqb_spec k' k); [contradiction | reflexivity].
  - destruct (Nat.eqb_spec k k0) as [->|Hne0]; simpl.
    + destruct (Nat.eqb_spec k' k0); [contradiction | reflexivity].
    + now rewrite IH.
Qed.
End JsMapFacts.

(* ------------------------------------------------------------------ *)
(** * Lifecycle hooks at creation *)
(* ------------------------------------------------------------------ *)

Section Hooks.
Context {D : IterableDiffer}.
Variable W : World.

Lemma callInitHooks_forEach obj (s : St) :
  callInitHooks W obj s = forEach (callHook W obj) initHooks s.
Proof.
  unfold callInitHooks, initHooks. simpl forEach.
  unfold bind at 1 2 3 4 5 6 7 8 9 10 11.
  repeat (match goal with
          | |- context [callHook W obj ?h ?st] =>
              destruct (callHook W obj h st) as [[[]|?] ?]; try reflexivity
          end).
Qed.

Lemma forEach_callHook_calm obj l (s : St) :
  (forall h, In h l -> calm W obj h = true) ->
  forEach (callHook W obj) l s
  = (Ok tt, log (map (EvHook obj) (filter (exposes W obj) l)) s).
Proof.
  revert s. induction l as [|h l IH]; intros s Hcalm; simpl.
  - now rewrite log_nil.
  - assert (Hh : calm W obj h = true) by (apply Hcalm; now left).
    assert (Hl : forall h', In h' l -> calm W obj h' = true)
      by (intros; apply Hcalm; now right).
    unfold calm in Hh. unfold exposes at 1, callHook at 1, invoke.
    destruct (member W obj h) as [| |[|]]; try discriminate.
    + erewrite bind_ok by reflexivity. now apply IH.
    + erewrite bind_ok by reflexivity. rewrite IH by assumption.
      now rewrite log_log.
Qed.

Lemma forEach_callHook_prefix obj l (s : St) :
  exists called rest,
    filter (exposes W obj) l = called ++ rest /\
    snd (forEach (callHook W obj) l s) = log (map (EvHook obj) called) s.
Proof.
  revert s. induction l as [|h l IH]; intros s; simpl.
  - exists [], []. split; [reflexivity | now rewrite log_nil].
  - unfold exposes at 1, callHook at 1, invoke.
    destruct (member W obj h) as [| |[|]].
    + erewrite bind_ok by reflexivity. apply IH.
    + exists [], (h :: filter (exposes W obj) l).
      split; [reflexivity | now rewrite log_nil].
    + erewrite bind_ok by reflexivity.
      destruct (IH (log [EvHook obj h] s)) as (called & rest & Hf & Hs).
      exists (h :: called), rest. split.
      * simpl. now rewrite Hf.
      * rewrite Hs, log_log. reflexivity.
    + exists [h], (filter (exposes W obj) l). split; reflexivity.
Qed.
End Hooks.

(* ------------------------------------------------------------------ *)
(** * Destruction *)
(* ------------------------------------------------------------------ *)

Section Destruction.
Context {D : IterableDiffer}.
Variable W : World.

(** [destroyDirRef] only makes calls: it leaves every field as it was. *)
Lemma destroyDirRef_eq r (s : St) :
  destroyDirRef W r s
  = ((if teardown_throws W r
      then Throw (HookError (dr_instance r) ngOnDestroy_hook)
      else Ok tt),
     log (destroy_events W s r) s).
Proof.
  unfold destroyDirRef, destroy_events, port_teardown, instance_teardown,
    teardown_throws, isOnDestroy, invoke, bind, gets, emit_event, modify.
  destruct (map_get (dr_type r) (dirIo s));
    destruct (member W (dr_instance r) ngOnDestroy_hook) as [| |[|]];
    simpl; rewrite ?log_log, ?log_nil; reflexivity.
Qed.

Lemma forEach_destroyDirRef_ok refs (s : St) :
  Forall (fun r => teardown_throws W r = false) refs ->
  forEach (destroyDirRef W) refs s
  = (Ok tt, log (flat_map (destroy_events W s) refs) s).
Proof.
  intros H. revert s. induction H as [|r refs Hr _ IH]; intros s; simpl.
  - now rewrite log_nil.
  - erewrite bind_ok by (rewrite destroyDirRef_eq, Hr; reflexivity).
    rewrite IH, log_log. reflexivity.
Qed.

(** Whatever happens, the loop over the records only makes calls, and the
    only exception it can end with comes from a teardown method. *)
Lemma forEach_destroyDirRef_any refs (s : St) :
  exists evs,
    forEach (destroyDirRef W) refs s = (Ok tt, log evs s) \/
    exists o,
      forEach (destroyDirRef W) refs s
      = (Throw (HookError o ngOnDestroy_hook), log evs s).
Proof.
  revert s. induction refs as [|r refs IH]; intros s; simpl.
  - exists []. left. now rewrite log_nil.
  - unfold bind. rewrite destroyDirRef_eq.
    destruct (teardown_throws W r).
    + eexists. right. eexists. reflexivity.
    + destruct (IH (log (destroy_events W s r) s)) as (evs & [H|[o H]]);
        rewrite H, log_log; eexists; [left | right; eexists]; reflexivity.
Qed.

Lemma destroyAllDirectives_ok (s : St) :
  Forall (fun r => teardown_throws W r = false) (map_values (dirRef s)) ->
  destroyAllDirectives W s
  = (Ok tt,
     set_dirIo [] (set_dirRef []
       (log (flat_map (destroy_events W s) (map_values (dirRef s))) s))).
Proof.
  intros H. unfold destroyAllDirectives.
  erewrite bind_ok by reflexivity.
  erewrite bind_ok by (apply forEach_destroyDirRef_ok; exact H).
  reflexivity.
Qed.

Lemma destroyDirective_absent d (s : St) :
  map_has (def_type d) (dirRef s) = false ->
  destroyDirective W d s
  = (Ok tt, set_dirIo (map_delete (def_type d) (dirIo s)) s).
Proof.
  intros H. unfold destroyDirective, bind, gets, modify, ret.
  unfold map_has in H.
  destruct (map_get (def_type d) (dirRef s)) eqn:E; [discriminate|].
  simpl. apply map_get_none_keys in E.
  rewrite (map_delete_absent _ _ E). destruct s; reflexivity.
Qed.

Lemma destroyDirective_present d r (s : St) :
  map_get (def_type d) (dirRef s) = Some r ->
  teardown_throws W r = false ->
  destroyDirective W d s
  = (Ok tt,
     set_dirIo (map_delete (def_type d) (dirIo s))
       (set_dirRef (map_delete (def_type d) (dirRef s))
          (log (destroy_events W s r) s))).
Proof.
  intros Hget Hr. unfold destroyDirective.
  erewrite bind_ok by reflexivity. cbv beta. rewrite Hget.
  erewrite bind_ok by (rewrite destroyDirRef_eq, Hr; reflexivity).
  reflexivity.
Qed.

Lemma updateDirective_eq d (s : St) :
  updateDirective d s = (Ok tt, log (update_events s d) s).
Proof.
  unfold updateDirective, update_events, bind, gets, emit_event, modify, ret.
  destruct (map_get (def_type d) (dirIo s)); simpl;
    rewrite ?log_nil; reflexivity.
Qed.

Lemma maybeDestroyDirectives_teardown (s : St) :
  strict_eqb (lastCompInstance s) (compInstance s) = false \/
  truthy (componentRef s) = false ->
  Forall (fun r => teardown_throws W r = false) (map_values (dirRef s)) ->
  maybeDestroyDirectives W s
  = (Ok (negb (truthy (componentRef s))),
     torn_down W s).
Proof.
  intros Htrig Hcalm. unfold maybeDestroyDirectives, torn_down.
  erewrite bind_ok by apply isCompChanged_eq.
  erewrite bind_ok by reflexivity.
  assert (Hgo : negb (strict_eqb (lastCompInstance s) (compInstance s))
                || negb (truthy (componentRef s)) = true).
  { destruct Htrig as [-> | ->]; [reflexivity | apply orb_true_r]. }
  destruct (strict_eqb (lastCompInstance s) (compInstance s)) eqn:Hsame;
    refold s; rewrite Hgo;
    (erewrite bind_ok;
     [| erewrite bind_ok by apply dirsDiffer_diff_eq;
        apply destroyAllDirectives_ok; exact Hcalm]);
    unfold gets; refold s; f_equal; state_eq s.
Qed.
End Destruction.

(* ------------------------------------------------------------------ *)
(** * Creation *)
(* ------------------------------------------------------------------ *)

Section Creation.
Context {D : IterableDiffer}.
Variable W : World.

Lemma initDirective_present d (s : St) :
  map_has (def_type d) (dirRef s) = true ->
  initDirective W d s = (Ok None, s).
Proof.
  intros H. unfold initDirective.
  erewrite bind_ok by reflexivity. cbv beta. rewrite H. reflexivity.
Qed.

(** The only exception of reading the metadata of a class is that of a
    [null] parameter. *)
Lemma param_types_throws t params e :
  param_types t params = Throw e -> e = NullParam t.
Proof.
  induction params as [|[p|] params IH]; simpl; try discriminate.
  - destruct (param_types t params); [discriminate|].
    intros H. inversion H; subst. now apply IH.
  - intros H. now inversion H.
Qed.

Lemma resolveDirParamTypes_throws t e :
  resolveDirParamTypes W t = Throw e -> e = NullParam t.
Proof.
  unfold resolveDirParamTypes, extractNgParamTypes.
  destruct (ctorParameters W t) as [params|].
  - destruct (param_types t params) eqn:Hp; [discriminate|].
    intros H. inversion H; subst. now apply param_types_throws in Hp.
  - destruct (getCtorParamTypes W t); discriminate.
Qed.

(** Without a host a creation ends where the metadata is read or where
    the component reference is. *)
Lemma initDirective_no_host d (s : St) :
  map_has (def_type d) (dirRef s) = false ->
  truthy (componentRef s) = false ->
  exists e, init_failure e = false /\ initDirective W d s = (Throw e, s).
Proof.
  intros H Hc.
  assert (Hinit : forall e,
             createDirective W (def_type d) s = (Throw e, s) ->
             initDirective W d s = (Throw e, s)).
  { intros e He. unfold initDirective.
    erewrite bind_ok by reflexivity. cbv beta. rewrite H.
    now apply bind_throw. }
  destruct (resolveDirParamTypes W (def_type d)) as [deps|e] eqn:Hres.
  - exists NullDeref. split; [reflexivity|]. apply Hinit.
    unfold createDirective.
    erewrite bind_ok by (unfold lift; rewrite Hres; reflexivity).
    apply bind_throw.
    unfold componentRef_bang. destruct (componentRef s); try reflexivity.
    discriminate.
  - exists e. split.
    + apply resolveDirParamTypes_throws in Hres. now subst.
    + apply Hinit. unfold createDirective. apply bind_throw.
      unfold lift. now rewrite Hres.
Qed.

(** The two ways a construction fails, and the way it succeeds. *)
Lemma construction_throw t c e :
  construction W t c = Throw e ->
  resolveDirParamTypes W t = Throw e \/
  exists deps,
    resolveDirParamTypes W t = Ok deps /\
    injectorGet W t deps c = Throws /\ e = ResolutionError t.
Proof.
  unfold construction.
  destruct (resolveDirParamTypes W t) as [deps|e'].
  - destruct (injectorGet W t deps c) eqn:Hget; [discriminate|].
    intros H. inversion H; subst. right. now exists deps.
  - intros H. inversion H; subst. now left.
Qed.

Lemma construction_ok t c :
  construction W t c = Ok tt ->
  exists deps,
    resolveDirParamTypes W t = Ok deps /\ injectorGet W t deps c = Returns.
Proof.
  unfold construction.
  destruct (resolveDirParamTypes W t) as [deps|e']; [|discriminate].
  destruct (injectorGet W t deps c) eqn:Hget; [|discriminate].
  intros _. now exists deps.
Qed.

Lemma createDirective_fails t c e (s : St) :
  componentRef s = Defined c ->
  construction W t c = Throw e ->
  createDirective W t s = (Throw e, s).
Proof.
  intros Hc Hget. unfold createDirective.
  destruct (construction_throw t c e Hget)
    as [Hres | (deps & Hres & Hinj & ->)].
  - apply bind_throw. unfold lift. now rewrite Hres.
  - erewrite bind_ok by (unfold lift; rewrite Hres; reflexivity).
    erewrite bind_ok by (unfold componentRef_bang; rewrite Hc; reflexivity).
    cbv beta. now rewrite Hinj.
Qed.

Lemma construction_throws t c e :
  construction W t c = Throw e -> init_failure e = false.
Proof.
  intros H.
  destruct (construction_throw t c e H) as [Hres | (deps & _ & _ & ->)];
    [|reflexivity].
  apply resolveDirParamTypes_throws in Hres. now subst.
Qed.

Lemma initDirective_fails d c e (s : St) :
  map_has (def_type d) (dirRef s) = false ->
  componentRef s = Defined c ->
  construction W (def_type d) c = Throw e ->
  initDirective W d s = (Throw e, s).
Proof.
  intros H Hc Hget. unfold initDirective.
  erewrite bind_ok by reflexivity. cbv beta. rewrite H.
  apply bind_throw. now apply createDirective_fails with (c := c).
Qed.

(** When the class constructs, everything up to the hooks is determined;
    the record is stored only if the hooks all return. *)
Lemma initDirective_constructs d c (s : St) :
  map_has (def_type d) (dirRef s) = false ->
  componentRef s = Defined c ->
  construction W (def_type d) c = Ok tt ->
  initDirective W d s
  = match callInitHooks W (heap_next s) (wired c d s) with
    | (Ok _, s2) =>
        (Ok (Some (new_dirRef c (def_type d) (heap_next s))),
         set_dirRef
           (map_set (def_type d) (new_dirRef c (def_type d) (heap_next s))
              (dirRef s2)) s2)
    | (Throw e, s2) => (Throw e, s2)
    end.
Proof.
  intros H Hc Hget.
  assert (Hbang : forall s' : St,
             componentRef s' = Defined c ->
             componentRef_bang s' = (Ok c, s')).
  { intros s' Hs'. unfold componentRef_bang. now rewrite Hs'. }
  unfold initDirective.
  erewrite bind_ok by reflexivity. cbv beta. rewrite H.
  erewrite bind_ok.
  2:{ unfold createDirective.
      destruct (construction_ok _ _ Hget) as (deps & Hres & Hinj).
      erewrite bind_ok by (unfold lift; rewrite Hres; reflexivity).
      erewrite bind_ok by (apply Hbang; exact Hc).
      cbv beta. rewrite Hinj.
      erewrite bind_ok by reflexivity.
      erewrite bind_ok by reflexivity. reflexivity. }
  erewrite bind_ok by (apply Hbang; exact Hc).
  erewrite bind_ok.
  2:{ unfold initDirIO, dirToCompDef.
      erewrite bind_ok
        by (erewrite bind_ok by (apply Hbang; exact Hc); reflexivity).
      erewrite bind_ok by reflexivity.
      erewrite bind_ok by reflexivity.
      erewrite bind_ok by reflexivity.
      erewrite bind_ok by reflexivity. reflexivity. }
  unfold bind at 1.
  match goal with
  | |- context [callInitHooks W ?o ?st] =>
      replace st with (wired c d s) by (unfold wired; state_eq s)
  end.
  fields.
  destruct (callInitHooks W (heap_next s) (wired c d s)) as [[[]|e] s2];
    reflexivity.
Qed.

Lemma initDirective_ok d c (s : St) :
  map_has (def_type d) (dirRef s) = false ->
  componentRef s = Defined c ->
  construction W (def_type d) c = Ok tt ->
  (forall h, In h initHooks -> calm W (heap_next s) h = true) ->
  initDirective W d s
  = (Ok (Some (new_dirRef c (def_type d) (heap_next s))), attached W c d s).
Proof.
  intros H Hc Hget Hcalm.
  rewrite (initDirective_constructs d c s H Hc Hget).
  rewrite callInitHooks_forEach, forEach_callHook_calm by exact Hcalm.
  f_equal. unfold attached, create_events, init_events, wired.
  state_eq s.
Qed.

Lemma never_throws_construction t c :
  never_throws W -> construction W t c = Ok tt.
Proof.
  intros (Hinj & _ & Hmeta). unfold construction.
  specialize (Hmeta t). unfold metadata_reads in Hmeta.
  destruct (resolveDirParamTypes W t) as [deps|e]; [|discriminate].
  now rewrite Hinj.
Qed.

Lemma forEachAddedItem_ok c items : forall acc (s : St),
  never_throws W ->
  componentRef s = Defined c ->
  forEachAddedItem W items acc s
  = (Ok (acc ++ created_all W c items s), attach_all W c items s).
Proof.
  induction items as [|d items IH]; intros acc s Hq Hc; simpl.
  - now rewrite app_nil_r.
  - destruct (map_has (def_type d) (dirRef s)) eqn:Hhas.
    + erewrite bind_ok by (apply initDirective_present; exact Hhas).
      now apply IH.
    + erewrite bind_ok.
      2:{ apply initDirective_ok with (c := c); try assumption.
          - now apply never_throws_construction.
          - intros h _. apply Hq. }
      cbv beta iota. rewrite IH by (assumption || reflexivity).
      now rewrite <- app_assoc.
Qed.

Lemma forEach_destroyDirective_ok items : forall s : St,
  never_throws W ->
  forEach (destroyDirective W) items s = (Ok tt, detach_all W items s).
Proof.
  induction items as [|d items IH]; intros s Hq; simpl; [reflexivity|].
  erewrite bind_ok; [now apply IH|].
  unfold detached.
  destruct (map_get (def_type d) (dirRef s)) as [r|] eqn:Hget.
  - apply destroyDirective_present; [exact Hget|].
    unfold teardown_throws. destruct Hq as (_ & Hq & _).
    specialize (Hq (dr_instance r) ngOnDestroy_hook). unfold calm in Hq.
    destruct (member W (dr_instance r) ngOnDestroy_hook) as [| |[|]];
      (reflexivity || discriminate).
  - rewrite destroyDirective_absent
      by (unfold map_has; now rewrite Hget).
    rewrite (map_delete_absent (def_type d) (dirRef s))
      by (now apply map_get_none_keys).
    rewrite log_nil. reflexivity.
Qed.
End Creation.

(* ------------------------------------------------------------------ *)
(** * The update tick *)
(* ------------------------------------------------------------------ *)

Section Tick.
Context {D : IterableDiffer}.
Variable W : World.

Lemma maybeDestroyDirectives_stable c (s : St) :
  host_stable s c -> maybeDestroyDirectives W s = (Ok false, s).
Proof.
  intros [Hc Hlast]. unfold maybeDestroyDirectives.
  erewrite bind_ok by apply isCompChanged_eq.
  unfold compInstance. rewrite Hc, Hlast. simpl strict_eqb.
  rewrite Nat.eqb_refl.
  erewrite bind_ok by reflexivity. cbv beta. rewrite Hc. simpl.
  erewrite bind_ok by reflexivity. unfold gets. now rewrite Hc.
Qed.

(** A tick that goes past the host check carries on from the state that
    check left. *)
Lemma ngDoCheck_after (s s1 : St) :
  maybeDestroyDirectives W s = (Ok false, s1) ->
  ngDoCheck W s
  = match snd (diff (dirsDiffer s1) (directives s1)) with
    | None => updateDirectives (diffed s1)
    | Some changes => processDirChanges W changes (diffed s1)
    end.
Proof.
  intros H. unfold ngDoCheck.
  erewrite bind_ok by exact H. cbv iota.
  erewrite bind_ok by reflexivity.
  erewrite bind_ok by apply dirsDiffer_diff_eq.
  destruct (snd (diff (dirsDiffer s1) (directives s1))); reflexivity.
Qed.

Lemma ngDoCheck_stable c (s : St) :
  host_stable s c ->
  ngDoCheck W s
  = match snd (diff (dirsDiffer s) (directives s)) with
    | None => updateDirectives (diffed s)
    | Some changes => processDirChanges W changes (diffed s)
    end.
Proof.
  intros Hst. unfold ngDoCheck.
  erewrite bind_ok
    by (apply maybeDestroyDirectives_stable with (c := c); exact Hst).
  cbv iota.
  erewrite bind_ok by reflexivity.
  erewrite bind_ok by apply dirsDiffer_diff_eq.
  destruct (snd (diff (dirsDiffer s) (directives s))); reflexivity.
Qed.

Lemma forEach_updateDirective l : forall s : St,
  forEach updateDirective l s = (Ok tt, log (flat_map (update_events s) l) s).
Proof.
  induction l as [|d l IH]; intros s; simpl.
  - now rewrite log_nil.
  - erewrite bind_ok by apply updateDirective_eq.
    rewrite IH, log_log. reflexivity.
Qed.

Lemma updateDirectives_eq (s : St) :
  updateDirectives s
  = (Ok tt, log (flat_map (update_events s) (declared s)) s).
Proof.
  unfold updateDirectives, declared.
  erewrite bind_ok by reflexivity. cbv beta.
  destruct (directives s) as [l|].
  - apply forEach_updateDirective.
  - simpl. now rewrite log_nil.
Qed.

Lemma componentRef_detach_all items : forall s : St,
  componentRef (detach_all W items s) = componentRef s.
Proof.
  induction items as [|d items IH]; intros s; simpl; [reflexivity|].
  now rewrite IH.
Qed.

Lemma processDirChanges_ok c changes (s : St) :
  never_throws W ->
  componentRef s = Defined c ->
  processDirChanges W changes s = (Ok tt, processed W c changes s).
Proof.
  intros Hq Hc. unfold processDirChanges, processed.
  erewrite bind_ok by (apply forEach_destroyDirective_ok; exact Hq).
  erewrite bind_ok.
  2:{ apply forEachAddedItem_ok with (c := c); [exact Hq|].
      now rewrite componentRef_detach_all. }
  simpl app.
  destruct (created_all W c (addedItems changes)
              (detach_all W (removedItems changes) s)); reflexivity.
Qed.

Lemma ngDoCheck_absent (s : St) :
  truthy (componentRef s) = false ->
  Forall (fun r => teardown_throws W r = false) (map_values (dirRef s)) ->
  ngDoCheck W s
  = (Ok tt,
     torn_down W s).
Proof.
  intros Habs Hcalm. unfold ngDoCheck.
  erewrite bind_ok
    by (apply maybeDestroyDirectives_teardown; [now right | exact Hcalm]).
  rewrite Habs. reflexivity.
Qed.

Lemma never_throws_teardown (l : list DirectiveRef) :
  never_throws W ->
  Forall (fun r => teardown_throws W r = false) l.
Proof.
  intros (_ & Hq & _). apply Forall_forall. intros r _.
  specialize (Hq (dr_instance r) ngOnDestroy_hook).
  unfold calm in Hq. unfold teardown_throws.
  destruct (member W (dr_instance r) ngOnDestroy_hook) as [| |[|]];
    (reflexivity || discriminate).
Qed.

Lemma ngDoCheck_changed c (s : St) :
  componentRef s = Defined c ->
  strict_eqb (lastCompInstance s) (compInstance s) = false ->
  Forall (fun r => teardown_throws W r = false) (map_values (dirRef s)) ->
  ngDoCheck W s
  = match snd (diff (dirsDiffer (torn_down W s))
                 (directives (torn_down W s))) with
    | None => updateDirectives (diffed (torn_down W s))
    | Some changes => processDirChanges W changes (diffed (torn_down W s))
    end.
Proof.
  intros Hc Hchg Hcalm. unfold ngDoCheck.
  erewrite bind_ok
    by (apply maybeDestroyDirectives_teardown; [now left | exact Hcalm]).
  rewrite Hc. cbn [truthy negb].
  erewrite bind_ok by reflexivity.
  erewrite bind_ok by apply dirsDiffer_diff_eq.
  destruct (snd (diff (dirsDiffer (torn_down W s))
                   (directives (torn_down W s)))); reflexivity.
Qed.

Lemma host_absent_componentRef ndc outlet ci (s : St) :
  host_absent (OpTick ndc outlet ci) ->
  truthy (componentRef (set_inputs ndc outlet ci s)) = false.
Proof.
  unfold componentRef. simpl. destruct ci as [[[c|]]|]; simpl;
    (reflexivity || discriminate).
Qed.

Lemma absent_tick_tears_down op (s : St) :
  host_absent op ->
  Forall (fun r => teardown_throws W r = false) (map_values (dirRef s)) ->
  exists s1,
    apply_op W op s = (Ok tt, s1) /\
    dirRef s1 = [] /\ dirIo s1 = [] /\
    heap_next s1 = heap_next s /\
    trace s1
    = trace s ++ EvDiff (Some []) ::
        flat_map (destroy_events W s) (map_values (dirRef s)).
Proof.
  intros Hop Hcalm. destruct op as [ndc outlet ci|]; [|contradiction].
  simpl. eexists. split.
  - apply ngDoCheck_absent;
      [now apply host_absent_componentRef | exact Hcalm].
  - unfold torn_down.
    destruct (strict_eqb (lastCompInstance (set_inputs ndc outlet ci s))
                (compInstance (set_inputs ndc outlet ci s)));
      repeat split.
Qed.

Lemma absent_ticks_idle ops : forall s : St,
  Forall host_absent ops ->
  dirRef s = [] -> dirIo s = [] ->
  fst (run W ops s) = repeat (Ok tt) (List.length ops) /\
  dirRef (snd (run W ops s)) = [] /\
  dirIo (snd (run W ops s)) = [] /\
  heap_next (snd (run W ops s)) = heap_next s /\
  trace (snd (run W ops s))
  = trace s ++ repeat (EvDiff (Some [])) (List.length ops).
Proof.
  induction ops as [|op ops IH]; intros s Hops Hr Hi; simpl.
  - repeat split; try assumption. now rewrite app_nil_r.
  - inversion Hops as [|? ? Hop Hops']; subst.
    destruct (absent_tick_tears_down op s Hop) as (s1 & H1 & Hr1 & Hi1 & Hh1 & Ht1).
    { rewrite Hr. constructor. }
    rewrite H1. rewrite Hr in Ht1. simpl in Ht1.
    destruct (IH s1 Hops' Hr1 Hi1) as (Ha & Hb & Hc & Hd & He).
    destruct (run W ops s1) as [rs s2]; simpl in *.
    repeat split; try assumption.
    + now rewrite Ha.
    + congruence.
    + rewrite He, Ht1, <- app_assoc. reflexivity.
Qed.
End Tick.

(* ------------------------------------------------------------------ *)
(** * Every outcome of the methods *)
(* ------------------------------------------------------------------ *)

Section Outcomes.
Context {D : IterableDiffer}.
Variable W : World.

Lemma forEach_callHook_cases obj l : forall s : St,
  ~ In ngOnDestroy_hook l ->
  exists evs,
    forEach (callHook W obj) l s = (Ok tt, log evs s) \/
    exists e, init_failure e = true /\
              forEach (callHook W obj) l s = (Throw e, log evs s).
Proof.
  induction l as [|h l IH]; intros s Hnot; simpl.
  - exists []. left. now rewrite log_nil.
  - assert (Hh : h <> ngOnDestroy_hook) by (intros ->; apply Hnot; now left).
    assert (Hl : ~ In ngOnDestroy_hook l) by (intros H; apply Hnot; now right).
    destruct (member W obj h) as [| |[|]] eqn:Hm.
    + assert (Hc : callHook W obj h s = (Ok tt, s))
        by (unfold callHook; now rewrite Hm).
      rewrite !(bind_ok _ _ _ _ _ Hc). now apply IH.
    + assert (Hc : callHook W obj h s = (Throw (NotAFunction obj h), s))
        by (unfold callHook, invoke; now rewrite Hm).
      rewrite !(bind_throw _ _ _ _ _ Hc).
      exists []. right. exists (NotAFunction obj h).
      split; [reflexivity | now rewrite log_nil].
    + assert (Hc : callHook W obj h s = (Ok tt, log [EvHook obj h] s))
        by (unfold callHook, invoke; now rewrite Hm).
      rewrite !(bind_ok _ _ _ _ _ Hc).
      destruct (IH (log [EvHook obj h] s) Hl) as (evs & [H|(e & He & H)]);
        rewrite H, log_log; eexists; [left | right; exists e; split];
        (reflexivity || assumption).
    + assert (Hc : callHook W obj h s
                   = (Throw (HookError obj h), log [EvHook obj h] s))
        by (unfold callHook, invoke; now rewrite Hm).
      rewrite !(bind_throw _ _ _ _ _ Hc).
      exists [EvHook obj h]. right. exists (HookError obj h).
      split; [destruct h; (reflexivity || contradiction) | reflexivity].
Qed.

Lemma callInitHooks_cases obj (s : St) :
  exists evs,
    callInitHooks W obj s = (Ok tt, log evs s) \/
    exists e, init_failure e = true /\
              callInitHooks W obj s = (Throw e, log evs s).
Proof.
  destruct (forEach_callHook_cases obj initHooks s) as (evs & H).
  - unfold initHooks. simpl. intuition discriminate.
  - exists evs. rewrite callInitHooks_forEach. exact H.
Qed.

(** The four ways [initDirective] can end. *)
Lemma initDirective_cases d (s : St) :
  (map_has (def_type d) (dirRef s) = true /\
   initDirective W d s = (Ok None, s)) \/
  (map_has (def_type d) (dirRef s) = false /\
   exists e, init_failure e = false /\ initDirective W d s = (Throw e, s)) \/
  (map_has (def_type d) (dirRef s) = false /\
   exists c evs,
     componentRef s = Defined c /\
     (initDirective W d s
      = (Ok (Some (new_dirRef c (def_type d) (heap_next s))),
         set_dirRef
           (map_set (def_type d) (new_dirRef c (def_type d) (heap_next s))
              (dirRef s))
           (log evs (wired c d s))) \/
      exists e, init_failure e = true /\
                initDirective W d s = (Throw e, log evs (wired c d s)))).
Proof.
  destruct (map_has (def_type d) (dirRef s)) eqn:Hhas.
  - left. split; [reflexivity | now apply initDirective_present].
  - right. destruct (componentRef s) as [| |c] eqn:Hc.
    + left. split; [reflexivity|].
      apply initDirective_no_host; [exact Hhas | now rewrite Hc].
    + left. split; [reflexivity|].
      apply initDirective_no_host; [exact Hhas | now rewrite Hc].
    + destruct (construction W (def_type d) c) as [[]|e0] eqn:Hget.
      * right. split; [reflexivity|].
        rewrite (initDirective_constructs W d c s Hhas Hc Hget).
        destruct (callInitHooks_cases (heap_next s) (wired c d s))
          as (evs & [H|(e & He & H)]); rewrite H; exists c, evs;
          (split; [reflexivity|]); [left | right; exists e; split];
          (reflexivity || assumption).
      * left. split; [reflexivity|]. exists e0.
        split; [exact (construction_throws W _ c _ Hget)|].
        now apply initDirective_fails with (c := c).
Qed.

(** The two ways [destroyDirective] can end. *)
Lemma destroyDirective_cases d (s : St) :
  (exists evs,
      destroyDirective W d s
      = (Ok tt,
         set_dirIo (map_delete (def_type d) (dirIo s))
           (set_dirRef (map_delete (def_type d) (dirRef s)) (log evs s)))) \/
  (exists o evs,
      destroyDirective W d s
      = (Throw (HookError o ngOnDestroy_hook), log evs s)).
Proof.
  destruct (map_get (def_type d) (dirRef s)) as [r|] eqn:Hget.
  - destruct (teardown_throws W r) eqn:Hr.
    + right. exists (dr_instance r), (destroy_events W s r).
      unfold destroyDirective.
      erewrite bind_ok by reflexivity. cbv beta. rewrite Hget.
      apply bind_throw. rewrite destroyDirRef_eq, Hr. reflexivity.
    + left. eexists.
      apply destroyDirective_present with (r := r); assumption.
  - left. exists [].
    rewrite destroyDirective_absent by (unfold map_has; now rewrite Hget).
    rewrite (map_delete_absent (def_type d) (dirRef s))
      by (now apply map_get_none_keys).
    rewrite log_nil. reflexivity.
Qed.

(** The two ways [destroyAllDirectives] can end. *)
Lemma destroyAllDirectives_cases (s : St) :
  (exists evs,
      destroyAllDirectives W s
      = (Ok tt, set_dirIo [] (set_dirRef [] (log evs s)))) \/
  (exists o evs,
      destroyAllDirectives W s
      = (Throw (HookError o ngOnDestroy_hook), log evs s)).
Proof.
  unfold destroyAllDirectives.
  erewrite bind_ok by reflexivity.
  destruct (forEach_destroyDirRef_any W (map_values (dirRef s)) s)
    as (evs & [H|[o H]]).
  - left. exists evs. erewrite bind_ok by exact H. reflexivity.
  - right. exists o, evs. now apply bind_throw.
Qed.
End Outcomes.

(* ------------------------------------------------------------------ *)
(** * The record store under the map operations *)
(* ------------------------------------------------------------------ *)

Section StoreMaps.
Context {V : Type}.
Implicit Types (m : JsMap V) (k : NgType).

Lemma map_keys_set_absent k v m :
  ~ In k (map_keys m) -> map_keys (map_set k v m) = map_keys m ++ [k].
Proof.
  intros H. rewrite map_set_absent by exact H.
  unfold map_keys. now rewrite map_app.
Qed.

Lemma map_keys_set_cases k v m :
  map_keys (map_set k v m) = map_keys m \/
  (~ In k (map_keys m) /\ map_keys (map_set k v m) = map_keys m ++ [k]).
Proof.
  destruct (in_dec Nat.eq_dec k (map_keys m)) as [H|H].
  - left. now apply map_keys_set_present.
  - right. split; [exact H | now apply map_keys_set_absent].
Qed.

Lemma NoDup_keys_set k v m :
  NoDup (map_keys m) -> NoDup (map_keys (map_set k v m)).
Proof.
  intros H. destruct (map_keys_set_cases k v m) as [-> | [Hk ->]];
    [exact H|].
  apply NoDup_app; [exact H | constructor; [intros [] | constructor] |].
  intros x Hx [<- | []]. contradiction.
Qed.

Lemma in_keys_set k k' v m :
  In k' (map_keys (map_set k v m)) <-> k' = k \/ In k' (map_keys m).
Proof.
  destruct (map_keys_set_cases k v m) as [E | [Hk E]]; rewrite E.
  - split; [tauto|]. intros [-> | H]; [|exact H].
    destruct (in_dec Nat.eq_dec k (map_keys m)) as [Hin|Hin]; [exact Hin|].
    rewrite map_keys_set_absent in E by exact Hin.
    exfalso. apply (f_equal (@List.length _)) in E.
    rewrite length_app in E. simpl in E. lia.
  - rewrite in_app_iff. simpl. intuition.
Qed.

Lemma NoDup_keys_delete k m :
  NoDup (map_keys m) -> NoDup (map_keys (map_delete k m)).
Proof. intros H. rewrite map_keys_delete. now apply NoDup_filter. Qed.

Lemma in_keys_delete k k' m :
  In k' (map_keys (map_delete k m)) <-> In k' (map_keys m) /\ k' <> k.
Proof.
  rewrite map_keys_delete, filter_In.
  destruct (Nat.eqb_spec k k') as [->|Hne]; simpl; intuition congruence.
Qed.
End StoreMaps.

Section StoreInvariant.
Context {D : IterableDiffer}.
Variable W : World.

Lemma store_ok_frame (s s' : St) :
  dirRef s' = dirRef s -> dirIo s' = dirIo s -> store_ok s -> store_ok s'.
Proof. unfold store_ok. intros -> ->. tauto. Qed.

Lemma store_ok_delete k (s s' : St) :
  dirRef s' = map_delete k (dirRef s) ->
  dirIo s' = map_delete k (dirIo s) ->
  store_ok s -> store_ok s'.
Proof.
  unfold store_ok. intros -> -> (Hr & Hi & Hincl & Hkeyed).
  repeat split.
  - now apply NoDup_keys_delete.
  - now apply NoDup_keys_delete.
  - intros x Hx. apply in_keys_delete in Hx. apply in_keys_delete.
    split; [apply Hincl|]; tauto.
  - unfold map_delete. rewrite Forall_forall in *.
    intros e He. apply filter_In in He. now apply Hkeyed.
Qed.

Lemma store_ok_set_io k io (s s' : St) :
  dirRef s' = dirRef s ->
  dirIo s' = map_set k io (dirIo s) ->
  store_ok s -> store_ok s'.
Proof.
  unfold store_ok. intros -> -> (Hr & Hi & Hincl & Hkeyed).
  repeat split; try assumption.
  - now apply NoDup_keys_set.
  - intros x Hx. apply in_keys_set. right. now apply Hincl.
Qed.

Lemma store_ok_set_both k r io (s s' : St) :
  map_has k (dirRef s) = false ->
  dr_type r = k ->
  dirRef s' = map_set k r (dirRef s) ->
  dirIo s' = map_set k io (dirIo s) ->
  store_ok s -> store_ok s'.
Proof.
  unfold store_ok. intros Hk Ht -> -> (Hr & Hi & Hincl & Hkeyed).
  apply map_has_false_keys in Hk.
  repeat split.
  - now apply NoDup_keys_set.
  - now apply NoDup_keys_set.
  - intros x Hx. apply in_keys_set in Hx. apply in_keys_set.
    destruct Hx as [-> | Hx]; [now left | right; now apply Hincl].
  - rewrite map_set_absent by exact Hk. apply Forall_app.
    split; [exact Hkeyed | constructor; [exact Ht | constructor]].
Qed.

Lemma store_paired_set_both k r io (s s' : St) :
  map_has k (dirRef s) = false ->
  dirRef s' = map_set k r (dirRef s) ->
  dirIo s' = map_set k io (dirIo s) ->
  store_paired s -> store_paired s'.
Proof.
  unfold store_paired. intros Hk -> -> Heq.
  apply map_has_false_keys in Hk.
  rewrite !map_keys_set_absent by (rewrite <- ?Heq; exact Hk).
  now rewrite Heq.
Qed.

Lemma store_paired_delete k (s s' : St) :
  dirRef s' = map_delete k (dirRef s) ->
  dirIo s' = map_delete k (dirIo s) ->
  store_paired s -> store_paired s'.
Proof.
  unfold store_paired. intros -> -> Heq.
  rewrite !map_keys_delete. now rewrite Heq.
Qed.

(** In an orderly store every record has its port. *)
Lemma stored_record_has_port (s : St) r :
  store_ok s ->
  In r (map_values (dirRef s)) ->
  exists io, map_get (dr_type r) (dirIo s) = Some io.
Proof.
  intros (_ & _ & Hincl & Hkeyed) Hin.
  unfold map_values in Hin. apply in_map_iff in Hin.
  destruct Hin as ([k r'] & Heq & Hin). simpl in Heq. subst r'.
  rewrite Forall_forall in Hkeyed. pose proof (Hkeyed _ Hin) as Hk.
  simpl in Hk. rewrite Hk.
  destruct (map_get k (dirIo s)) as [io|] eqn:Hget; [now exists io|].
  exfalso. apply map_get_none_keys in Hget. apply Hget, Hincl.
  unfold map_keys. apply in_map_iff. now exists (k, r).
Qed.

(** ** The methods, one by one *)

Lemma preserves_frame {A : Type} (m : M St A) :
  (forall s, dirRef (snd (m s)) = dirRef s /\ dirIo (snd (m s)) = dirIo s) ->
  preserves m.
Proof.
  intros H s. destruct (H s) as [Hr Hi]. split.
  - now apply store_ok_frame.
  - unfold store_paired. now rewrite Hr, Hi.
Qed.

Lemma preserves_ret {A : Type} (a : A) : preserves (ret a).
Proof. apply preserves_frame. intros s. split; reflexivity. Qed.

Lemma preserves_bind {A B : Type} (m : M St A) (f : A -> M St B) :
  preserves m -> (forall a, preserves (f a)) -> preserves (bind m f).
Proof.
  intros Hm Hf s. unfold bind.
  destruct (Hm s) as [Hok Hpair].
  destruct (m s) as [[a|e] s1]; simpl in *.
  - destruct (Hf a s1) as [Hok' Hpair']. split.
    + intros H. apply Hok'. now apply Hok.
    + intros H Hc. apply Hpair'; [|exact Hc]. now apply Hpair.
  - split; assumption.
Qed.

Lemma preserves_forEach {A : Type} (f : A -> M St unit) l :
  (forall a, preserves (f a)) -> preserves (forEach f l).
Proof.
  intros Hf. induction l as [|a l IH]; simpl.
  - apply preserves_ret.
  - apply preserves_bind; [apply Hf | intros _; exact IH].
Qed.

Lemma preserves_dirsDiffer_diff coll : preserves (dirsDiffer_diff coll).
Proof.
  apply preserves_frame. intros s. rewrite dirsDiffer_diff_eq.
  split; reflexivity.
Qed.

Lemma preserves_isCompChanged : preserves isCompChanged.
Proof.
  apply preserves_frame. intros s. rewrite isCompChanged_eq.
  destruct (strict_eqb (lastCompInstance s) (compInstance s));
    split; reflexivity.
Qed.

Lemma preserves_updateDirective d : preserves (updateDirective d).
Proof.
  apply preserves_frame. intros s. rewrite updateDirective_eq.
  split; reflexivity.
Qed.

Lemma preserves_destroyDirective d : preserves (destroyDirective W d).
Proof.
  intros s.
  destruct (destroyDirective_cases W d s) as [(evs & H)|(o & evs & H)];
    rewrite H; simpl.
  - split.
    + now apply store_ok_delete with (k := def_type d).
    + intros Hp _. now apply store_paired_delete with (k := def_type d) (s := s).
  - split; [now apply store_ok_frame | intros Hp _; exact Hp].
Qed.

Lemma preserves_destroyAllDirectives : preserves (destroyAllDirectives W).
Proof.
  intros s.
  destruct (destroyAllDirectives_cases W s) as [(evs & H)|(o & evs & H)];
    rewrite H; simpl.
  - split; intros; [|reflexivity].
    repeat split; simpl; try constructor. intros x [].
  - split; [now apply store_ok_frame | intros Hp _; exact Hp].
Qed.

Lemma preserves_initDirective d : preserves (initDirective W d).
Proof.
  intros s.
  destruct (initDirective_cases W d s)
    as [[_ H] | [[_ (e & He & H)] | [Hhas (c & evs & Hc & [H | (e & He & H)])]]];
    rewrite H; simpl.
  - split; [tauto | intros Hp _; exact Hp].
  - split; [tauto | intros Hp _; exact Hp].
  - split.
    + intros Hok.
      apply store_ok_set_both
        with (k := def_type d) (s := s)
             (r := new_dirRef c (def_type d) (heap_next s))
             (io := new_io c (injector s) (def_type d) (heap_next s)
                      (S (heap_next s)));
        (assumption || reflexivity).
    + intros Hp _.
      apply store_paired_set_both
        with (k := def_type d) (s := s)
             (r := new_dirRef c (def_type d) (heap_next s))
             (io := new_io c (injector s) (def_type d) (heap_next s)
                      (S (heap_next s)));
        (assumption || reflexivity).
  - split.
    + intros Hok.
      apply store_ok_set_io
        with (k := def_type d) (s := s)
             (io := new_io c (injector s) (def_type d) (heap_next s)
                      (S (heap_next s)));
        (assumption || reflexivity).
    + rewrite He. discriminate.
Qed.

(** ** The methods built from them *)

Create HintDb store.

#[local] Hint Resolve preserves_ret preserves_dirsDiffer_diff
  preserves_isCompChanged preserves_updateDirective
  preserves_destroyDirective preserves_destroyAllDirectives
  preserves_initDirective : store.

(** Goes through a method bind by bind, branch by branch. *)
Ltac preserves_all :=
  repeat first
    [ solve [auto with store]
    | apply preserves_bind; [|intros ?]
    | apply preserves_forEach; intros ?
    | match goal with
      | |- preserves (gets _) =>
          apply preserves_frame; intros ?; split; reflexivity
      | |- preserves (emit_event _) =>
          apply preserves_frame; intros ?; split; reflexivity
      | |- preserves (match ?x with _ => _ end) => destruct x
      | |- preserves (if ?x then _ else _) => destruct x
      end ].

Lemma preserves_forEachAddedItem items : forall acc,
  preserves (forEachAddedItem W items acc).
Proof.
  induction items as [|d items IH]; intros acc; simpl; preserves_all;
    apply IH.
Qed.

Lemma preserves_processDirChanges changes :
  preserves (processDirChanges W changes).
Proof.
  unfold processDirChanges.
  pose proof preserves_forEachAddedItem. preserves_all.
Qed.

Lemma preserves_updateDirectives : preserves updateDirectives.
Proof. unfold updateDirectives. preserves_all. Qed.

Lemma preserves_maybeDestroyDirectives : preserves (maybeDestroyDirectives W).
Proof. unfold maybeDestroyDirectives. preserves_all. Qed.

Lemma preserves_ngDoCheck : preserves (ngDoCheck W).
Proof.
  unfold ngDoCheck.
  pose proof preserves_maybeDestroyDirectives.
  pose proof preserves_processDirChanges.
  pose proof preserves_updateDirectives.
  preserves_all.
Qed.

Lemma preserves_apply_op op : preserves (apply_op W op).
Proof.
  destruct op as [ndc outlet ci|]; simpl.
  - intros s. apply (preserves_ngDoCheck (set_inputs ndc outlet ci s)).
  - apply preserves_destroyAllDirectives.
Qed.

Lemma run_store ops : forall s : St,
  store_ok s ->
  store_ok (snd (run W ops s)) /\
  (store_paired s ->
   forallb clean (fst (run W ops s)) = true ->
   store_paired (snd (run W ops s))).
Proof.
  induction ops as [|op ops IH]; intros s Hok; simpl.
  - split; [exact Hok | tauto].
  - destruct (preserves_apply_op op s) as [H1 H2].
    destruct (apply_op W op s) as [r s1]; simpl in *.
    destruct (IH s1 (H1 Hok)) as [IH1 IH2].
    destruct (run W ops s1) as [rs s2]; simpl in *.
    split; [exact IH1|].
    intros Hp Hc. apply andb_prop in Hc. destruct Hc as [Hr Hrs].
    apply IH2; [|exact Hrs]. now apply H2.
Qed.
End StoreInvariant.

(* ------------------------------------------------------------------ *)
(** * What a loop leaves in place *)
(* ------------------------------------------------------------------ *)

Section Frames.
Context {D : IterableDiffer}.
Variable W : World.

Lemma initDirective_componentRef d (s : St) :
  componentRef (snd (initDirective W d s)) = componentRef s.
Proof.
  destruct (initDirective_cases W d s)
    as [[_ H] | [[_ (e & He & H)] | [Hhas (c & evs & Hc & [H | (e & He & H)])]]];
    rewrite H; reflexivity.
Qed.

Lemma forEachAddedItem_componentRef items : forall acc (s : St),
  componentRef (snd (forEachAddedItem W items acc s)) = componentRef s.
Proof.
  induction items as [|d items IH]; intros acc s; simpl; [reflexivity|].
  unfold bind. pose proof (initDirective_componentRef d s) as H.
  destruct (initDirective W d s) as [[[r|]|e] s1]; simpl in *;
    rewrite ?IH; exact H.
Qed.

Lemma forEach_destroyDirective_componentRef items : forall s : St,
  componentRef (snd (forEach (destroyDirective W) items s)) = componentRef s.
Proof.
  induction items as [|d items IH]; intros s; simpl; [reflexivity|].
  unfold bind.
  destruct (destroyDirective_cases W d s) as [(evs & H)|(o & evs & H)];
    rewrite H; [rewrite IH|]; reflexivity.
Qed.

(** An entry of the record map stays through later creations. *)
Lemma forEachAddedItem_keeps items : forall acc (s : St) k v,
  map_get k (dirRef s) = Some v ->
  map_get k (dirRef (snd (forEachAddedItem W items acc s))) = Some v.
Proof.
  induction items as [|d items IH]; intros acc s k v Hk; simpl; [exact Hk|].
  unfold bind.
  destruct (initDirective_cases W d s)
    as [[_ H] | [[_ (e & He & H)] | [Hhas (c & evs & Hc & [H | (e & He & H)])]]];
    rewrite H; try exact Hk.
  - now apply IH.
  - apply IH. cbn [dirRef set_dirRef].
    rewrite map_get_set_other; [exact Hk|].
    intros ->. unfold map_has in Hhas. now rewrite Hk in Hhas.
Qed.

(** The records collected by the loop are in the record map when it ends. *)
Lemma forEachAddedItem_created items : forall acc (s : St) res s',
  forEachAddedItem W items acc s = (Ok res, s') ->
  exists created,
    res = acc ++ created /\
    forall r, In r created -> map_get (dr_type r) (dirRef s') = Some r.
Proof.
  induction items as [|d items IH]; intros acc s res s' Hrun; simpl in Hrun.
  - inversion Hrun; subst. exists []. split; [now rewrite app_nil_r|].
    intros r [].
  - unfold bind in Hrun.
    destruct (initDirective_cases W d s)
      as [[_ H] | [[_ (e & He & H)] | [Hhas (c & evs & Hc & [H | (e & He & H)])]]];
      rewrite H in Hrun; try discriminate.
    + now apply IH in Hrun.
    + pose proof Hrun as Hrun'.
      apply IH in Hrun. destruct Hrun as (created & -> & Hin).
      exists (new_dirRef c (def_type d) (heap_next s) :: created).
      split; [now rewrite <- app_assoc|].
      intros r [<- | Hr]; [|now apply Hin].
      apply (f_equal snd) in Hrun'. simpl in Hrun'. rewrite <- Hrun'.
      apply forEachAddedItem_keeps. cbn [dirRef set_dirRef].
      apply map_get_set_same.
Qed.

Lemma forEachAddedItem_app pre post : forall acc (s : St),
  forEachAddedItem W (pre ++ post) acc s
  = bind (forEachAddedItem W pre acc)
      (fun acc' => forEachAddedItem W post acc') s.
Proof.
  induction pre as [|d pre IH]; intros acc s; simpl; [reflexivity|].
  rewrite bind_assoc.
  destruct (initDirective W d s) as [[[r|]|e] s1] eqn:Hd.
  - rewrite !(bind_ok _ _ _ _ _ Hd). apply IH.
  - rewrite !(bind_ok _ _ _ _ _ Hd). apply IH.
  - rewrite !(bind_throw _ _ _ _ _ Hd). reflexivity.
Qed.
End Frames.

(* ------------------------------------------------------------------ *)
(** * What a tick creates *)
(* ------------------------------------------------------------------ *)

Lemma constructions_app T e1 e2 :
  constructions T (e1 ++ e2) = constructions T e1 + constructions T e2.
Proof. unfold constructions. now rewrite filter_app, length_app. Qed.

Lemma emissions_app e1 e2 :
  emissions (e1 ++ e2) = emissions e1 + emissions e2.
Proof. unfold emissions. now rewrite filter_app, length_app. Qed.

Lemma hooks_no_constructions T o hs :
  constructions T (map (EvHook o) hs) = 0.
Proof. induction hs as [|h hs IH]; [reflexivity | exact IH]. Qed.

Lemma hooks_no_emissions o hs : emissions (map (EvHook o) hs) = 0.
Proof. induction hs as [|h hs IH]; [reflexivity | exact IH]. Qed.

Section Collected.
Context {D : IterableDiffer}.
Variable W : World.
Variable c : ComponentRef.

Lemma dirRef_attached d (s : St) :
  dirRef (attached W c d s)
  = map_set (def_type d) (new_dirRef c (def_type d) (heap_next s)) (dirRef s).
Proof. reflexivity. Qed.

Lemma trace_attached d (s : St) :
  trace (attached W c d s) = trace s ++ create_events W c d s.
Proof. reflexivity. Qed.

Lemma dirRef_detached d (s : St) :
  dirRef (detached W d s) = map_delete (def_type d) (dirRef s).
Proof. reflexivity. Qed.

Lemma trace_detached d (s : St) :
  trace (detached W d s)
  = trace s ++ match map_get (def_type d) (dirRef s) with
               | Some r => destroy_events W s r
               | None => []
               end.
Proof. reflexivity. Qed.

Lemma create_events_ext d (s s' : St) :
  heap_next s = heap_next s' -> injector s = injector s' ->
  create_events W c d s = create_events W c d s'.
Proof. unfold create_events. now intros -> ->. Qed.

Lemma created_all_present T items : forall s : St,
  map_has T (dirRef s) = true ->
  count_occ Nat.eq_dec (map dr_type (created_all W c items s)) T = 0.
Proof.
  induction items as [|d items IH]; intros s HT; simpl; [reflexivity|].
  destruct (map_has (def_type d) (dirRef s)) eqn:Hd; [now apply IH|].
  simpl. destruct (Nat.eq_dec (def_type d) T) as [E|E];
    [rewrite E in Hd; congruence|].
  apply IH. unfold map_has. rewrite dirRef_attached.
  rewrite map_get_set_other by congruence. exact HT.
Qed.

Lemma created_all_absent T items : forall s : St,
  map_has T (dirRef s) = false ->
  In T (map def_type items) ->
  count_occ Nat.eq_dec (map dr_type (created_all W c items s)) T = 1.
Proof.
  induction items as [|d items IH]; intros s HT Hin; simpl; [contradiction|].
  destruct (map_has (def_type d) (dirRef s)) eqn:Hd.
  - apply IH; [exact HT|]. destruct Hin as [E|Hin]; [|exact Hin].
    rewrite E in Hd. congruence.
  - simpl. destruct (Nat.eq_dec (def_type d) T) as [E|E].
    + f_equal. apply created_all_present.
      unfold map_has. rewrite dirRef_attached.
      now rewrite <- E, map_get_set_same.
    + apply IH.
      * unfold map_has. rewrite dirRef_attached.
        rewrite map_get_set_other by congruence. exact HT.
      * destruct Hin as [Hin|Hin]; [contradiction | exact Hin].
Qed.

Lemma attach_all_keys items : forall s : St,
  map_keys (dirRef (attach_all W c items s))
  = map_keys (dirRef s) ++ map dr_type (created_all W c items s).
Proof.
  induction items as [|d items IH]; intros s; simpl;
    [now rewrite app_nil_r|].
  destruct (map_has (def_type d) (dirRef s)) eqn:Hd; [apply IH|].
  rewrite IH, dirRef_attached.
  rewrite map_keys_set_absent by (now apply map_has_false_keys).
  now rewrite <- app_assoc.
Qed.

Lemma attach_all_trace items : forall s : St,
  trace (attach_all W c items s) = trace s ++ attach_events W c items s.
Proof.
  induction items as [|d items IH]; intros s; simpl;
    [now rewrite app_nil_r|].
  destruct (map_has (def_type d) (dirRef s)); [apply IH|].
  rewrite IH, trace_attached. now rewrite <- app_assoc.
Qed.

Lemma create_events_constructions T d (s : St) :
  constructions T (create_events W c d s)
  = if Nat.eq_dec (def_type d) T then 1 else 0.
Proof.
  unfold create_events, init_events. rewrite constructions_app.
  rewrite hooks_no_constructions. unfold constructions. simpl.
  destruct (Nat.eq_dec (def_type d) T) as [E|E].
  - rewrite E, Nat.eqb_refl. reflexivity.
  - apply Nat.eqb_neq in E. rewrite E. reflexivity.
Qed.

Lemma attach_events_constructions T items : forall s : St,
  constructions T (attach_events W c items s)
  = count_occ Nat.eq_dec (map dr_type (created_all W c items s)) T.
Proof.
  induction items as [|d items IH]; intros s;
    cbn [attach_events created_all]; [reflexivity|].
  destruct (map_has (def_type d) (dirRef s)); [apply IH|].
  rewrite constructions_app, create_events_constructions, IH. simpl.
  destruct (Nat.eq_dec (def_type d) T); reflexivity.
Qed.

Lemma attach_events_emissions items : forall s : St,
  emissions (attach_events W c items s) = 0.
Proof.
  induction items as [|d items IH]; intros s; cbn [attach_events];
    [reflexivity|].
  destruct (map_has (def_type d) (dirRef s)); [apply IH|].
  rewrite emissions_app, IH. unfold create_events, init_events.
  rewrite emissions_app, hooks_no_emissions. reflexivity.
Qed.

Lemma destroy_events_quiet T (s : St) r :
  constructions T (destroy_events W s r) = 0 /\
  emissions (destroy_events W s r) = 0.
Proof.
  unfold destroy_events, port_teardown, instance_teardown.
  destruct (map_get (dr_type r) (dirIo s));
    destruct (isOnDestroy W (dr_instance r)); split; reflexivity.
Qed.

Lemma detach_all_trace items : forall s : St,
  trace (detach_all W items s) = trace s ++ detach_events W items s.
Proof.
  induction items as [|d items IH]; intros s; simpl;
    [now rewrite app_nil_r|].
  rewrite IH, trace_detached. now rewrite <- app_assoc.
Qed.

Lemma detach_events_quiet T items : forall s : St,
  constructions T (detach_events W items s) = 0 /\
  emissions (detach_events W items s) = 0.
Proof.
  induction items as [|d items IH]; intros s; cbn [detach_events];
    [split; reflexivity|].
  rewrite constructions_app, emissions_app.
  destruct (IH (detached W d s)) as [-> ->].
  destruct (map_get (def_type d) (dirRef s)) as [r|];
    [destruct (destroy_events_quiet T s r) as [-> ->] |]; split; reflexivity.
Qed.

Lemma detach_all_absent T items : forall s : St,
  map_has T (dirRef s) = false ->
  map_has T (dirRef (detach_all W items s)) = false.
Proof.
  induction items as [|d items IH]; intros s HT; simpl; [exact HT|].
  apply IH. apply map_has_false_keys. apply map_has_false_keys in HT.
  rewrite dirRef_detached.
  intros Hin. apply in_keys_delete in Hin. tauto.
Qed.
End Collected.

Section Duplicates.
Context {D : IterableDiffer}.
Variable W : World.

Lemma teardown_events_quiet T (s : St) refs :
  constructions T (flat_map (destroy_events W s) refs) = 0 /\
  emissions (flat_map (destroy_events W s) refs) = 0.
Proof.
  induction refs as [|r refs [IH1 IH2]]; cbn [flat_map];
    [split; reflexivity|].
  rewrite constructions_app, emissions_app, IH1, IH2.
  destruct (destroy_events_quiet W T s r) as [-> ->]. split; reflexivity.
Qed.

(** Whatever the differ is: a class without a record that it reports added
    twice or more is constructed once. *)
Lemma added_twice_creates_once c (s : St) changes T :
  never_throws W ->
  componentRef s = Defined c ->
  map_has T (dirRef s) = false ->
  2 <= count_occ Nat.eq_dec (map def_type (addedItems changes)) T ->
  exists s' created evs,
    processDirChanges W changes s = (Ok tt, s') /\
    trace s' = trace s ++ evs ++ [EvEmit created] /\
    emissions evs = 0 /\
    constructions T evs = 1 /\
    count_occ Nat.eq_dec (map dr_type created) T = 1 /\
    count_occ Nat.eq_dec (map_keys (dirRef s')) T = 1.
Proof.
  intros Hq Hc HT Hcount.
  rewrite (processDirChanges_ok W c changes s Hq Hc).
  unfold processed.
  set (s0 := detach_all W (removedItems changes) s).
  assert (H0 : map_has T (dirRef s0) = false)
    by (apply detach_all_absent; exact HT).
  assert (Hin : In T (map def_type (addedItems changes)))
    by (apply (count_occ_In Nat.eq_dec); lia).
  pose proof (created_all_absent W c T _ s0 H0 Hin) as Hcnt.
  pose proof (attach_all_keys W c (addedItems changes) s0) as Hkeys.
  pose proof (attach_all_trace W c (addedItems changes) s0) as Htr.
  pose proof (attach_events_constructions W c T (addedItems changes) s0)
    as Hnew.
  destruct (created_all W c (addedItems changes) s0) as [|r rs] eqn:Hcr;
    [discriminate|].
  exists (log [EvEmit (r :: rs)] (attach_all W c (addedItems changes) s0)),
    (r :: rs),
    (detach_events W (removedItems changes) s ++
     attach_events W c (addedItems changes) s0).
  destruct (detach_events_quiet W T (removedItems changes) s) as [Hd1 Hd2].
  split; [reflexivity|]. split; [|split; [|split; [|split]]].
  - cbn [trace log set_trace]. rewrite Htr. unfold s0.
    rewrite detach_all_trace, <- !app_assoc. reflexivity.
  - rewrite emissions_app, Hd2, attach_events_emissions. reflexivity.
  - rewrite constructions_app, Hd1, Hnew, Hcnt. reflexivity.
  - exact Hcnt.
  - change (dirRef (log [EvEmit (r :: rs)]
                      (attach_all W c (addedItems changes) s0)))
      with (dirRef (attach_all W c (addedItems changes) s0)).
    rewrite Hkeys, count_occ_app.
    rewrite (proj1 (count_occ_not_In Nat.eq_dec _ _))
      by (now apply map_has_false_keys).
    exact Hcnt.
Qed.
End Duplicates.

(* ------------------------------------------------------------------ *)
(** * The claims *)
(* ------------------------------------------------------------------ *)

Section Claims.
Context {D : IterableDiffer}.
Variable W : World.

(** C7: on a new instance the hooks are looked up in the fixed order
    ngOnInit, ngDoCheck, ngAfterContentInit, ngAfterContentChecked,
    ngAfterViewInit, ngAfterViewChecked.  Whatever the instance holds, the
    hooks called are an initial part of the exposed ones in that order; when
    no exposed hook throws, the call returns and exactly the exposed hooks
    were called, in that order, the absent ones skipped. *)
Theorem callInitHooks_fixed_order (obj : Obj) (s : St) :
  (exists called rest,
      filter (exposes W obj) initHooks = called ++ rest /\
      trace (snd (callInitHooks W obj s))
      = trace s ++ map (EvHook obj) called) /\
  ((forall h, In h initHooks -> calm W obj h = true) ->
   callInitHooks W obj s = (Ok tt, log (init_events W obj) s)).
Proof.
  split.
  - destruct (forEach_callHook_prefix W obj initHooks s)
      as (called & rest & Hf & Hs).
    exists called, rest. split; [exact Hf|].
    rewrite callInitHooks_forEach, Hs. reflexivity.
  - intros Hcalm. rewrite callInitHooks_forEach.
    now apply forEach_callHook_calm.
Qed.

(** C8: destroying a record calls the teardown of its port before the
    teardown method of the instance, which is called only when the instance
    has one, and in an orderly store every stored record has its port; and
    a full teardown, be it the directive's own destruction or the one a
    tick performs when the host changed or is absent, destroys the stored
    records in the order of the store and leaves both maps empty (no
    teardown method throwing). *)
Theorem teardown_order_and_clearing :
  (forall (s : St) r io,
      map_get (dr_type r) (dirIo s) = Some io ->
      trace (snd (destroyDirRef W r s))
      = trace s ++ EvIoDestroy io :: instance_teardown W r) /\
  (forall (s : St) r,
      store_ok s ->
      In r (map_values (dirRef s)) ->
      exists io,
        destroy_events W s r = EvIoDestroy io :: instance_teardown W r) /\
  (forall s : St,
      Forall (fun r => teardown_throws W r = false) (map_values (dirRef s)) ->
      (exists s',
          ngOnDestroy W s = (Ok tt, s') /\
          dirRef s' = [] /\ dirIo s' = [] /\
          trace s'
          = trace s ++ flat_map (destroy_events W s) (map_values (dirRef s))) /\
      (strict_eqb (lastCompInstance s) (compInstance s) = false \/
       truthy (componentRef s) = false ->
       exists s',
         maybeDestroyDirectives W s
         = (Ok (negb (truthy (componentRef s))), s') /\
         dirRef s' = [] /\ dirIo s' = [] /\
         trace s'
         = trace s ++ EvDiff (Some []) ::
             flat_map (destroy_events W s) (map_values (dirRef s)))).
Proof.
  split; [|split].
  - intros s r io Hio. rewrite destroyDirRef_eq.
    unfold destroy_events, port_teardown. rewrite Hio. reflexivity.
  - intros s r Hok Hin.
    destruct (stored_record_has_port s r Hok Hin) as (io & Hio).
    exists io. unfold destroy_events, port_teardown. now rewrite Hio.
  - intros s Hcalm. split.
    + eexists. split; [apply destroyAllDirectives_ok; exact Hcalm|].
      repeat split.
    + intros Htrig. eexists.
      split; [apply maybeDestroyDirectives_teardown; assumption|].
      unfold torn_down.
      destruct (strict_eqb (lastCompInstance s) (compInstance s));
        repeat split.
Qed.

(** C10 (amended): a class without a record.  [destroyDirective] for it
    calls no teardown and only deletes the key from the port map, and
    [updateDirective] calls the port of the class if there is one and
    nothing otherwise; so the two leave the state as it was exactly when
    the class has no port either.  That is the case of every class without
    a record in a state reached from a new directive by operations none of
    which ended with an exception from the hooks of a new instance; a
    creation which such an exception aborted has left a port, which is
    still refreshed, and is deleted without teardown.  [destroyDirRef] on a
    record whose port is missing skips the port teardown and only calls the
    teardown method of the instance, if it has one. *)
Theorem unattached_type_is_noop :
  (forall (s : St) d,
      map_has (def_type d) (dirRef s) = false ->
      destroyDirective W d s
      = (Ok tt, set_dirIo (map_delete (def_type d) (dirIo s)) s) /\
      (forall io,
          map_get (def_type d) (dirIo s) = Some io ->
          updateDirective d s
          = (Ok tt,
             log [EvIoUpdate io (def_inputs d) (def_outputs d)] s)) /\
      (map_has (def_type d) (dirIo s) = false <->
       destroyDirective W d s = (Ok tt, s) /\
       updateDirective d s = (Ok tt, s))) /\
  (forall inj ci (ops : list Op) d,
      forallb clean (fst (run W ops (new_directive inj ci))) = true ->
      map_has (def_type d) (dirRef (snd (run W ops (new_directive inj ci))))
        = false ->
      destroyDirective W d (snd (run W ops (new_directive inj ci)))
      = (Ok tt, snd (run W ops (new_directive inj ci))) /\
      updateDirective d (snd (run W ops (new_directive inj ci)))
      = (Ok tt, snd (run W ops (new_directive inj ci)))) /\
  (forall (s : St) r,
      map_get (dr_type r) (dirIo s) = None ->
      trace (snd (destroyDirRef W r s)) = trace s ++ instance_teardown W r /\
      (teardown_throws W r = false ->
       destroyDirRef W r s = (Ok tt, log (instance_teardown W r) s))).
Proof.
  assert (Hnoop : forall (s : St) d,
             map_has (def_type d) (dirRef s) = false ->
             map_has (def_type d) (dirIo s) = false ->
             destroyDirective W d s = (Ok tt, s) /\
             updateDirective d s = (Ok tt, s)).
  { intros s d Hr Hio. split.
    - rewrite destroyDirective_absent by exact Hr.
      rewrite map_delete_absent by (now apply map_has_false_keys).
      destruct s; reflexivity.
    - rewrite updateDirective_eq. unfold update_events.
      unfold map_has in Hio.
      destruct (map_get (def_type d) (dirIo s)); [discriminate|].
      now rewrite log_nil. }
  split; [|split].
  - intros s d Hr. split; [now apply destroyDirective_absent|]. split.
    + intros io Hio. rewrite updateDirective_eq. unfold update_events.
      now rewrite Hio.
    + split; [now apply Hnoop|]. intros [_ Hupd].
      rewrite updateDirective_eq in Hupd. unfold update_events, map_has in *.
      destruct (map_get (def_type d) (dirIo s)) as [io|]; [|reflexivity].
      exfalso. inversion Hupd as [Ht].
      apply (f_equal trace) in Ht. cbn [trace log set_trace] in Ht.
      apply (f_equal (@List.length Event)) in Ht.
      rewrite length_app in Ht. simpl in Ht. lia.
  - intros inj ci ops d Hclean Hr.
    assert (Hinit : store_ok (new_directive inj ci)).
    { repeat split; simpl; try constructor. intros x []. }
    destruct (run_store W ops (new_directive inj ci) Hinit) as [_ Hpair].
    apply Hnoop; [exact Hr|].
    apply map_has_false_keys. apply map_has_false_keys in Hr.
    rewrite <- (Hpair eq_refl Hclean). exact Hr.
  - intros s r Hio.
    assert (Hev : destroy_events W s r = instance_teardown W r)
      by (unfold destroy_events, port_teardown; now rewrite Hio).
    split.
    + rewrite destroyDirRef_eq, Hev. reflexivity.
    + intros Hcalm. rewrite destroyDirRef_eq, Hev, Hcalm. reflexivity.
Qed.

(** C2 (amended): from a new directive, after every operation (each tick
    and the destruction), whatever it answered, each map holds one entry per
    class, every record is stored under its own class and every class with a
    record has a port; the two maps have the same keys as long as no
    operation ended with an exception from the hooks of a new instance; and
    [initDirective] creates nothing for a class that has a record. *)
Theorem record_store_invariant inj ci (ops : list Op) :
  let final := run W ops (new_directive inj ci) in
  store_ok (snd final) /\
  (forallb clean (fst final) = true -> store_paired (snd final)) /\
  (forall (s : St) d,
      map_has (def_type d) (dirRef s) = true ->
      initDirective W d s = (Ok None, s)).
Proof.
  cbv zeta.
  assert (Hinit : store_ok (new_directive inj ci)).
  { repeat split; simpl; try constructor. intros x []. }
  destruct (run_store W ops (new_directive inj ci) Hinit) as [Hok Hpair].
  repeat split; try apply Hok.
  - intros Hc. now apply Hpair.
  - intros s d. apply initDirective_present.
Qed.

(** C6 (amended): on a tick with a stable host on which the differ returns
    no change object, nothing is created or destroyed and the declared list
    is gone through in order: each declaration whose class has a port
    causes one [update] call on that port with the declaration's inputs and
    outputs, so there are as many calls as such declarations (two for a
    class declared twice).  When the differ returns a change object with no
    added and no removed entry, no call at all follows. *)
Theorem refresh_when_differ_reports_nothing c (s : St) :
  host_stable s c ->
  (forall d',
      diff (dirsDiffer s) (directives s) = (d', None) ->
      ngDoCheck W s
      = (Ok tt,
         log (EvDiff (directives s) ::
              flat_map (update_events s) (declared s))
           (set_dirsDiffer d' s))) /\
  List.length (flat_map (update_events s) (declared s))
  = List.length
      (filter (fun d => map_has (def_type d) (dirIo s)) (declared s)) /\
  (forall d',
      diff (dirsDiffer s) (directives s) = (d', Some (mkChanges [] [])) ->
      ngDoCheck W s
      = (Ok tt, log [EvDiff (directives s)] (set_dirsDiffer d' s))).
Proof.
  intros Hst. repeat split.
  - intros d' Hdiff. rewrite (ngDoCheck_stable W c s Hst), Hdiff.
    cbn [snd]. rewrite updateDirectives_eq.
    unfold diffed. rewrite Hdiff. cbn [fst]. rewrite log_log. reflexivity.
  - induction (declared s) as [|d l IH]; simpl; [reflexivity|].
    rewrite length_app, IH. unfold update_events at 1, map_has.
    destruct (map_get (def_type d) (dirIo s)); reflexivity.
  - intros d' Hdiff. rewrite (ngDoCheck_stable W c s Hst), Hdiff.
    unfold diffed. rewrite Hdiff. reflexivity.
Qed.

(** C9: when there is no component reference, the first tick tears the
    store down and every later such tick, whatever is declared, returns
    having only handed the differ an empty list: both maps stay empty,
    nothing is created, nothing is emitted. *)
Theorem host_absent_ticks_idle (s : St) op (ops : list Op) :
  host_absent op ->
  Forall host_absent ops ->
  Forall (fun r => teardown_throws W r = false) (map_values (dirRef s)) ->
  exists s1,
    apply_op W op s = (Ok tt, s1) /\
    dirRef s1 = [] /\ dirIo s1 = [] /\
    fst (run W ops s1) = repeat (Ok tt) (List.length ops) /\
    dirRef (snd (run W ops s1)) = [] /\
    dirIo (snd (run W ops s1)) = [] /\
    heap_next (snd (run W ops s1)) = heap_next s1 /\
    trace (snd (run W ops s1))
    = trace s1 ++ repeat (EvDiff (Some [])) (List.length ops).
Proof.
  intros Hop Hops Hcalm.
  destruct (absent_tick_tears_down W op s Hop Hcalm) as (s1 & H1 & Hr & Hi & _).
  exists s1. split; [exact H1|]. split; [exact Hr|]. split; [exact Hi|].
  now apply absent_ticks_idle.
Qed.

(** C3: on a tick that goes past the host check, when the construction
    of the class of an added declaration fails, be it that resolving its
    dependencies throws (reading its metadata does) or that the injector
    does (the class cannot be resolved or its constructor throws), the
    exception leaves [initDirective] and the tick, with the state as it was
    when that creation began: nothing is stored for the class and none of
    its hooks is called; the records created earlier in the tick are in the
    record map. *)
Theorem construction_failure_propagates c (s s_host : St) changes pre d post
    s0 created s1 e :
  maybeDestroyDirectives W s = (Ok false, s_host) ->
  componentRef s_host = Defined c ->
  snd (diff (dirsDiffer s_host) (directives s_host)) = Some changes ->
  addedItems changes = pre ++ d :: post ->
  forEach (destroyDirective W) (removedItems changes) (diffed s_host)
    = (Ok tt, s0) ->
  forEachAddedItem W pre [] s0 = (Ok created, s1) ->
  map_has (def_type d) (dirRef s1) = false ->
  construction W (def_type d) c = Throw e ->
  (e = NullParam (def_type d) \/ e = ResolutionError (def_type d)) /\
  initDirective W d s1 = (Throw e, s1) /\
  ngDoCheck W s = (Throw e, s1) /\
  (forall r, In r created -> map_get (dr_type r) (dirRef s1) = Some r).
Proof.
  intros Hhost Hc Hdiff Hadd Hrem Hpre Hhas Hget.
  assert (Hc1 : componentRef s1 = Defined c).
  { apply (f_equal snd) in Hpre, Hrem. simpl in Hpre, Hrem.
    rewrite <- Hpre, forEachAddedItem_componentRef.
    rewrite <- Hrem, forEach_destroyDirective_componentRef.
    exact Hc. }
  assert (Hinit : initDirective W d s1 = (Throw e, s1))
    by (now apply initDirective_fails with (c := c)).
  split; [|split; [exact Hinit | split]].
  - destruct (construction_throw W _ _ _ Hget)
      as [Hres | (deps & _ & _ & ->)]; [left | now right].
    now apply resolveDirParamTypes_throws in Hres.
  - rewrite (ngDoCheck_after W s s_host Hhost), Hdiff.
    unfold processDirChanges.
    erewrite bind_ok by exact Hrem.
    apply bind_throw. rewrite Hadd, forEachAddedItem_app.
    erewrite bind_ok by exact Hpre.
    simpl. now apply bind_throw.
  - apply forEachAddedItem_created in Hpre.
    destruct Hpre as (created' & Heq & Hin). simpl in Heq. subst created'.
    exact Hin.
Qed.
End Claims.

(* ------------------------------------------------------------------ *)
(** * The claims about successive declared lists *)
(* ------------------------------------------------------------------ *)

Section ListClaims.
Variable W : World.

Lemma default_diff_AB_BC dA dB0 dB dC :
  def_type dA <> def_type dB ->
  def_type dA <> def_type dC ->
  def_type dB <> def_type dC ->
  def_type dB0 = def_type dB ->
  default_diff [dA; dB0] (Some [dB; dC])
  = ([dB; dC], Some (mkChanges [dA] [dC])).
Proof.
  intros Hab Hac Hbc Hb0. unfold default_diff. simpl. unfold same_entry.
  rewrite Hb0.
  rewrite (proj2 (Nat.eqb_neq _ _) Hab), (proj2 (Nat.eqb_neq _ _) Hac).
  rewrite Nat.eqb_refl. simpl.
  rewrite (proj2 (Nat.eqb_neq _ _) Hac). reflexivity.
Qed.

(** C1: with a stable host and nothing throwing, when the differ remembers
    [A, B], both attached, and the declared list is [B, C], the tick tears
    down the port and the instance of A, constructs C, wires it, runs its
    hooks and emits it alone; the record and the port of B are the ones
    that were there, and no call concerns them. *)
Theorem diff_is_minimal c (s : St) A B C dA dB0 dB dC rA rB ioA ioB :
  never_throws W ->
  host_stable s c ->
  A <> B -> A <> C -> B <> C ->
  def_type dA = A -> def_type dB0 = B ->
  def_type dB = B -> def_type dC = C ->
  dirsDiffer s = [dA; dB0] ->
  directives s = Some [dB; dC] ->
  dirRef s = [(A, rA); (B, rB)] ->
  dirIo s = [(A, ioA); (B, ioB)] ->
  dr_type rA = A ->
  exists s',
    ngDoCheck W s = (Ok tt, s') /\
    dirRef s' = [(B, rB); (C, new_dirRef c C (heap_next s))] /\
    dirIo s'
    = [(B, ioB);
       (C, new_io c (injector s) C (heap_next s) (S (heap_next s)))] /\
    trace s'
    = trace s ++
      [EvDiff (Some [dB; dC]); EvIoDestroy ioA] ++
      instance_teardown W rA ++
      create_events W c dC s ++
      [EvEmit [new_dirRef c C (heap_next s)]].
Proof.
  intros Hq Hst Hab Hac Hbc HA HB0 HB HC Hmemo Hdecl Hr Hio HrA.
  subst A B C.
  assert (Hdiff : diff (dirsDiffer s) (directives s)
                  = ([dB; dC], Some (mkChanges [dA] [dC]))).
  { rewrite Hmemo, Hdecl. apply default_diff_AB_BC; congruence. }
  exists (processed W c (mkChanges [dA] [dC]) (diffed s)).
  split.
  { rewrite (ngDoCheck_stable W c s Hst), Hdiff. cbn [snd].
    apply processDirChanges_ok; [exact Hq | apply Hst]. }
  set (s2 := detached W dA (diffed s)).
  assert (Hget : map_get (def_type dA) (dirRef (diffed s)) = Some rA).
  { change (dirRef (diffed s)) with (dirRef s). rewrite Hr. simpl.
    now rewrite Nat.eqb_refl. }
  assert (Hr2 : dirRef s2 = [(def_type dB0, rB)]).
  { unfold s2. rewrite dirRef_detached.
    change (dirRef (diffed s)) with (dirRef s). rewrite Hr.
    unfold map_delete. simpl.
    now rewrite Nat.eqb_refl, (proj2 (Nat.eqb_neq _ _) Hab). }
  assert (Hio2 : dirIo s2 = [(def_type dB0, ioB)]).
  { unfold s2, detached. cbn [dirIo set_dirIo].
    change (dirIo (diffed s)) with (dirIo s). rewrite Hio.
    unfold map_delete. simpl.
    now rewrite Nat.eqb_refl, (proj2 (Nat.eqb_neq _ _) Hab). }
  assert (Htr2 : trace s2
                 = trace s ++ [EvDiff (Some [dB; dC]); EvIoDestroy ioA]
                   ++ instance_teardown W rA).
  { unfold s2. rewrite trace_detached, Hget.
    unfold destroy_events, port_teardown.
    change (dirIo (diffed s)) with (dirIo s). rewrite Hio, HrA. simpl map_get.
    rewrite Nat.eqb_refl. unfold diffed. cbn [trace log set_trace
      set_dirsDiffer]. rewrite Hdecl, <- !app_assoc. reflexivity. }
  assert (Hhas : map_has (def_type dC) (dirRef s2) = false).
  { rewrite Hr2. unfold map_has. simpl.
    assert (Hcb : def_type dC <> def_type dB0) by congruence.
    now rewrite (proj2 (Nat.eqb_neq _ _) Hcb). }
  unfold processed.
  cbn [removedItems addedItems detach_all attach_all created_all].
  fold s2. rewrite Hhas.
  change (heap_next s2) with (heap_next s).
  cbn [dirRef dirIo trace log set_trace].
  rewrite dirRef_attached, trace_attached, Hr2, Htr2.
  assert (Hcb : (def_type dC =? def_type dB0) = false)
    by (apply Nat.eqb_neq; congruence).
  repeat split.
  - simpl. now rewrite Hcb.
  - unfold attached. cbn [dirIo set_dirIo set_dirRef]. rewrite Hio2.
    simpl. now rewrite Hcb.
  - change (create_events W c dC s2) with (create_events W c dC s).
    rewrite <- !app_assoc. reflexivity.
Qed.
Lemma take_some t pool pool' :
  take t pool = Some pool' ->
  In t (map def_type pool) /\
  incl (map def_type pool') (map def_type pool).
Proof.
  revert pool'. induction pool as [|d pool IH]; simpl; intros pool' H;
    [discriminate|].
  destruct (Nat.eqb_spec (def_type d) t) as [E|E].
  - inversion H; subst. split; [now left | apply incl_tl, incl_refl].
  - destruct (take t pool) as [p|]; [|discriminate].
    inversion H; subst. destruct (IH p eq_refl) as [Hin Hincl].
    split; [now right|]. simpl.
    intros x [<- | Hx]; [now left | right; now apply Hincl].
Qed.

(** The differ reports every declaration of a class it does not remember
    as added. *)
Lemma match_items_new T l : forall pool,
  ~ In T (map def_type pool) ->
  count_occ Nat.eq_dec (map def_type (fst (match_items l pool))) T
  = count_occ Nat.eq_dec (map def_type l) T.
Proof.
  induction l as [|d l IH]; intros pool HT; simpl; [reflexivity|].
  destruct (take (def_type d) pool) as [pool'|] eqn:Htake.
  - apply take_some in Htake. destruct Htake as [Hin Hincl].
    destruct (Nat.eq_dec (def_type d) T) as [E|E];
      [rewrite E in Hin; contradiction|].
    apply IH. intros H. apply HT. now apply Hincl.
  - specialize (IH pool HT).
    destruct (match_items l pool) as [added rest]. simpl in *.
    destruct (Nat.eq_dec (def_type d) T); now rewrite IH.
Qed.

Lemma same_sequence_types memo : forall l,
  same_sequence memo l = true -> map def_type memo = map def_type l.
Proof.
  induction memo as [|a memo IH]; intros [|b l] H; simpl in *;
    try discriminate; [reflexivity|].
  apply andb_prop in H. destruct H as [Hab Hrest].
  unfold same_entry in Hab. apply andb_prop in Hab. destruct Hab as [Ht _].
  apply Nat.eqb_eq in Ht. rewrite Ht. f_equal. now apply IH.
Qed.

Lemma default_diff_new T memo l :
  ~ In T (map def_type memo) ->
  1 <= count_occ Nat.eq_dec (map def_type l) T ->
  exists changes,
    snd (default_diff memo (Some l)) = Some changes /\
    count_occ Nat.eq_dec (map def_type (addedItems changes)) T
    = count_occ Nat.eq_dec (map def_type l) T.
Proof.
  intros HT Hcount. unfold default_diff.
  destruct (same_sequence memo l) eqn:Hsame.
  - apply same_sequence_types in Hsame. exfalso. apply HT.
    rewrite Hsame. apply (count_occ_In Nat.eq_dec). lia.
  - pose proof (match_items_new T l memo HT) as H.
    destruct (match_items l memo) as [added removed]. simpl in *.
    eexists. split; [reflexivity | exact H].
Qed.

Lemma default_diff_reset memo : fst (default_diff memo (Some [])) = [].
Proof.
  unfold default_diff. destruct (same_sequence memo []); [reflexivity|].
  destruct (match_items [] memo). reflexivity.
Qed.

Lemma default_diff_fresh d l :
  default_diff [] (Some (d :: l))
  = (d :: l, Some (mkChanges [] (d :: l))).
Proof.
  unfold default_diff. cbn [same_sequence].
  assert (H : forall l', match_items l' [] = (l', [])).
  { induction l' as [|x l' IH]; simpl; [reflexivity | now rewrite IH]. }
  now rewrite H.
Qed.

Lemma strict_eqb_eq (x : Nullable Obj) (o : Obj) :
  strict_eqb x (Defined o) = true -> x = Defined o.
Proof.
  destruct x as [| |a]; simpl; try discriminate.
  intros H. apply Nat.eqb_eq in H. now subst.
Qed.

(** C4: on a tick with a host where nothing throws, if the declared list
    holds the class [T] twice or more and, in case the host is the one of
    the previous tick, [T] was not declared on that tick and has no record,
    then the tick constructs one instance of [T], stores one record for it,
    and emits one notification, which lists one record of class [T]: the
    further declarations are passed over and the tick returns normally. *)
Theorem duplicate_declaration_creates_once c (s : St) l T :
  never_throws W ->
  componentRef s = Defined c ->
  directives s = Some l ->
  2 <= count_occ Nat.eq_dec (map def_type l) T ->
  (lastCompInstance s = Defined (cr_instance c) ->
   ~ In T (map def_type (dirsDiffer s)) /\ map_has T (dirRef s) = false) ->
  exists s' created evs,
    ngDoCheck W s = (Ok tt, s') /\
    trace s' = trace s ++ evs ++ [EvEmit created] /\
    emissions evs = 0 /\
    constructions T evs = 1 /\
    count_occ Nat.eq_dec (map dr_type created) T = 1 /\
    count_occ Nat.eq_dec (map_keys (dirRef s')) T = 1.
Proof.
  intros Hq Hc Hdecl Hcount Hstable.
  destruct (strict_eqb (lastCompInstance s) (compInstance s)) eqn:Hsame.
  - (* the host of the previous tick *)
    assert (Hlast : lastCompInstance s = Defined (cr_instance c)).
    { apply strict_eqb_eq. unfold compInstance in Hsame.
      now rewrite Hc in Hsame. }
    destruct (Hstable Hlast) as [Hmemo HT].
    destruct (default_diff_new T (dirsDiffer s) l Hmemo)
      as (changes & Hch & Hadd); [lia|].
    assert (Hch' : snd (diff (dirsDiffer s) (directives s)) = Some changes)
      by (rewrite Hdecl; exact Hch).
    destruct (added_twice_creates_once W c (diffed s) changes T Hq Hc HT)
      as (s' & created & evs & Hrun & Htr & He & Hn & Hc1 & Hc2);
      [rewrite Hadd; exact Hcount|].
    exists s', created, (EvDiff (Some l) :: evs).
    split;
      [rewrite (ngDoCheck_stable W c s (conj Hc Hlast)), Hch'; exact Hrun|].
    split; [|split; [|split; [|split]]]; try assumption.
    rewrite Htr. unfold diffed. cbn [trace log set_trace set_dirsDiffer].
    rewrite Hdecl, <- !app_assoc. reflexivity.
  - (* another host: the teardown comes first *)
    set (s1 := torn_down W s).
    assert (Hmemo1 : dirsDiffer s1 = []) by apply default_diff_reset.
    assert (Hdecl1 : directives s1 = Some l)
      by (unfold s1, torn_down; rewrite Hsame; exact Hdecl).
    assert (Hc1 : componentRef (diffed s1) = Defined c)
      by (unfold s1, torn_down; rewrite Hsame; exact Hc).
    assert (Htr1 : trace (diffed s1)
                   = trace s ++
                     (EvDiff (Some []) ::
                      flat_map (destroy_events W s) (map_values (dirRef s)))
                     ++ [EvDiff (Some l)]).
    { unfold diffed. rewrite Hdecl1. unfold s1, torn_down. rewrite Hsame.
      cbn [trace log set_trace set_dirsDiffer set_dirIo set_dirRef
           set_lastCompInstance]. rewrite <- !app_assoc. reflexivity. }
    destruct (default_diff_new T [] l) as (changes & Hch & Hadd);
      [intros [] | lia |].
    assert (Hch' : snd (diff (dirsDiffer s1) (directives s1)) = Some changes)
      by (rewrite Hmemo1, Hdecl1; exact Hch).
    destruct (added_twice_creates_once W c (diffed s1) changes T Hq Hc1)
      as (s' & created & evs & Hrun & Htr & He & Hn & Hk1 & Hk2);
      [reflexivity | rewrite Hadd; exact Hcount |].
    destruct (teardown_events_quiet W T s (map_values (dirRef s)))
      as [Hq1 Hq2].
    exists s', created,
      ((EvDiff (Some []) ::
        flat_map (destroy_events W s) (map_values (dirRef s)))
       ++ [EvDiff (Some l)] ++ evs).
    split.
    { rewrite (ngDoCheck_changed W c s Hc Hsame)
        by (apply never_throws_teardown; exact Hq).
      fold s1. rewrite Hch'. exact Hrun. }
    split; [|split; [|split; [|split]]]; try assumption.
    + rewrite Htr, Htr1, <- !app_assoc. reflexivity.
    + change (emissions (([EvDiff (Some [])] ++
                flat_map (destroy_events W s) (map_values (dirRef s)))
                ++ [EvDiff (Some l)] ++ evs) = 0).
      now rewrite !emissions_app, Hq2, He.
    + change (constructions T (([EvDiff (Some [])] ++
                flat_map (destroy_events W s) (map_values (dirRef s)))
                ++ [EvDiff (Some l)] ++ evs) = 1).
      now rewrite !constructions_app, Hq1, Hn.
Qed.

(** C5: on a tick that finds a component instance other than the one of
    the previous tick while A and B are attached, and nothing throws, the
    differ is first handed an empty list, which empties its memory, and the
    two records are destroyed in the order of the store, each port before
    its instance; only then is the declared list, again [A, B], handed to
    the differ, and both classes are constructed anew, wired on the new
    host and emitted together. *)
Theorem host_change_recreates c (s : St) A B dA dB rA rB ioA ioB :
  never_throws W ->
  componentRef s = Defined c ->
  strict_eqb (lastCompInstance s) (Defined (cr_instance c)) = false ->
  A <> B ->
  def_type dA = A -> def_type dB = B ->
  directives s = Some [dA; dB] ->
  dirRef s = [(A, rA); (B, rB)] ->
  dirIo s = [(A, ioA); (B, ioB)] ->
  dr_type rA = A -> dr_type rB = B ->
  let o := heap_next s in
  let s_mid := set_heap_next (S (S o)) s in
  exists s',
    ngDoCheck W s = (Ok tt, s') /\
    fst (diff (dirsDiffer s) (Some [])) = [] /\
    lastCompInstance s' = Defined (cr_instance c) /\
    dirRef s' = [(A, new_dirRef c A o); (B, new_dirRef c B (S (S o)))] /\
    dirIo s'
    = [(A, new_io c (injector s) A o (S o));
       (B, new_io c (injector s) B (S (S o)) (S (S (S o))))] /\
    trace s'
    = trace s ++
      [EvDiff (Some []); EvIoDestroy ioA] ++ instance_teardown W rA ++
      [EvIoDestroy ioB] ++ instance_teardown W rB ++
      [EvDiff (Some [dA; dB])] ++
      create_events W c dA s ++ create_events W c dB s_mid ++
      [EvEmit [new_dirRef c A o; new_dirRef c B (S (S o))]].
Proof.
  intros Hq Hc Hchg Hab HA HB Hdecl Hr Hio HrA HrB o s_mid.
  subst A B.
  assert (Hchg' : strict_eqb (lastCompInstance s) (compInstance s) = false)
    by (unfold compInstance; now rewrite Hc).
  set (s1 := torn_down W s).
  assert (Hmemo1 : dirsDiffer s1 = []) by apply default_diff_reset.
  assert (Hdecl1 : directives s1 = Some [dA; dB]).
  { unfold s1, torn_down. rewrite Hchg'. exact Hdecl. }
  assert (Hc1 : componentRef (diffed s1) = Defined c).
  { unfold s1, torn_down. rewrite Hchg'. exact Hc. }
  assert (Hlast1 : lastCompInstance s1 = Defined (cr_instance c)).
  { unfold s1, torn_down. rewrite Hchg'. unfold compInstance.
    cbn [lastCompInstance set_dirIo set_dirRef log set_trace set_dirsDiffer
         set_lastCompInstance]. now rewrite Hc. }
  assert (Hh1 : heap_next s1 = heap_next s /\ injector s1 = injector s).
  { unfold s1, torn_down. rewrite Hchg'. split; reflexivity. }
  destruct Hh1 as [Hh1 Hinj1].
  assert (Htr1 : trace s1
                 = trace s ++ [EvDiff (Some []); EvIoDestroy ioA]
                   ++ instance_teardown W rA
                   ++ [EvIoDestroy ioB] ++ instance_teardown W rB).
  { unfold s1, torn_down. rewrite Hchg'.
    cbn [trace set_dirIo set_dirRef log set_trace set_dirsDiffer
         set_lastCompInstance]. rewrite Hr. cbn [map_values map snd flat_map].
    unfold destroy_events, port_teardown. rewrite Hio, HrA, HrB.
    cbn [map_get]. rewrite !Nat.eqb_refl.
    assert (Hba : (def_type dB =? def_type dA) = false)
      by (apply Nat.eqb_neq; congruence).
    rewrite Hba. rewrite app_nil_r, <- !app_assoc. reflexivity. }
  exists (processed W c (mkChanges [] [dA; dB]) (diffed s1)).
  split.
  { rewrite (ngDoCheck_changed W c s Hc Hchg')
      by (apply never_throws_teardown; exact Hq).
    fold s1.
    assert (Hdiff1 : diff (dirsDiffer s1) (directives s1)
                     = ([dA; dB], Some (mkChanges [] [dA; dB])))
      by (rewrite Hmemo1, Hdecl1; apply default_diff_fresh).
    rewrite Hdiff1. cbn [snd].
    apply processDirChanges_ok; assumption. }
  split; [apply default_diff_reset|].
  set (s2 := attached W c dA (diffed s1)).
  assert (Hhas1 : map_has (def_type dA) (dirRef (diffed s1)) = false)
    by reflexivity.
  assert (Hr2 : dirRef s2
                = [(def_type dA, new_dirRef c (def_type dA) o)]).
  { unfold s2. rewrite dirRef_attached.
    change (heap_next (diffed s1)) with (heap_next s1). now rewrite Hh1. }
  assert (Hhas2 : map_has (def_type dB) (dirRef s2) = false).
  { rewrite Hr2. unfold map_has. simpl.
    assert (Hba : (def_type dB =? def_type dA) = false)
      by (apply Nat.eqb_neq; congruence).
    now rewrite Hba. }
  unfold processed.
  cbn [removedItems addedItems detach_all attach_all created_all].
  rewrite Hhas1. fold s2. rewrite Hhas2.
  assert (Hh0 : heap_next (diffed s1) = o) by exact Hh1.
  assert (Hinj0 : injector (diffed s1) = injector s) by exact Hinj1.
  assert (Hh2 : heap_next s2 = S (S o)).
  { unfold s2, attached.
    cbn [heap_next set_dirRef set_dirIo log set_trace set_heap_next].
    now rewrite Hh0. }
  assert (Hinj2 : injector s2 = injector s) by exact Hinj1.
  assert (Hio2 : dirIo s2
                 = [(def_type dA,
                     new_io c (injector s) (def_type dA) o (S o))]).
  { unfold s2, attached. cbn [dirIo set_dirRef set_dirIo].
    now rewrite Hh0, Hinj0. }
  assert (Htr2 : trace s2
                 = trace s1 ++ [EvDiff (Some [dA; dB])]
                   ++ create_events W c dA s).
  { unfold s2. rewrite trace_attached.
    rewrite (create_events_ext W c dA (diffed s1) s Hh0 Hinj0).
    unfold diffed. cbn [trace log set_trace set_dirsDiffer].
    now rewrite Hdecl1, <- app_assoc. }
  assert (Hba : (def_type dB =? def_type dA) = false)
    by (apply Nat.eqb_neq; congruence).
  rewrite Hh0, Hh2.
  split; [exact Hlast1|]. split; [|split].
  - cbn [dirRef log set_trace]. rewrite dirRef_attached, Hr2, Hh2.
    simpl. now rewrite Hba.
  - unfold attached. cbn [dirIo log set_trace set_dirRef set_dirIo].
    rewrite Hio2, Hh2, Hinj2. simpl. now rewrite Hba.
  - cbn [trace log set_trace]. rewrite trace_attached, Htr2, Htr1.
    rewrite (create_events_ext W c dB s2 s_mid Hh2 Hinj2).
    rewrite <- !app_assoc. reflexivity.
Qed.
End ListClaims.

(* ------------------------------------------------------------------ *)
(** * Concrete runs *)
(* ------------------------------------------------------------------ *)

Import Sample.

Lemma quiet_world_never_throws : never_throws quiet_world.
Proof.
  split; [reflexivity | split; [intros o h; destruct h|]; reflexivity].
Qed.

(** The hooks of the first instance in [quiet_world]: ngOnInit and
    ngAfterViewInit are called, in that order, the four absent ones are
    skipped. *)
Lemma callInitHooks_fixed_order_witness :
  callInitHooks quiet_world 0 start
  = (Ok tt, log [EvHook 0 ngOnInit; EvHook 0 ngAfterViewInit] start).
Proof.
  apply (proj2 (callInitHooks_fixed_order quiet_world 0 start)).
  intros h _. destruct h; reflexivity.
Defined.

(** Destroying the directive that has A and B attached. *)
Lemma teardown_order_and_clearing_witness :
  exists s',
    ngOnDestroy quiet_world after_AB = (Ok tt, s') /\
    dirRef s' = [] /\ dirIo s' = [] /\
    trace s'
    = trace after_AB ++
      [EvIoDestroy portA; EvHook 0 ngOnDestroy_hook;
       EvIoDestroy portB; EvHook 2 ngOnDestroy_hook].
Proof.
  apply (proj1 (proj2 (proj2 (teardown_order_and_clearing quiet_world))
                  after_AB ltac:(vm_compute; repeat constructor))).
Defined.

(** Class C has no record once A and B are attached by a tick that
    returned. *)
Lemma unattached_type_is_noop_witness :
  let s := snd (run quiet_world
                  [OpTick (Some [defA; defB]) None (present host1)]
                  (new_directive 7 None)) in
  destroyDirective quiet_world defC s = (Ok tt, s) /\
  updateDirective defC s = (Ok tt, s).
Proof.
  cbv zeta.
  apply (proj1 (proj2 (unattached_type_is_noop quiet_world)) 7 None
           [OpTick (Some [defA; defB]) None (present host1)] defC);
    vm_compute; reflexivity.
Defined.

(** C10, as stated, fails for a class whose creation failed in a hook: in
    a world where ngOnInit throws, after the first tick declaring A there
    is no record of A, yet a refresh of A calls [update] on the port the
    creation left, and a removal of A deletes a key that is present. *)
Lemma failed_creation_is_still_refreshed :
  let s1 :=
    snd (run init_throws_world [OpTick (Some [defA]) None (present host1)]
           (new_directive 7 None)) in
  map_has A (dirRef s1) = false /\
  updateDirective defA s1
  = (Ok tt, log [EvIoUpdate portA (Some [("a"%string, 1)]) None] s1) /\
  map_keys (dirIo s1) = [A] /\
  map_keys (dirIo (snd (destroyDirective init_throws_world defA s1))) = [] /\
  trace (snd (destroyDirective init_throws_world defA s1)) = trace s1.
Proof. vm_compute. repeat split. Qed.

(** Two ticks and the destruction, none of which throws. *)
Lemma record_store_invariant_witness :
  store_paired
    (snd (run quiet_world
            [OpTick (Some [defA; defB]) None (present host1);
             OpTick (Some [defB; defC]) None (present host1);
             OpDestroy]
            (new_directive 7 None))).
Proof.
  apply (proj1 (proj2 (record_store_invariant quiet_world 7 None
                         [OpTick (Some [defA; defB]) None (present host1);
                          OpTick (Some [defB; defC]) None (present host1);
                          OpDestroy]))).
  vm_compute. reflexivity.
Defined.

(** C2, as stated, fails: in a world where ngOnInit throws, the first tick
    declaring A ends with that exception, the port of A stored and no
    record of A: the two maps do not have the same keys. *)
Lemma keys_differ_after_init_hook_throws :
  let final :=
    run init_throws_world [OpTick (Some [defA]) None (present host1)]
      (new_directive 7 None) in
  fst final = [Throw (HookError 0 ngOnInit)] /\
  map_keys (dirRef (snd final)) = [] /\
  map_keys (dirIo (snd final)) = [A] /\
  map_has A (dirIo (snd final)) <> map_has A (dirRef (snd final)).
Proof. vm_compute. repeat split. discriminate. Qed.

(** What follows in that world: on the next tick the port left behind is
    refreshed although A has no record, and the destruction of the
    directive clears it without tearing it down. *)
Example port_without_record_is_refreshed_and_dropped :
  let s1 :=
    snd (run init_throws_world [OpTick (Some [defA]) None (present host1)]
           (new_directive 7 None)) in
  let s2 := snd (apply_op init_throws_world
                   (OpTick (Some [defA]) None (present host1)) s1) in
  since s1 s2
  = [EvDiff (Some [defA]); EvIoUpdate portA (Some [("a"%string, 1)]) None] /\
  since s2 (snd (apply_op init_throws_world OpDestroy s2)) = [] /\
  dirIo (snd (apply_op init_throws_world OpDestroy s2)) = [].
Proof. vm_compute. repeat split. Qed.

(** The value-refresh path: [defA] changed in place, the same objects
    declared again. *)
Lemma refresh_when_differ_reports_nothing_witness :
  ngDoCheck quiet_world
    (set_inputs (Some [defA_changed; defB]) None (present host1) after_AB)
  = (Ok tt,
     log [EvDiff (Some [defA_changed; defB]);
          EvIoUpdate portA (Some [("a"%string, 5)]) None;
          EvIoUpdate portB None (Some [("b"%string, 2)])]
       (set_dirsDiffer [defA_changed; defB]
          (set_inputs (Some [defA_changed; defB]) None (present host1)
             after_AB))).
Proof.
  apply (proj1 (refresh_when_differ_reports_nothing quiet_world host1
                  (set_inputs (Some [defA_changed; defB]) None
                     (present host1) after_AB)
                  ltac:(split; reflexivity))).
  reflexivity.
Defined.

(** C6, as stated, fails: with class A declared twice and attached, a tick
    on which the differ reports nothing calls [update] on the port of A
    twice, once per declaration. *)
Lemma duplicate_declaration_is_refreshed_twice :
  let s := set_inputs (Some [defA; defA']) None (present host1) after_AA in
  host_stable s host1 /\
  snd (diff (dirsDiffer s) (directives s)) = None /\
  In defA (declared s) /\
  map_get A (dirIo s) = Some portA /\
  fst (ngDoCheck quiet_world s) = Ok tt /\
  update_calls portA (since s (snd (ngDoCheck quiet_world s))) = 2.
Proof. vm_compute. repeat split. now left. Qed.

(** With the differ above, declaring [B, A] after [A, B] gives a change
    object without added or removed entries: the tick refreshes nothing. *)
Example reorder_is_not_refreshed :
  let s := set_inputs (Some [defB; defA]) None (present host1) after_AB in
  snd (diff (dirsDiffer s) (directives s)) = Some (mkChanges [] []) /\
  since s (snd (ngDoCheck quiet_world s)) = [EvDiff (Some [defB; defA])].
Proof. vm_compute. split; reflexivity. Qed.

(** Three ticks without a component reference after A and B were
    attached. *)
Lemma host_absent_ticks_idle_witness :
  exists s1,
    apply_op quiet_world (OpTick (Some [defA; defB]) None no_component)
      after_AB = (Ok tt, s1) /\
    dirRef s1 = [] /\ dirIo s1 = [] /\
    trace (snd (run quiet_world
                  [OpTick (Some [defA; defB]) None no_component;
                   OpTick (Some [defC]) None None] s1))
    = trace s1 ++ [EvDiff (Some []); EvDiff (Some [])].
Proof.
  destruct (host_absent_ticks_idle quiet_world after_AB
              (OpTick (Some [defA; defB]) None no_component)
              [OpTick (Some [defA; defB]) None no_component;
               OpTick (Some [defC]) None None])
    as (s1 & H1 & Hr & Hi & _ & _ & _ & _ & Ht).
  - reflexivity.
  - repeat constructor.
  - vm_compute. repeat constructor.
  - exists s1. repeat split; assumption.
Defined.

(** The first tick of a directive, declaring A, B and C where B cannot be
    constructed: the tick throws, A stays attached, C is never reached. *)
Lemma construction_failure_propagates_witness :
  let s := set_inputs (Some [defA; defB; defC]) None (present host1) start in
  fst (ngDoCheck b_fails_world s) = Throw (ResolutionError B) /\
  map_keys (dirRef (snd (ngDoCheck b_fails_world s))) = [A] /\
  map_keys (dirIo (snd (ngDoCheck b_fails_world s))) = [A].
Proof.
  cbv zeta.
  set (s := set_inputs (Some [defA; defB; defC]) None (present host1) start).
  set (s_host := snd (maybeDestroyDirectives b_fails_world s)).
  destruct (construction_failure_propagates b_fails_world host1 s s_host
              (mkChanges [] [defA; defB; defC]) [defA] defB [defC]
              (diffed s_host) [recA]
              (attached b_fails_world host1 defA (diffed s_host))
              (ResolutionError B))
    as (_ & _ & H & _); try (vm_compute; reflexivity).
  rewrite H. repeat split.
Defined.

(** The first tick of a directive, declaring A twice. *)
Lemma duplicate_declaration_creates_once_witness :
  exists s' created evs,
    ngDoCheck quiet_world
      (set_inputs (Some [defA; defA']) None (present host1) start)
    = (Ok tt, s') /\
    trace s' = evs ++ [EvEmit created] /\
    emissions evs = 0 /\
    constructions A evs = 1 /\
    count_occ Nat.eq_dec (map dr_type created) A = 1 /\
    count_occ Nat.eq_dec (map_keys (dirRef s')) A = 1.
Proof.
  apply (duplicate_declaration_creates_once quiet_world host1
           (set_inputs (Some [defA; defA']) None (present host1) start)
           [defA; defA'] A quiet_world_never_throws).
  - reflexivity.
  - reflexivity.
  - vm_compute. lia.
  - discriminate.
Defined.

(** From [A, B] to [B, C] on [host1]. *)
Lemma diff_is_minimal_witness :
  exists s',
    ngDoCheck quiet_world
      (set_inputs (Some [defB; defC]) None (present host1) after_AB)
    = (Ok tt, s') /\
    dirRef s' = [(B, recB); (C, new_dirRef host1 C 4)] /\
    dirIo s' = [(B, portB); (C, new_io host1 7 C 4 5)].
Proof.
  destruct (diff_is_minimal quiet_world host1
              (set_inputs (Some [defB; defC]) None (present host1) after_AB)
              A B C defA defB defB defC recA recB portA portB
              quiet_world_never_throws)
    as (s' & H1 & H2 & H3 & _);
    try reflexivity; try (split; reflexivity); try discriminate.
  exists s'. repeat split; assumption.
Defined.

(** The same list [A, B] declared on [host2] after it was attached on
    [host1]. *)
Lemma host_change_recreates_witness :
  exists s',
    ngDoCheck quiet_world
      (set_inputs (Some [defA; defB]) None (present host2) after_AB)
    = (Ok tt, s') /\
    lastCompInstance s' = Defined 101 /\
    dirRef s' = [(A, new_dirRef host2 A 4); (B, new_dirRef host2 B 6)].
Proof.
  destruct (host_change_recreates quiet_world host2
              (set_inputs (Some [defA; defB]) None (present host2) after_AB)
              A B defA defB recA recB portA portB
              quiet_world_never_throws)
    as (s' & H1 & _ & H2 & H3 & _);
    try reflexivity; try discriminate.
  exists s'. repeat split; assumption.
Defined.
(* ------------------------------------------------------------------ *)
(** * Invariants and exceptions, method by method *)
(* ------------------------------------------------------------------ *)

Section Triples.
Context {D : IterableDiffer}.
Variable I : St -> Prop.
Variable E : Err -> Prop.

(** A method that returns and leaves the state as it was. *)
Lemma triple_still {A : Type} (m : M St A) :
  (forall s, exists a, m s = (Ok a, s)) -> triple I E m.
Proof.
  intros H s Hs. destruct (H s) as [a ->]. split; [exact Hs | discriminate].
Qed.

Lemma triple_throw {A : Type} (e : Err) : E e -> triple I E (@throw St A e).
Proof.
  intros He s Hs. split; [exact Hs|]. intros e' H. now inversion H; subst.
Qed.

Lemma triple_modify (f : St -> St) :
  (forall s, I s -> I (f s)) -> triple I E (modify f).
Proof. intros H s Hs. split; [now apply H | discriminate]. Qed.

Lemma triple_bind {A B : Type} (m : M St A) (f : A -> M St B) :
  triple I E m -> (forall a, triple I E (f a)) -> triple I E (bind m f).
Proof.
  intros Hm Hf s Hs. unfold bind. destruct (Hm s Hs) as [H1 H2].
  destruct (m s) as [[a|e] s1]; simpl in *.
  - now apply Hf.
  - split; [exact H1|]. intros e' H. apply H2. now inversion H.
Qed.

Lemma triple_forEach {A : Type} (f : A -> M St unit) l :
  (forall a, triple I E (f a)) -> triple I E (forEach f l).
Proof.
  intros Hf. induction l as [|a l IH]; simpl.
  - apply triple_still. intros s. now exists tt.
  - apply triple_bind; [apply Hf | intros _; exact IH].
Qed.

Lemma triple_forEach_in {A : Type} (f : A -> M St unit) l :
  (forall a, In a l -> triple I E (f a)) -> triple I E (forEach f l).
Proof.
  induction l as [|a l IH]; intros Hf; simpl.
  - apply triple_still. intros s. now exists tt.
  - apply triple_bind; [apply Hf; now left|].
    intros _. apply IH. intros a' Ha'. apply Hf. now right.
Qed.
End Triples.

(** Goes through a method down to the reads and writes it is made of;
    [leaf] settles those. *)
Ltac walk leaf :=
  repeat first
    [ apply triple_still; intros ?; eexists; reflexivity
    | leaf
    | apply triple_bind; [|intros ?]
    | apply triple_forEach; intros ?
    | match goal with
      | |- triple _ _ (match ?x with _ => _ end) => destruct x
      | |- triple _ _ (if ?x then _ else _) => destruct x
      end ].

Ltac unfold_methods :=
  unfold ngOnDestroy, maybeDestroyDirectives, processDirChanges,
    updateDirectives, updateDirective, destroyAllDirectives,
    destroyDirective, destroyDirRef, initDirective, createDirective,
    initDirIO, dirToCompDef, callInitHooks, callHook, invoke.

Section Answers.
Context {D : IterableDiffer}.
Variable W : World.

(** The answer of [maybeDestroyDirectives] is read off the state it
    leaves. *)
Lemma maybeDestroyDirectives_answer (s s1 : St) b :
  maybeDestroyDirectives W s = (Ok b, s1) ->
  b = negb (truthy (componentRef s1)).
Proof.
  unfold maybeDestroyDirectives, bind.
  destruct (isCompChanged s) as [[ch|e] s0]; [|discriminate].
  unfold gets at 1.
  match goal with
  | |- context [match ?m s0 with _ => _ end] =>
      destruct (m s0) as [[[]|e] s2]; [|discriminate]
  end.
  unfold gets. intros H. inversion H; subst. reflexivity.
Qed.
End Answers.

(** ** Invariants that do not read the two maps *)

Section Untouched.
Context {D : IterableDiffer}.
Variable W : World.
Variable I : St -> Prop.
Variable E : Err -> Prop.

(** The invariant reads only the inputs, the injected services, the
    remembered host instance and the trace. *)
Hypothesis Hsame : forall s s' : St,
  ndcDynamicDirectives s' = ndcDynamicDirectives s ->
  ngComponentOutletNdcDynamicDirectives s'
    = ngComponentOutletNdcDynamicDirectives s ->
  componentInjector s' = componentInjector s ->
  injector s' = injector s ->
  lastCompInstance s' = lastCompInstance s ->
  trace s' = trace s ->
  I s -> I s'.
(** It stands a call other than the creation notification. *)
Hypothesis Hcall : forall e (s : St), not_emit e = true -> I s -> I (log [e] s).
Hypothesis Hthrow : forall e, e <> NullDeref -> E e.
Hypothesis Hbang : triple I E componentRef_bang.

Ltac leaf :=
  idtac;
  match goal with
  | |- triple _ _ (throw _) => apply triple_throw; apply Hthrow; discriminate
  | |- triple _ _ (emit_event _) =>
      apply triple_modify; intros ? Hs; apply Hcall; [reflexivity | exact Hs]
  | |- triple _ _ (modify _) =>
      let s := fresh "s" in
      apply triple_modify; intros s Hs; apply (Hsame s); try reflexivity;
      exact Hs
  | |- triple _ _ alloc =>
      let s := fresh "s" in
      intros s Hs; split; [|discriminate];
      apply (Hsame s); try reflexivity; exact Hs
  | |- triple _ _ componentRef_bang => exact Hbang
  | |- triple _ _ (lift (resolveDirParamTypes _ _)) =>
      let Hr := fresh "Hr" in
      intros ? Hs; split; [exact Hs|];
      intros ? Hr; apply resolveDirParamTypes_throws in Hr; subst;
      apply Hthrow; discriminate
  | |- triple _ _ (dirsDiffer_diff _) =>
      let s := fresh "s" in
      intros s Hs; rewrite dirsDiffer_diff_eq; split; [|discriminate];
      apply Hcall; [reflexivity|]; apply (Hsame s); try reflexivity; exact Hs
  end.

Lemma untouched_dirsDiffer_diff coll : triple I E (dirsDiffer_diff coll).
Proof. walk leaf. Qed.

Lemma untouched_destroyAllDirectives : triple I E (destroyAllDirectives W).
Proof. unfold_methods. walk leaf. Qed.

Lemma untouched_destroyDirective d : triple I E (destroyDirective W d).
Proof. unfold_methods. walk leaf. Qed.

Lemma untouched_initDirective d : triple I E (initDirective W d).
Proof. unfold_methods. walk leaf. Qed.

Lemma untouched_updateDirectives : triple I E updateDirectives.
Proof. unfold_methods. walk leaf. Qed.

Lemma untouched_forEachAddedItem items : forall acc,
  triple I E (forEachAddedItem W items acc).
Proof.
  induction items as [|d items IH]; intros acc; simpl.
  - walk leaf.
  - apply triple_bind; [apply untouched_initDirective|].
    intros [r|]; apply IH.
Qed.

(** [processDirChanges] up to the notification. *)
Lemma untouched_changes changes :
  triple I E
    (forEach (destroyDirective W) (removedItems changes) ;;;
     forEachAddedItem W (addedItems changes) []).
Proof.
  apply triple_bind;
    [apply triple_forEach; intros d; apply untouched_destroyDirective|].
  intros _. apply untouched_forEachAddedItem.
Qed.

(** The teardown a tick performs when the host changed or is absent. *)
Lemma untouched_teardown :
  triple I E (dirsDiffer_diff (Some []) ;;; destroyAllDirectives W).
Proof.
  apply triple_bind; [apply untouched_dirsDiffer_diff|].
  intros _. apply untouched_destroyAllDirectives.
Qed.

(** ** With the notification and the host check *)

Hypothesis Hemit : forall l (s : St), I s -> I (log [EvEmit l] s).

Lemma untouched_processDirChanges changes :
  triple I E (processDirChanges W changes).
Proof.
  unfold processDirChanges.
  apply triple_bind;
    [apply triple_forEach; intros d; apply untouched_destroyDirective|].
  intros _. apply triple_bind; [apply untouched_forEachAddedItem|].
  intros [|r l]; [walk leaf|].
  apply triple_modify. intros s Hs. now apply Hemit.
Qed.

(** What a tick does once it is past the host check. *)
Lemma untouched_tick_body :
  triple I E
    (ds <- gets directives ;;
     dirsChanges <- dirsDiffer_diff ds ;;
     match dirsChanges with
     | None => updateDirectives
     | Some changes => processDirChanges W changes
     end).
Proof.
  apply triple_bind; [walk leaf|]. intros ds.
  apply triple_bind; [apply untouched_dirsDiffer_diff|].
  intros [changes|];
    [apply untouched_processDirChanges | apply untouched_updateDirectives].
Qed.

(** What a tick does once it has read [isCompChanged]. *)
Lemma untouched_after_host_read changed :
  triple I E
    (stop <- (absent <- gets (fun s => negb (truthy (componentRef s))) ;;
              (if changed || absent
               then dirsDiffer_diff (Some []) ;;; destroyAllDirectives W
               else ret tt) ;;;
              gets (fun s => negb (truthy (componentRef s)))) ;;
     if stop then ret tt
     else
       ds <- gets directives ;;
       dirsChanges <- dirsDiffer_diff ds ;;
       match dirsChanges with
       | None => updateDirectives
       | Some changes => processDirChanges W changes
       end).
Proof.
  apply triple_bind.
  - apply triple_bind; [walk leaf|]. intros absent.
    apply triple_bind; [|intros _; walk leaf].
    destruct (changed || absent); [apply untouched_teardown | walk leaf].
  - intros [|]; [walk leaf | apply untouched_tick_body].
Qed.

Hypothesis Hlast : forall x (s : St), I s -> I (set_lastCompInstance x s).

Lemma untouched_isCompChanged : triple I E isCompChanged.
Proof.
  intros s Hs. rewrite isCompChanged_eq.
  destruct (strict_eqb (lastCompInstance s) (compInstance s));
    (split; [|discriminate]); [exact Hs | now apply Hlast].
Qed.

Lemma untouched_maybeDestroyDirectives :
  triple I E (maybeDestroyDirectives W).
Proof.
  unfold maybeDestroyDirectives.
  apply triple_bind; [apply untouched_isCompChanged|].
  intros changed. apply triple_bind; [walk leaf|]. intros absent.
  apply triple_bind; [|intros _; walk leaf].
  destruct (changed || absent); [apply untouched_teardown | walk leaf].
Qed.

Lemma untouched_ngDoCheck : triple I E (ngDoCheck W).
Proof.
  unfold ngDoCheck.
  apply triple_bind; [apply untouched_maybeDestroyDirectives|].
  intros [|]; [walk leaf | apply untouched_tick_body].
Qed.
End Untouched.

Section HostRead.
Context {D : IterableDiffer}.
Variable W : World.

Lemma strict_eqb_true (x y : Nullable Obj) : strict_eqb x y = true -> x = y.
Proof.
  destruct x, y; simpl; try discriminate; try reflexivity.
  intros H. apply Nat.eqb_eq in H. now subst.
Qed.

Lemma strict_eqb_refl (x : Nullable Obj) : strict_eqb x x = true.
Proof. destruct x; simpl; try reflexivity. apply Nat.eqb_refl. Qed.

(** A tick starts by reading [isCompChanged]. *)
Lemma ngDoCheck_host_read (s : St) :
  ngDoCheck W s
  = (changed <- isCompChanged ;;
     stop <- (absent <- gets (fun s => negb (truthy (componentRef s))) ;;
              (if changed || absent
               then dirsDiffer_diff (Some []) ;;; destroyAllDirectives W
               else ret tt) ;;;
              gets (fun s => negb (truthy (componentRef s)))) ;;
     if stop then ret tt
     else
       ds <- gets directives ;;
       dirsChanges <- dirsDiffer_diff ds ;;
       match dirsChanges with
       | None => updateDirectives
       | Some changes => processDirChanges W changes
       end) s.
Proof. unfold ngDoCheck, maybeDestroyDirectives. apply bind_assoc. Qed.

(** The directive never writes its inputs nor what was injected into it. *)
Lemma ngDoCheck_inputs_kept (s : St) :
  ndcDynamicDirectives (snd (ngDoCheck W s)) = ndcDynamicDirectives s /\
  ngComponentOutletNdcDynamicDirectives (snd (ngDoCheck W s))
    = ngComponentOutletNdcDynamicDirectives s /\
  componentInjector (snd (ngDoCheck W s)) = componentInjector s /\
  injector (snd (ngDoCheck W s)) = injector s.
Proof.
  apply (untouched_ngDoCheck W
           (fun s' =>
              ndcDynamicDirectives s' = ndcDynamicDirectives s /\
              ngComponentOutletNdcDynamicDirectives s'
                = ngComponentOutletNdcDynamicDirectives s /\
              componentInjector s' = componentInjector s /\
              injector s' = injector s)
           (fun _ => True)); auto.
  - intros s1 s2 -> -> -> -> _ _ H. exact H.
  - intros s' Hs'. unfold componentRef_bang.
    destruct (componentRef s'); split; auto.
Qed.

(** X1: After a tick, however it ended, the directive remembers the host
    instance the tick found (or that it found none): [isCompChanged] read
    again answers [false], and when there is a host, the host check of a
    tick run again does nothing. *)
Theorem tick_records_host (s : St) :
  let s' := snd (ngDoCheck W s) in
  (componentRef s' = componentRef s /\
   lastCompInstance s' = compInstance s /\
   isCompChanged s' = (Ok false, s')) /\
  (forall c,
      componentRef s = Defined c ->
      host_stable s' c /\ maybeDestroyDirectives W s' = (Ok false, s')).
Proof.
  cbv zeta.
  assert (Hci : componentRef (snd (ngDoCheck W s)) = componentRef s).
  { unfold componentRef.
    now rewrite (proj1 (proj2 (proj2 (ngDoCheck_inputs_kept s)))). }
  assert (Hlast : lastCompInstance (snd (ngDoCheck W s)) = compInstance s).
  { rewrite ngDoCheck_host_read. unfold bind at 1.
    rewrite isCompChanged_eq.
    match goal with
    | |- lastCompInstance (snd (?k ?s0)) = _ =>
        assert (H0 : lastCompInstance s0 = compInstance s)
    end.
    { destruct (strict_eqb (lastCompInstance s) (compInstance s)) eqn:Heq;
        [now apply strict_eqb_true | reflexivity]. }
    revert H0.
    apply (untouched_after_host_read W
             (fun s' => lastCompInstance s' = compInstance s)
             (fun _ => True)); auto.
    - intros s1 s2 _ _ _ _ -> _ H. exact H.
    - intros s' Hs'. unfold componentRef_bang.
      destruct (componentRef s'); split; auto. }
  assert (Hsame : compInstance (snd (ngDoCheck W s)) = compInstance s)
    by (unfold compInstance; now rewrite Hci).
  split; [split; [exact Hci | split; [exact Hlast|]] |].
  - rewrite isCompChanged_eq, Hlast, Hsame, strict_eqb_refl. reflexivity.
  - intros c Hc.
    assert (Hst : host_stable (snd (ngDoCheck W s)) c).
    { split; [now rewrite Hci|].
      rewrite Hlast. unfold compInstance. now rewrite Hc. }
    split; [exact Hst|].
    now apply maybeDestroyDirectives_stable with (c := c).
Qed.
End HostRead.

(* ------------------------------------------------------------------ *)
(** * The two inputs *)
(* ------------------------------------------------------------------ *)

Section Inputs.
Context {D : IterableDiffer}.
Variable W : World.

Lemma commutes_bind {A B : Type} (m : M St A) (f : A -> M St B) :
  commutes m -> (forall a, commutes (f a)) -> commutes (bind m f).
Proof.
  intros Hm Hf a b s. unfold bind. rewrite Hm.
  destruct (m s) as [[x|e] s1]; simpl; [apply Hf | reflexivity].
Qed.

Lemma commutes_forEach {A : Type} (f : A -> M St unit) l :
  (forall a, commutes (f a)) -> commutes (forEach f l).
Proof.
  intros Hf. induction l as [|a l IH]; simpl.
  - intros ? ? ?. reflexivity.
  - apply commutes_bind; [apply Hf | intros _; exact IH].
Qed.

Ltac commutes_leaf :=
  idtac;
  match goal with
  | |- commutes componentRef_bang =>
      let s := fresh "s" in
      intros ? ? s; unfold componentRef_bang;
      change (componentRef (with_inputs _ _ s)) with (componentRef s);
      destruct (componentRef s); reflexivity
  | |- commutes isCompChanged =>
      let s := fresh "s" in
      intros ? ? s; unfold isCompChanged;
      change (lastCompInstance (with_inputs _ _ s))
        with (lastCompInstance s);
      change (compInstance (with_inputs _ _ s)) with (compInstance s);
      destruct (negb (strict_eqb (lastCompInstance s) (compInstance s)));
      reflexivity
  | |- commutes (dirsDiffer_diff ?coll) =>
      let s := fresh "s" in
      intros ? ? s; unfold dirsDiffer_diff;
      change (dirsDiffer (with_inputs _ _ s)) with (dirsDiffer s);
      destruct (diff (dirsDiffer s) coll); reflexivity
  | |- commutes _ => intros ? ? ?; reflexivity
  end.

Ltac commutes_all :=
  repeat first
    [ apply commutes_bind; [|intros ?]
    | apply commutes_forEach; intros ?
    | match goal with
      | |- commutes (match ?x with _ => _ end) => destruct x
      | |- commutes (if ?x then _ else _) => destruct x
      end
    | commutes_leaf ].

Lemma commutes_initDirective d : commutes (initDirective W d).
Proof. unfold_methods. commutes_all. Qed.

Lemma commutes_destroyDirective d : commutes (destroyDirective W d).
Proof. unfold_methods. commutes_all. Qed.

Lemma commutes_maybeDestroyDirectives : commutes (maybeDestroyDirectives W).
Proof. unfold_methods. commutes_all. Qed.

Lemma commutes_forEachAddedItem items : forall acc,
  commutes (forEachAddedItem W items acc).
Proof.
  induction items as [|d items IH]; intros acc; simpl.
  - commutes_all.
  - apply commutes_bind; [apply commutes_initDirective|].
    intros [r|]; apply IH.
Qed.

Lemma commutes_processDirChanges changes :
  commutes (processDirChanges W changes).
Proof.
  unfold processDirChanges.
  apply commutes_bind;
    [apply commutes_forEach; intros d; apply commutes_destroyDirective|].
  intros _. apply commutes_bind; [apply commutes_forEachAddedItem|].
  intros created. commutes_all.
Qed.

(** A tick looks at the two inputs only through the getter [directives]. *)
Lemma ngDoCheck_with_inputs ndc outlet (s : St) :
  directives (with_inputs ndc outlet s) = directives s ->
  ngDoCheck W (with_inputs ndc outlet s)
  = (fst (ngDoCheck W s), with_inputs ndc outlet (snd (ngDoCheck W s))).
Proof.
  intros Hd.
  assert (Hkeep : forall {A : Type} (m : M St A) x s1,
             commutes m -> m s = (x, s1) ->
             directives (with_inputs ndc outlet s1) = directives s1).
  { intros A m x s1 Hm Hs.
    pose proof (Hm (ndcDynamicDirectives s)
                  (ngComponentOutletNdcDynamicDirectives s) s) as H.
    replace (with_inputs (ndcDynamicDirectives s)
               (ngComponentOutletNdcDynamicDirectives s) s) with s in H
      by (destruct s; reflexivity).
    rewrite Hs in H. simpl in H. inversion H as [H1].
    rewrite H1 at 2. exact Hd. }
  assert (Hrun : forall {A : Type} (m : M St A) s0 x s1,
             commutes m -> m s0 = (x, s1) ->
             m (with_inputs ndc outlet s0) = (x, with_inputs ndc outlet s1)).
  { intros A m s0 x s1 Hm Hs. rewrite Hm, Hs. reflexivity. }
  destruct (maybeDestroyDirectives W s) as [[stop|e] s1] eqn:Hm.
  2:{ unfold ngDoCheck.
      rewrite (bind_throw _ _ _ _ _ Hm).
      rewrite (bind_throw _ _ _ _ _
                 (Hrun _ _ _ _ _ commutes_maybeDestroyDirectives Hm)).
      reflexivity. }
  pose proof (Hkeep _ _ _ _ commutes_maybeDestroyDirectives Hm) as Hd1.
  unfold ngDoCheck.
  rewrite (bind_ok _ _ _ _ _ Hm).
  rewrite (bind_ok _ _ _ _ _
             (Hrun _ _ _ _ _ commutes_maybeDestroyDirectives Hm)).
  destruct stop; [reflexivity|].
  assert (Hg : gets directives s1 = (Ok (directives s1), s1))
    by reflexivity.
  assert (Hg' : gets directives (with_inputs ndc outlet s1)
                = (Ok (directives s1), with_inputs ndc outlet s1))
    by (unfold gets; now rewrite Hd1).
  rewrite (bind_ok _ _ _ _ _ Hg), (bind_ok _ _ _ _ _ Hg').
  assert (Hdiff : commutes (dirsDiffer_diff (directives s1)))
    by commutes_leaf.
  pose proof (dirsDiffer_diff_eq (directives s1) s1) as Hs2.
  rewrite (bind_ok _ _ _ _ _ Hs2).
  rewrite (bind_ok _ _ _ _ _ (Hrun _ _ _ _ _ Hdiff Hs2)).
  destruct (snd (diff (dirsDiffer s1) (directives s1))) as [changes|].
  - apply commutes_processDirChanges.
  - unfold updateDirectives.
    match goal with
    | |- context [with_inputs ndc outlet ?st] =>
        assert (Hu : gets directives st = (Ok (directives s1), st))
          by reflexivity;
        assert (Hu' : gets directives (with_inputs ndc outlet st)
                      = (Ok (directives s1), with_inputs ndc outlet st))
          by (unfold gets; f_equal; f_equal; exact Hd1)
    end.
    rewrite (bind_ok _ _ _ _ _ Hu), (bind_ok _ _ _ _ _ Hu').
    destruct (directives s1) as [l|]; [|reflexivity].
    apply (commutes_forEach updateDirective l).
    intros d. unfold_methods. commutes_all.
Qed.

(** X2: A tick depends on the two inputs only through
    [ndcDynamicDirectives || ngComponentOutletNdcDynamicDirectives]: two
    ways of setting them that give that expression the same value give the
    same answer, the same calls and the same fields.  So while
    [ndcDynamicDirectives] is an array, even an empty one, what
    [ngComponentOutletNdcDynamicDirectives] holds has no effect. *)
Theorem tick_reads_inputs_through_directives ndc outlet ndc' outlet' ci
    (s : St) :
  directives (set_inputs ndc outlet ci s)
    = directives (set_inputs ndc' outlet' ci s) ->
  ngDoCheck W (set_inputs ndc' outlet' ci s)
  = (fst (ngDoCheck W (set_inputs ndc outlet ci s)),
     set_inputs ndc' outlet' ci
       (snd (ngDoCheck W (set_inputs ndc outlet ci s)))).
Proof.
  intros Hd.
  change (set_inputs ndc' outlet' ci s)
    with (with_inputs ndc' outlet' (set_inputs ndc outlet ci s)).
  rewrite ngDoCheck_with_inputs by (symmetry; exact Hd).
  f_equal. unfold with_inputs.
  now rewrite (proj1 (proj2 (proj2
                 (ngDoCheck_inputs_kept W (set_inputs ndc outlet ci s))))).
Qed.
End Inputs.

(* ------------------------------------------------------------------ *)
(** * Teardowns that throw *)
(* ------------------------------------------------------------------ *)

Lemma forEach_app {S A : Type} (f : A -> M S unit) l1 l2 s :
  forEach f (l1 ++ l2) s = bind (forEach f l1) (fun _ => forEach f l2) s.
Proof.
  revert s. induction l1 as [|a l1 IH]; intros s; simpl; [reflexivity|].
  rewrite bind_assoc.
  destruct (f a s) as [[[]|e] s1] eqn:Hf.
  - rewrite !(bind_ok _ _ _ _ _ Hf). apply IH.
  - rewrite !(bind_throw _ _ _ _ _ Hf). reflexivity.
Qed.

Section Teardown.
Context {D : IterableDiffer}.
Variable W : World.

Lemma destroy_events_teardown (s : St) r :
  forallb is_teardown (destroy_events W s r) = true.
Proof.
  unfold destroy_events, port_teardown, instance_teardown.
  destruct (map_get (dr_type r) (dirIo s));
    destruct (isOnDestroy W (dr_instance r)); reflexivity.
Qed.

Lemma teardown_events_teardown (s : St) refs :
  forallb is_teardown (flat_map (destroy_events W s) refs) = true.
Proof.
  induction refs as [|r refs IH]; simpl; [reflexivity|].
  now rewrite forallb_app, destroy_events_teardown, IH.
Qed.

(** The loop over the records stops at the first teardown method that
    throws. *)
Lemma forEach_destroyDirRef_throws before r after (s : St) :
  Forall (fun r => teardown_throws W r = false) before ->
  teardown_throws W r = true ->
  forEach (destroyDirRef W) (before ++ r :: after) s
  = (Throw (HookError (dr_instance r) ngOnDestroy_hook),
     log (flat_map (destroy_events W s) (before ++ [r])) s).
Proof.
  intros Hb Hr. rewrite forEach_app.
  erewrite bind_ok by (apply forEach_destroyDirRef_ok; exact Hb).
  simpl forEach. apply bind_throw.
  rewrite destroyDirRef_eq, Hr, log_log, flat_map_app. simpl.
  now rewrite app_nil_r.
Qed.

Lemma first_throwing (refs : list DirectiveRef) :
  Forall (fun r => teardown_throws W r = false) refs \/
  exists before r after,
    refs = before ++ r :: after /\
    Forall (fun r => teardown_throws W r = false) before /\
    teardown_throws W r = true.
Proof.
  induction refs as [|r refs IH]; [left; constructor|].
  destruct (teardown_throws W r) eqn:Hr.
  - right. exists [], r, refs. repeat split; [constructor | exact Hr].
  - destruct IH as [IH | (before & r' & after & -> & Hb & Hr')].
    + left. now constructor.
    + right. exists (r :: before), r', after.
      repeat split; [now constructor | exact Hr'].
Qed.

(** The two ways [destroyAllDirectives] can end, with what it has done. *)
Lemma destroyAllDirectives_outcomes (s : St) :
  (Forall (fun r => teardown_throws W r = false) (map_values (dirRef s)) /\
   destroyAllDirectives W s
   = (Ok tt,
      set_dirIo [] (set_dirRef []
        (log (flat_map (destroy_events W s) (map_values (dirRef s))) s)))) \/
  (exists before r after,
      map_values (dirRef s) = before ++ r :: after /\
      Forall (fun r => teardown_throws W r = false) before /\
      teardown_throws W r = true /\
      destroyAllDirectives W s
      = (Throw (HookError (dr_instance r) ngOnDestroy_hook),
         log (flat_map (destroy_events W s) (before ++ [r])) s)).
Proof.
  destruct (first_throwing (map_values (dirRef s)))
    as [Hall | (before & r & after & Heq & Hb & Hr)].
  - left. split; [exact Hall | now apply destroyAllDirectives_ok].
  - right. exists before, r, after. repeat split; try assumption.
    unfold destroyAllDirectives.
    erewrite bind_ok by reflexivity. cbv beta. rewrite Heq.
    apply bind_throw. now apply forEach_destroyDirRef_throws.
Qed.

(** X3: Every way the destruction of the directive can end.  The records are
    torn down in the order of the store, up to and including the first one
    whose teardown method throws; every call made is the teardown of the
    port or of the instance of one of them; nothing else is written.  If
    none throws both maps end empty; otherwise the exception leaves with
    both maps as they were. *)
Theorem shutdown_outcomes (s : St) :
  exists torn rest,
    map_values (dirRef s) = torn ++ rest /\
    forallb is_teardown (flat_map (destroy_events W s) torn) = true /\
    ((rest = [] /\
      ngOnDestroy W s
      = (Ok tt,
         set_dirIo [] (set_dirRef []
           (log (flat_map (destroy_events W s) torn) s)))) \/
     (exists before r,
        torn = before ++ [r] /\
        Forall (fun r => teardown_throws W r = false) before /\
        teardown_throws W r = true /\
        ngOnDestroy W s
        = (Throw (HookError (dr_instance r) ngOnDestroy_hook),
           log (flat_map (destroy_events W s) torn) s))).
Proof.
  destruct (destroyAllDirectives_outcomes s)
    as [[Hall Hok] | (before & r & after & Heq & Hb & Hr & Hth)].
  - exists (map_values (dirRef s)), []. rewrite app_nil_r.
    split; [reflexivity|]. split; [apply teardown_events_teardown|].
    left. split; [reflexivity | exact Hok].
  - exists (before ++ [r]), after. rewrite <- app_assoc.
    split; [exact Heq|]. split; [apply teardown_events_teardown|].
    right. exists before, r. repeat split; assumption.
Qed.

(** X4: A destruction that failed is not resumed.  When [ngOnDestroy] ends
    with an exception, both maps are as they were, so that calling it
    again makes the same calls again, on the ports and instances already
    torn down too, and ends with the same exception (a teardown method
    doing the same each time it is called). *)
Theorem failed_shutdown_repeats (s s' : St) e :
  ngOnDestroy W s = (Throw e, s') ->
  dirRef s' = dirRef s /\ dirIo s' = dirIo s /\
  exists evs,
    s' = log evs s /\
    ngOnDestroy W s' = (Throw e, log evs s').
Proof.
  intros H. unfold ngOnDestroy in *.
  destruct (destroyAllDirectives_outcomes s)
    as [[_ Hok] | (before & r & after & Heq & Hb & Hr & Hth)];
    [rewrite Hok in H; discriminate|].
  rewrite Hth in H. inversion H; subst. clear H.
  split; [reflexivity|]. split; [reflexivity|].
  eexists. split; [reflexivity|].
  unfold destroyAllDirectives.
  erewrite bind_ok by reflexivity. cbv beta.
  apply bind_throw.
  change (dirRef (log (flat_map (destroy_events W s) (before ++ [r])) s))
    with (dirRef s).
  rewrite Heq.
  now rewrite forEach_destroyDirRef_throws.
Qed.

(** X5: A removal that fails.  When the teardown method of the record of a
    removed declaration throws, the exception leaves [processDirChanges]
    once the port of that record is torn down: the record and its port
    stay stored, the removed declarations after it are not looked at and
    nothing is created for the added ones. *)
Theorem failed_removal_keeps_record changes before d after r (s s0 : St) :
  removedItems changes = before ++ d :: after ->
  forEach (destroyDirective W) before s = (Ok tt, s0) ->
  map_get (def_type d) (dirRef s0) = Some r ->
  teardown_throws W r = true ->
  exists s',
    processDirChanges W changes s
    = (Throw (HookError (dr_instance r) ngOnDestroy_hook), s') /\
    trace s' = trace s0 ++ destroy_events W s0 r /\
    dirRef s' = dirRef s0 /\ dirIo s' = dirIo s0 /\
    heap_next s' = heap_next s0.
Proof.
  intros Hrem Hbefore Hget Hr.
  exists (log (destroy_events W s0 r) s0).
  split; [|repeat split].
  unfold processDirChanges. apply bind_throw.
  rewrite Hrem, forEach_app.
  erewrite bind_ok by exact Hbefore.
  simpl forEach. apply bind_throw.
  unfold destroyDirective.
  erewrite bind_ok by reflexivity. cbv beta. rewrite Hget.
  apply bind_throw. rewrite destroyDirRef_eq, Hr. reflexivity.
Qed.

(** X6: A host change whose teardown fails.  When the host instance differs
    from the remembered one and the teardown method of a stored record
    throws, the tick ends with that exception and both maps as they were;
    but the new host is already remembered, so that on the next tick the
    host check finds nothing to do and the records of the old host stay. *)
Theorem failed_teardown_is_not_retried c (s : St) :
  componentRef s = Defined c ->
  strict_eqb (lastCompInstance s) (compInstance s) = false ->
  Exists (fun r => teardown_throws W r = true) (map_values (dirRef s)) ->
  exists o s',
    ngDoCheck W s = (Throw (HookError o ngOnDestroy_hook), s') /\
    dirRef s' = dirRef s /\ dirIo s' = dirIo s /\
    host_stable s' c /\
    maybeDestroyDirectives W s' = (Ok false, s').
Proof.
  intros Hc Hchg Hex.
  destruct (first_throwing (map_values (dirRef s)))
    as [Hall | (before & r & after & Heq & Hb & Hr)].
  { exfalso. apply Exists_exists in Hex. destruct Hex as (r & Hin & Hr).
    rewrite Forall_forall in Hall. rewrite (Hall r Hin) in Hr.
    discriminate. }
  assert (Hm : exists s',
             maybeDestroyDirectives W s
             = (Throw (HookError (dr_instance r) ngOnDestroy_hook), s') /\
             dirRef s' = dirRef s /\ dirIo s' = dirIo s /\
             componentRef s' = componentRef s /\
             lastCompInstance s' = compInstance s).
  { eexists. split.
    - unfold maybeDestroyDirectives.
      erewrite bind_ok by apply isCompChanged_eq.
      rewrite Hchg. erewrite bind_ok by reflexivity.
      cbn [negb orb]. apply bind_throw.
      erewrite bind_ok by apply dirsDiffer_diff_eq.
      unfold destroyAllDirectives.
      erewrite bind_ok by reflexivity. cbv beta.
      apply bind_throw. fields. rewrite Heq.
      now apply forEach_destroyDirRef_throws.
    - repeat split. }
  destruct Hm as (s' & Hm & Hr' & Hi' & Hc' & Hl').
  exists (dr_instance r), s'.
  assert (Hst : host_stable s' c).
  { split; [now rewrite Hc'|].
    rewrite Hl'. unfold compInstance. now rewrite Hc. }
  split; [|repeat split; try assumption; try apply Hst].
  - unfold ngDoCheck. now apply bind_throw.
  - now apply maybeDestroyDirectives_stable with (c := c).
Qed.
End Teardown.

(* ------------------------------------------------------------------ *)
(** * Invariants of the two maps *)
(* ------------------------------------------------------------------ *)

Lemma map_get_delete {V : Type} k k' (m : JsMap V) :
  map_get k' (map_delete k m) = if k =? k' then None else map_get k' m.
Proof.
  induction m as [|[k0 v] m IH]; simpl.
  - now destruct (k =? k').
  - destruct (Nat.eqb_spec k k0) as [->|Hne]; simpl.
    + rewrite IH. destruct (Nat.eqb_spec k0 k') as [->|Hne'].
      * reflexivity.
      * destruct (Nat.eqb_spec k' k0); [congruence | reflexivity].
    + rewrite IH. destruct (Nat.eqb_spec k' k0) as [->|Hne'].
      * destruct (Nat.eqb_spec k k0); [contradiction | reflexivity].
      * reflexivity.
Qed.

(** ** From the methods that write the maps to a tick *)

Section Stored.
Context {D : IterableDiffer}.
Variable W : World.
Variable J : St -> Prop.
Variable E : Err -> Prop.

Hypothesis Hdiff : forall coll, triple J E (dirsDiffer_diff coll).
Hypothesis Hupd : forall d, triple J E (updateDirective d).
Hypothesis Hdes : forall d, triple J E (destroyDirective W d).
Hypothesis Hinit : forall d, triple J E (initDirective W d).
Hypothesis Hemit : forall l, triple J E (emit_event (EvEmit l)).

Lemma stored_forEachAddedItem items : forall acc,
  triple J E (forEachAddedItem W items acc).
Proof.
  induction items as [|d items IH]; intros acc; simpl.
  - apply triple_still. intros s. now exists acc.
  - apply triple_bind; [apply Hinit|]. intros [r|]; apply IH.
Qed.

Lemma stored_tick_body :
  triple J E
    (ds <- gets directives ;;
     dirsChanges <- dirsDiffer_diff ds ;;
     match dirsChanges with
     | None => updateDirectives
     | Some changes => processDirChanges W changes
     end).
Proof.
  apply triple_bind; [apply triple_still; intros s; eexists; reflexivity|].
  intros ds. apply triple_bind; [apply Hdiff|].
  intros [changes|].
  - unfold processDirChanges.
    apply triple_bind; [apply triple_forEach; exact Hdes|]. intros _.
    apply triple_bind; [apply stored_forEachAddedItem|].
    intros [|r l]; [|apply Hemit].
    apply triple_still. intros s. now exists tt.
  - unfold updateDirectives.
    apply triple_bind; [apply triple_still; intros s; eexists; reflexivity|].
    intros [l|]; [apply triple_forEach; exact Hupd|].
    apply triple_still. intros s. now exists tt.
Qed.
End Stored.

(** ** Where exceptions come from *)

(** As [walk], keeping what each test found. *)
Ltac walk_cases leaf :=
  repeat first
    [ apply triple_still; intros ?; eexists; reflexivity
    | leaf
    | apply triple_bind; [|intros ?]
    | apply triple_forEach; intros ?
    | match goal with
      | |- triple _ _ (match ?x with _ => _ end) => destruct x eqn:?
      | |- triple _ _ (if ?x then _ else _) => destruct x eqn:?
      end ].

Section Metadata.
Variable W : World.

Lemma param_types_some t ps :
  param_types t (map Some ps) = Ok (map param_type ps).
Proof.
  induction ps as [|p ps IH]; simpl; [reflexivity|]. now rewrite IH.
Qed.

Lemma param_types_null t params :
  In None params <-> param_types t params = Throw (NullParam t).
Proof.
  induction params as [|[p|] params IH]; simpl.
  - split; [intros [] | discriminate].
  - split.
    + intros [H|H]; [discriminate|]. apply IH in H. now rewrite H.
    + destruct (param_types t params) as [l|e] eqn:Hp; [discriminate|].
      intros H. inversion H; subst. right. now apply IH.
  - split; [reflexivity | intros _; now left].
Qed.

(** Reading the metadata throws exactly when it lists a [null]
    parameter. *)
Lemma resolveDirParamTypes_null t e :
  resolveDirParamTypes W t = Throw e ->
  e = NullParam t /\
  exists params, ctorParameters W t = Some params /\ In None params.
Proof.
  intros H. pose proof (resolveDirParamTypes_throws W t e H) as ->.
  split; [reflexivity|].
  unfold resolveDirParamTypes, extractNgParamTypes in H.
  destruct (ctorParameters W t) as [params|].
  - exists params. split; [reflexivity|]. apply (param_types_null t).
    destruct (param_types t params) as [l|e] eqn:Hp; [discriminate|].
    now rewrite (param_types_throws t params e Hp).
  - destruct (getCtorParamTypes W t); discriminate.
Qed.
End Metadata.

Section Blame.
Context {D : IterableDiffer}.
Variable W : World.

Let E : Err -> Prop := raised W.

Ltac blame_leaf :=
  idtac;
  match goal with
  | |- triple _ _ (throw _) =>
      apply triple_throw; unfold E, raised, isOnDestroy in *; subst;
      first [ assumption
            | eexists; eexists; eassumption
            | exfalso; congruence
            | exfalso;
              match goal with
              | H : member W ?o ?h = _, H' : context [member W ?o ?h] |- _ =>
                  rewrite H in H'; discriminate
              end ]
  | |- triple _ _ (lift (resolveDirParamTypes _ _)) =>
      let Hr := fresh "Hr" in
      intros ? Hs; split; [exact Hs|];
      intros ? Hr; apply resolveDirParamTypes_null in Hr;
      destruct Hr as [-> Hr]; exact Hr
  | |- triple _ _ (modify _) => apply triple_modify; intros ? Hs; exact Hs
  | |- triple _ _ (emit_event _) => apply triple_modify; intros ? Hs; exact Hs
  | |- triple _ _ alloc => intros ? Hs; split; [exact Hs | discriminate]
  | |- triple _ _ isCompChanged =>
      let s := fresh "s" in
      intros s Hs; rewrite isCompChanged_eq;
      destruct (strict_eqb (lastCompInstance s) (compInstance s));
      (split; [exact Hs | discriminate])
  | |- triple _ _ (dirsDiffer_diff _) =>
      let s := fresh "s" in
      intros s Hs; rewrite dirsDiffer_diff_eq; split; [exact Hs | discriminate]
  end.

Lemma blame_destroyAllDirectives :
  triple (fun _ => True) E (destroyAllDirectives W).
Proof. unfold_methods. walk_cases blame_leaf. Qed.

Lemma blame_maybeDestroyDirectives :
  triple (fun _ => True) E (maybeDestroyDirectives W).
Proof. unfold_methods. walk_cases blame_leaf. Qed.

Variable c : ComponentRef.

Let I : St -> Prop := fun s => componentRef s = Defined c.

Ltac host_leaf :=
  idtac;
  match goal with
  | |- triple _ _ componentRef_bang =>
      let s := fresh "s" in
      intros s Hs; unfold componentRef_bang;
      replace (componentRef s) with (Defined c) by (symmetry; exact Hs);
      split; [exact Hs | discriminate]
  end.

Lemma blame_initDirective d : triple I E (initDirective W d).
Proof. unfold_methods. walk_cases ltac:(first [host_leaf | blame_leaf]). Qed.

Lemma blame_destroyDirective d : triple I E (destroyDirective W d).
Proof. unfold_methods. walk_cases blame_leaf. Qed.

Lemma blame_tick_body :
  triple I E
    (ds <- gets directives ;;
     dirsChanges <- dirsDiffer_diff ds ;;
     match dirsChanges with
     | None => updateDirectives
     | Some changes => processDirChanges W changes
     end).
Proof.
  apply stored_tick_body.
  - intros coll. blame_leaf.
  - intros d. unfold_methods. walk_cases blame_leaf.
  - apply blame_destroyDirective.
  - apply blame_initDirective.
  - intros l. blame_leaf.
Qed.
End Blame.

Section TickErrors.
Context {D : IterableDiffer}.
Variable W : World.

(** X7: Where the exceptions of an operation come from.  Whatever the
    state, the inputs and the world, an exception a tick or the destruction
    ends with has its cause in the world: the injector failed to resolve or
    construct a declared class, a lifecycle method threw, a truthy
    lifecycle member that is no function was called, or the compiler
    metadata of a declared class lists a [null] parameter, whose [type]
    [extractNgParamTypes] reads.  No operation ends with the [TypeError] of
    reading a property of a missing component reference: the non-null
    assertions on [this.componentRef] hold (the component reference
    staying what it is while the operation runs). *)
Theorem operation_exceptions_have_causes op (s : St) e :
  fst (apply_op W op s) = Throw e -> raised W e.
Proof.
  destruct op as [ndc outlet ci|]; simpl.
  2:{ apply (blame_destroyAllDirectives W s). exact Logic.I. }
  set (s0 := set_inputs ndc outlet ci s).
  unfold ngDoCheck, bind at 1.
  pose proof (proj2 (blame_maybeDestroyDirectives W s0 Logic.I)) as Herr.
  destruct (maybeDestroyDirectives W s0) as [[stop|e'] s1] eqn:Hm.
  - apply maybeDestroyDirectives_answer in Hm.
    destruct stop; [discriminate|].
    destruct (componentRef s1) as [| |c] eqn:Hc; try discriminate.
    apply (blame_tick_body W c s1 Hc).
  - simpl. intros Habs. inversion Habs; subst. now apply Herr.
Qed.
End TickErrors.

(** ** Every record has the port made for it *)

Section Matched.
Context {D : IterableDiffer}.
Variable W : World.
Variable inj : Injector.

Let I : St -> Prop := fun s => injector s = inj /\ store_matched s.
Let E : Err -> Prop := fun _ => True.

Lemma matched_frame (s s' : St) :
  dirRef s' = dirRef s -> dirIo s' = dirIo s -> injector s' = injector s ->
  I s -> I s'.
Proof.
  unfold I, store_matched. intros -> -> ->. tauto.
Qed.

Lemma matched_delete k (s s' : St) :
  dirRef s' = map_delete k (dirRef s) ->
  dirIo s' = map_delete k (dirIo s) ->
  injector s' = injector s ->
  I s -> I s'.
Proof.
  unfold I, store_matched. intros -> -> -> [Hinj H].
  split; [exact Hinj|]. intros k' r. rewrite !map_get_delete.
  destruct (k =? k'); [discriminate | apply H].
Qed.

Lemma matched_initDirective d : triple I E (initDirective W d).
Proof.
  intros s Hs. split; [|now unfold E].
  destruct (initDirective_cases W d s)
    as [[_ H] | [[_ (e & He & H)]
        | [Hhas (c & evs & Hc & [H | (e & He & H)])]]];
    rewrite H; cbn [snd]; try exact Hs.
  - destruct Hs as [Hinj Hs]. split; [exact Hinj|].
    intros k r. cbn [dirRef dirIo injector set_dirRef set_dirIo log set_trace
                     wired set_heap_next].
    destruct (Nat.eq_dec k (def_type d)) as [->|Hne].
    + rewrite !map_get_set_same. intros Hr. inversion Hr; subst.
      eexists. split; [reflexivity|]. repeat split.
    + rewrite !map_get_set_other by exact Hne. apply Hs.
  - destruct Hs as [Hinj Hs]. split; [exact Hinj|].
    intros k r. cbn [dirRef dirIo injector set_dirRef set_dirIo log set_trace
                     wired set_heap_next].
    intros Hr.
    assert (Hne : k <> def_type d).
    { intros ->. unfold map_has in Hhas. now rewrite Hr in Hhas. }
    rewrite map_get_set_other by exact Hne. now apply Hs.
Qed.

Lemma matched_destroyDirective d : triple I E (destroyDirective W d).
Proof.
  intros s Hs. split; [|now unfold E].
  destruct (destroyDirective_cases W d s) as [(evs & H)|(o & evs & H)];
    rewrite H; cbn [snd].
  - now apply matched_delete with (k := def_type d) (s := s).
  - now apply matched_frame with (s := s).
Qed.

Lemma matched_destroyAllDirectives : triple I E (destroyAllDirectives W).
Proof.
  intros s Hs. split; [|now unfold E].
  destruct (destroyAllDirectives_cases W s) as [(evs & H)|(o & evs & H)];
    rewrite H; cbn [snd].
  - destruct Hs as [Hinj _]. split; [exact Hinj|]. intros k r Hr.
    discriminate.
  - now apply matched_frame with (s := s).
Qed.

Ltac frame_leaf :=
  idtac;
  match goal with
  | |- triple _ _ (emit_event _) =>
      let s := fresh "s" in
      apply triple_modify; intros s Hs;
      apply matched_frame with (s := s); (reflexivity || exact Hs)
  | |- triple _ _ (dirsDiffer_diff _) =>
      let s := fresh "s" in
      intros s Hs; rewrite dirsDiffer_diff_eq; split; [|now unfold E];
      apply matched_frame with (s := s); (reflexivity || exact Hs)
  | |- triple _ _ (updateDirective _) =>
      let s := fresh "s" in
      intros s Hs; rewrite updateDirective_eq; split; [|now unfold E];
      apply matched_frame with (s := s); (reflexivity || exact Hs)
  | |- triple _ _ isCompChanged =>
      let s := fresh "s" in
      intros s Hs; rewrite isCompChanged_eq; split; [|now unfold E];
      destruct (strict_eqb (lastCompInstance s) (compInstance s));
      [exact Hs|];
      apply matched_frame with (s := s); (reflexivity || exact Hs)
  | |- triple _ _ (destroyAllDirectives _) =>
      apply matched_destroyAllDirectives
  end.

Lemma matched_ngDoCheck : triple I E (ngDoCheck W).
Proof.
  unfold ngDoCheck. apply triple_bind.
  - unfold maybeDestroyDirectives. walk frame_leaf.
  - intros [|]; [apply triple_still; intros s; now exists tt|].
    apply stored_tick_body; intros; try frame_leaf.
    + apply matched_destroyDirective.
    + apply matched_initDirective.
Qed.

Lemma matched_run ops : forall s : St, I s -> I (snd (run W ops s)).
Proof.
  induction ops as [|op ops IH]; intros s Hs; simpl; [exact Hs|].
  assert (H1 : I (snd (apply_op W op s))).
  { destruct op as [ndc outlet ci|]; simpl.
    - apply matched_ngDoCheck.
      now apply matched_frame with (s := s).
    - now apply matched_destroyAllDirectives. }
  destruct (apply_op W op s) as [r s1]; simpl in *.
  specialize (IH s1 H1). destruct (run W ops s1) as [rs s2]. exact IH.
Qed.

(** X8: From a new directive, after every operation and whatever it answered,
    each stored record has under its class the port that was created for
    it: the port of the adapter [dirToCompDef] builds, whose instance and
    class are those of the record and whose other fields are the host's as
    the record has them, created with output tracking on and with the
    directive's own injector. *)
Theorem ports_match_records ci (ops : list Op) k r :
  map_get k (dirRef (snd (run W ops (new_directive inj ci)))) = Some r ->
  exists io,
    map_get k (dirIo (snd (run W ops (new_directive inj ci)))) = Some io /\
    port_for inj r io.
Proof.
  assert (H0 : I (new_directive inj ci)).
  { split; [reflexivity|]. intros k' r' Hr. discriminate. }
  pose proof (matched_run ops _ H0) as [Hinj H].
  intros Hr. destruct (H k r Hr) as (io & Hio & Hp).
  exists io. split; [exact Hio|]. now rewrite <- Hinj.
Qed.
End Matched.

(** ** Every record was created on the remembered host *)

Section Hosted.
Context {D : IterableDiffer}.
Variable W : World.
Hypothesis Hcalm : teardowns_return W.

Lemma teardowns_return_all (l : list DirectiveRef) :
  Forall (fun r => teardown_throws W r = false) l.
Proof.
  apply Forall_forall. intros r _. unfold teardown_throws.
  pose proof (Hcalm (dr_instance r)) as H.
  destruct (member W (dr_instance r) ngOnDestroy_hook) as [| |[|]];
    (reflexivity || contradiction).
Qed.

(** The host check leaves no record of another host, and when it lets the
    tick go on, the host is the remembered one. *)
Lemma hosted_maybeDestroyDirectives (s : St) :
  hosted s ->
  exists b s1,
    maybeDestroyDirectives W s = (Ok b, s1) /\
    hosted s1 /\
    (b = false -> exists c, host_stable s1 c).
Proof.
  intros Hs.
  destruct (strict_eqb (lastCompInstance s) (compInstance s)) eqn:Heq.
  - destruct (componentRef s) as [| |c] eqn:Hc.
    + exists true, (torn_down W s). split; [|split].
      * rewrite maybeDestroyDirectives_teardown;
          [now rewrite Hc | right; now rewrite Hc
          | apply teardowns_return_all].
      * intros k r Hr. discriminate.
      * discriminate.
    + exists true, (torn_down W s). split; [|split].
      * rewrite maybeDestroyDirectives_teardown;
          [now rewrite Hc | right; now rewrite Hc
          | apply teardowns_return_all].
      * intros k r Hr. discriminate.
      * discriminate.
    + assert (Hst : host_stable s c).
      { split; [exact Hc|]. apply strict_eqb_true in Heq.
        rewrite Heq. unfold compInstance. now rewrite Hc. }
      exists false, s. split; [|split].
      * now apply maybeDestroyDirectives_stable with (c := c).
      * exact Hs.
      * intros _. now exists c.
  - exists (negb (truthy (componentRef s))), (torn_down W s).
    split; [|split].
    + apply maybeDestroyDirectives_teardown;
        [now left | apply teardowns_return_all].
    + intros k r Hr. discriminate.
    + intros Hb. destruct (componentRef s) as [| |c] eqn:Hc;
        try discriminate.
      exists c. unfold torn_down. rewrite Heq. split.
      * exact Hc.
      * cbn [lastCompInstance set_dirIo set_dirRef log set_trace
               set_dirsDiffer set_lastCompInstance].
        unfold compInstance. now rewrite Hc.
Qed.

Variable c : ComponentRef.

Let J : St -> Prop := fun s => hosted s /\ host_stable s c.
Let E : Err -> Prop := fun _ => True.

Lemma hosted_frame (s s' : St) :
  dirRef s' = dirRef s ->
  lastCompInstance s' = lastCompInstance s ->
  componentInjector s' = componentInjector s ->
  J s -> J s'.
Proof.
  unfold J, hosted, host_stable, componentRef. intros -> -> ->. tauto.
Qed.

Lemma hosted_initDirective d : triple J E (initDirective W d).
Proof.
  intros s Hs. split; [|now unfold E].
  destruct (initDirective_cases W d s)
    as [[_ H] | [[_ (e & He & H)]
        | [Hhas (c' & evs & Hc & [H | (e & He & H)])]]];
    rewrite H; cbn [snd]; try exact Hs.
  destruct Hs as [Hs [Hc0 Hl]]. split; [|split; assumption].
  intros k r.
  cbn [dirRef lastCompInstance set_dirRef set_dirIo log set_trace wired
       set_heap_next].
  destruct (Nat.eq_dec k (def_type d)) as [->|Hne].
  - rewrite map_get_set_same. intros Hr. inversion Hr; subst.
    rewrite Hl. simpl. congruence.
  - rewrite map_get_set_other by exact Hne. apply Hs.
Qed.

Lemma hosted_destroyDirective d : triple J E (destroyDirective W d).
Proof.
  intros s Hs. split; [|now unfold E].
  destruct (destroyDirective_cases W d s) as [(evs & H)|(o & evs & H)];
    rewrite H; cbn [snd].
  - destruct Hs as [Hs Hst]. split; [|exact Hst].
    intros k r.
    cbn [dirRef lastCompInstance set_dirRef set_dirIo log set_trace].
    rewrite map_get_delete. destruct (def_type d =? k); [discriminate|].
    apply Hs.
  - now apply hosted_frame with (s := s).
Qed.

Lemma hosted_tick_body :
  triple J E
    (ds <- gets directives ;;
     dirsChanges <- dirsDiffer_diff ds ;;
     match dirsChanges with
     | None => updateDirectives
     | Some changes => processDirChanges W changes
     end).
Proof.
  apply stored_tick_body.
  - intros coll s Hs. rewrite dirsDiffer_diff_eq. split; [|now unfold E].
    now apply hosted_frame with (s := s).
  - intros d s Hs. rewrite updateDirective_eq. split; [|now unfold E].
    now apply hosted_frame with (s := s).
  - apply hosted_destroyDirective.
  - apply hosted_initDirective.
  - intros l. apply triple_modify. intros s Hs.
    now apply hosted_frame with (s := s).
Qed.
End Hosted.

Section HostedRuns.
Context {D : IterableDiffer}.
Variable W : World.
Hypothesis Hcalm : teardowns_return W.

Lemma hosted_ngDoCheck (s : St) : hosted s -> hosted (snd (ngDoCheck W s)).
Proof.
  intros Hs.
  destruct (hosted_maybeDestroyDirectives W Hcalm s Hs)
    as (b & s1 & Hm & Hs1 & Hb).
  unfold ngDoCheck. rewrite (bind_ok _ _ _ _ _ Hm).
  destruct b; [exact Hs1|].
  destruct (Hb eq_refl) as [c Hst].
  now apply (hosted_tick_body W c s1).
Qed.

Lemma hosted_run ops : forall s : St, hosted s -> hosted (snd (run W ops s)).
Proof.
  induction ops as [|op ops IH]; intros s Hs; simpl; [exact Hs|].
  assert (H1 : hosted (snd (apply_op W op s))).
  { destruct op as [ndc outlet ci|]; simpl.
    - apply hosted_ngDoCheck. exact Hs.
    - rewrite destroyAllDirectives_ok by (now apply teardowns_return_all).
      intros k r Hr. discriminate. }
  destruct (apply_op W op s) as [r s1]; simpl in *.
  specialize (IH s1 H1). destruct (run W ops s1) as [rs s2]. exact IH.
Qed.

(** X9: As long as no teardown method throws, the stored records are those of
    one host: from a new directive, after every operation, each stored
    record was created on the host instance the directive remembers, the
    one the last tick found. *)
Theorem records_belong_to_remembered_host inj ci (ops : list Op) k r :
  map_get k (dirRef (snd (run W ops (new_directive inj ci)))) = Some r ->
  lastCompInstance (snd (run W ops (new_directive inj ci)))
  = Defined (dr_hostComponent r).
Proof.
  apply (hosted_run ops (new_directive inj ci)).
  intros k' r' Hr. discriminate.
Qed.
End HostedRuns.

(** ** A change object touches the classes it lists *)

Section OtherClasses.
Context {D : IterableDiffer}.
Variable W : World.
Variable k : NgType.
Variable x : option DirectiveRef.
Variable y : option IoService.

Let I : St -> Prop :=
  fun s => map_get k (dirRef s) = x /\ map_get k (dirIo s) = y.
Let E : Err -> Prop := fun _ => True.

Lemma other_destroyDirective d :
  def_type d <> k -> triple I E (destroyDirective W d).
Proof.
  intros Hne s [Hx Hy]. split; [|now unfold E].
  destruct (destroyDirective_cases W d s) as [(evs & H)|(o & evs & H)];
    rewrite H; cbn [snd]; [|now split].
  split; cbn [dirRef dirIo set_dirRef set_dirIo log set_trace];
    rewrite map_get_delete;
    (destruct (Nat.eqb_spec (def_type d) k); [contradiction | assumption]).
Qed.

Lemma other_initDirective d :
  def_type d <> k -> triple I E (initDirective W d).
Proof.
  intros Hne s [Hx Hy]. split; [|now unfold E].
  assert (Hne' : k <> def_type d) by congruence.
  destruct (initDirective_cases W d s)
    as [[_ H] | [[_ (e & He & H)]
        | [Hhas (c & evs & Hc & [H | (e & He & H)])]]];
    rewrite H; cbn [snd]; try (now split);
    split;
    cbn [dirRef dirIo set_dirRef set_dirIo log set_trace wired
         set_heap_next];
    rewrite ?map_get_set_other by exact Hne'; assumption.
Qed.

Lemma other_forEachAddedItem items : forall acc,
  ~ In k (map def_type items) ->
  triple I E (forEachAddedItem W items acc).
Proof.
  induction items as [|d items IH]; intros acc Hk; simpl.
  - apply triple_still. intros s. now exists acc.
  - apply triple_bind.
    + apply other_initDirective. intros Heq. apply Hk. now left.
    + intros [r|]; apply IH; intros Hin; apply Hk; now right.
Qed.

Lemma other_processDirChanges changes :
  ~ In k (map def_type (removedItems changes)) ->
  ~ In k (map def_type (addedItems changes)) ->
  triple I E (processDirChanges W changes).
Proof.
  intros Hrem Hadd. unfold processDirChanges.
  apply triple_bind.
  { apply triple_forEach_in. intros d Hd. apply other_destroyDirective.
    intros Heq. apply Hrem. apply in_map_iff. now exists d. }
  intros _. apply triple_bind; [now apply other_forEachAddedItem|].
  intros [|r l].
  - apply triple_still. intros s. now exists tt.
  - apply triple_modify. intros s Hs. exact Hs.
Qed.
End OtherClasses.

Section OtherClassesClaim.
Context {D : IterableDiffer}.
Variable W : World.

(** X10: [processDirChanges] writes the entries of the classes its change
    object lists and no others: whatever happens, a class that is the type
    of no removed and of no added declaration has, in each of the two
    maps, the entry it had, or none as before. *)
Theorem changes_touch_only_their_classes changes k (s : St) :
  ~ In k (map def_type (removedItems changes)) ->
  ~ In k (map def_type (addedItems changes)) ->
  map_get k (dirRef (snd (processDirChanges W changes s)))
  = map_get k (dirRef s) /\
  map_get k (dirIo (snd (processDirChanges W changes s)))
  = map_get k (dirIo s).
Proof.
  intros Hrem Hadd.
  apply (other_processDirChanges W k (map_get k (dirRef s))
           (map_get k (dirIo s)) changes Hrem Hadd s).
  split; reflexivity.
Qed.
End OtherClassesClaim.

(* ------------------------------------------------------------------ *)
(** * The creation notification *)
(* ------------------------------------------------------------------ *)

Lemma not_emit_emissions evs :
  forallb not_emit evs = true -> emissions evs = 0.
Proof.
  unfold emissions. induction evs as [|e evs IH]; simpl; [reflexivity|].
  intros H. apply andb_prop in H. destruct H as [He H].
  unfold not_emit in He. destruct (is_emit e); [discriminate|].
  now apply IH.
Qed.

Section Notification.
Context {D : IterableDiffer}.
Variable W : World.
Variable t0 : list Event.

Let I : St -> Prop := made_only not_emit t0.
Let E : Err -> Prop := fun _ => True.

Lemma made_only_same (s s' : St) : trace s' = trace s -> I s -> I s'.
Proof. unfold I, made_only. now intros ->. Qed.

Lemma made_only_log e (s : St) : not_emit e = true -> I s -> I (log [e] s).
Proof.
  intros He (evs & Ht & Hp). exists (evs ++ [e]). split.
  - cbn [trace log set_trace]. now rewrite Ht, app_assoc.
  - rewrite forallb_app, Hp. simpl. now rewrite He.
Qed.

Lemma made_only_bang : triple I E componentRef_bang.
Proof.
  intros s Hs. unfold componentRef_bang.
  destruct (componentRef s); split; (exact Hs || now unfold E).
Qed.

Lemma quiet_maybeDestroyDirectives : triple I E (maybeDestroyDirectives W).
Proof.
  apply untouched_maybeDestroyDirectives.
  - intros s s' _ _ _ _ _. apply made_only_same.
  - apply made_only_log.
  - now unfold E.
  - intros x s. now apply made_only_same.
Qed.

Lemma quiet_dirsDiffer_diff coll : triple I E (dirsDiffer_diff coll).
Proof.
  apply untouched_dirsDiffer_diff.
  - intros s s' _ _ _ _ _. apply made_only_same.
  - apply made_only_log.
Qed.

Lemma quiet_updateDirectives : triple I E updateDirectives.
Proof. apply untouched_updateDirectives. apply made_only_log. Qed.

Lemma quiet_changes changes :
  triple I E
    (forEach (destroyDirective W) (removedItems changes) ;;;
     forEachAddedItem W (addedItems changes) []).
Proof.
  apply untouched_changes.
  - intros s s' _ _ _ _ _. apply made_only_same.
  - apply made_only_log.
  - now unfold E.
  - apply made_only_bang.
Qed.
End Notification.

Section NotificationClaims.
Context {D : IterableDiffer}.
Variable W : World.

(** What [processDirChanges] answers and leaves, from what its two loops
    answer and leave. *)
Lemma processDirChanges_after changes (s : St) :
  processDirChanges W changes s
  = match (forEach (destroyDirective W) (removedItems changes) ;;;
           forEachAddedItem W (addedItems changes) []) s with
    | (Ok [], s1) => (Ok tt, s1)
    | (Ok (r :: l), s1) => (Ok tt, log [EvEmit (r :: l)] s1)
    | (Throw e, s1) => (Throw e, s1)
    end.
Proof.
  unfold processDirChanges. rewrite <- bind_assoc. unfold bind at 1.
  match goal with
  | |- match ?x with _ => _ end = _ => destruct x as [[[|r l]|e] s1]
  end; reflexivity.
Qed.

(** X11: The creation notification closes the tick.  Whatever the state, the
    inputs and the world, a tick emits at most once, and nothing on a tick
    that ends with an exception, even if records were created before it;
    when it emits, the tick returns, the emission is its last call, the
    list emitted is not empty and every record in it is in the record
    map. *)
Theorem notification_closes_the_tick (s : St) :
  exists evs,
    trace (snd (ngDoCheck W s)) = trace s ++ evs /\
    (emissions evs = 0 \/
     exists calls created,
       evs = calls ++ [EvEmit created] /\
       emissions calls = 0 /\
       created <> [] /\
       fst (ngDoCheck W s) = Ok tt /\
       forall r,
         In r created ->
         map_get (dr_type r) (dirRef (snd (ngDoCheck W s))) = Some r).
Proof.
  assert (H0 : made_only not_emit (trace s) s).
  { exists []. split; [now rewrite app_nil_r | reflexivity]. }
  assert (Hquiet : forall s' : St,
             made_only not_emit (trace s) s' ->
             exists evs, trace s' = trace s ++ evs /\ emissions evs = 0).
  { intros s' (evs & Ht & Hp). exists evs. split; [exact Ht|].
    now apply not_emit_emissions. }
  pose proof (proj1 (quiet_maybeDestroyDirectives W (trace s) s H0)) as H1.
  unfold ngDoCheck.
  destruct (maybeDestroyDirectives W s) as [[[|]|e] s1] eqn:Hm;
    cbn [snd] in H1.
  - rewrite (bind_ok _ _ _ _ _ Hm).
    destruct (Hquiet _ H1) as (evs & Ht & He).
    exists evs. split; [exact Ht | now left].
  - rewrite (bind_ok _ _ _ _ _ Hm).
    erewrite bind_ok by reflexivity.
    pose proof (proj1 (quiet_dirsDiffer_diff (trace s) (directives s1) s1 H1))
      as H2.
    rewrite dirsDiffer_diff_eq in H2. cbn [snd] in H2.
    erewrite bind_ok by apply dirsDiffer_diff_eq.
    destruct (snd (diff (dirsDiffer s1) (directives s1))) as [changes|].
    + rewrite processDirChanges_after.
      pose proof (proj1 (quiet_changes W (trace s) changes _ H2)) as H3.
      match type of H3 with
      | made_only _ _ (snd (?m ?st)) =>
          destruct (m st) as [[created|e] s3] eqn:Hch
      end; cbn [snd] in H3.
      * destruct (Hquiet _ H3) as (evs & Ht & He).
        destruct created as [|r l].
        { exists evs. split; [exact Ht | now left]. }
        exists (evs ++ [EvEmit (r :: l)]). split.
        { cbn [snd trace log set_trace]. now rewrite Ht, app_assoc. }
        right. exists evs, (r :: l).
        split; [reflexivity|]. split; [exact He|].
        split; [discriminate|]. split; [reflexivity|].
        unfold bind in Hch.
        match type of Hch with
        | match ?m ?st with _ => _ end = _ =>
            destruct (m st) as [[[]|e] s2]; [|discriminate]
        end.
        apply forEachAddedItem_created in Hch.
        destruct Hch as (created' & Heq & Hin). simpl in Heq. subst created'.
        exact Hin.
      * destruct (Hquiet _ H3) as (evs & Ht & He).
        exists evs. split; [exact Ht | now left].
    + pose proof (proj1 (quiet_updateDirectives (trace s) _ H2)) as H3.
      destruct (Hquiet _ H3) as (evs & Ht & He).
      exists evs. split; [exact Ht | now left].
  - rewrite (bind_throw _ _ _ _ _ Hm).
    destruct (Hquiet _ H1) as (evs & Ht & He).
    exists evs. split; [exact Ht | now left].
Qed.
End NotificationClaims.

(* ------------------------------------------------------------------ *)
(** * Creation, step by step *)
(* ------------------------------------------------------------------ *)

Section CreationSteps.
Context {D : IterableDiffer}.
Variable W : World.

(** X12: [callInitHooks] stops at the first hook that fails.  The hooks before
    it that the instance exposes have been called, in order; the failing
    one has been called if it is a method (and threw) and not if it is a
    truthy value that is no function; none of the hooks after it is looked
    up. *)
Theorem init_hooks_stop_at_first_failure obj before h after (s : St) :
  initHooks = before ++ h :: after ->
  (forall h', In h' before -> calm W obj h' = true) ->
  calm W obj h = false ->
  callInitHooks W obj s
  = (Throw (hook_failure W obj h),
     log (map (EvHook obj) (filter (exposes W obj) before) ++
          hook_failure_events W obj h) s).
Proof.
  intros Heq Hbefore Hh.
  rewrite callInitHooks_forEach, Heq, forEach_app.
  erewrite bind_ok by (apply forEach_callHook_calm; exact Hbefore).
  simpl forEach. apply bind_throw.
  unfold callHook, invoke, hook_failure, hook_failure_events, calm in *.
  destruct (member W obj h) as [| |[|]]; try discriminate.
  - now rewrite app_nil_r.
  - unfold bind, emit_event, modify, throw. now rewrite log_log.
Qed.

(** X13: A truthy member that is no function is an error at creation and is
    passed over at teardown: [callHook] tests the member for truthiness
    and calls it, which throws, while [destroyDirRef] asks [isOnDestroy],
    which tests for a function, and so only tears the port down. *)
Theorem non_function_member_fails_only_at_creation obj h r (s : St) :
  (member W obj h = NonFunction ->
   callHook W obj h s = (Throw (NotAFunction obj h), s)) /\
  (member W (dr_instance r) ngOnDestroy_hook = NonFunction ->
   isOnDestroy W (dr_instance r) = false /\
   destroyDirRef W r s = (Ok tt, log (port_teardown s r) s)).
Proof.
  split.
  - intros Hm. unfold callHook, invoke. now rewrite Hm.
  - intros Hm.
    assert (Hno : isOnDestroy W (dr_instance r) = false)
      by (unfold isOnDestroy; now rewrite Hm).
    split; [exact Hno|].
    rewrite destroyDirRef_eq. unfold teardown_throws, destroy_events,
      instance_teardown.
    now rewrite Hm, Hno, app_nil_r.
Qed.

(** X14: A creation that a hook aborts leaves its port behind.  When
    [initDirective] ends with an exception from the hooks of the new
    instance, no record is stored for the class but the port created for
    the instance is: later value refreshes of the class reach that port,
    and a later removal of the class deletes it from the map without
    tearing it down. *)
Theorem aborted_creation_leaves_port d e (s s2 : St) :
  initDirective W d s = (Throw e, s2) ->
  init_failure e = true ->
  exists c,
    let io := new_io c (injector s) (def_type d) (heap_next s)
                (S (heap_next s)) in
    componentRef s = Defined c /\
    map_has (def_type d) (dirRef s2) = false /\
    map_get (def_type d) (dirIo s2) = Some io /\
    (forall d',
        def_type d' = def_type d ->
        updateDirective d' s2
        = (Ok tt,
           log [EvIoUpdate io (def_inputs d') (def_outputs d')] s2)) /\
    destroyDirective W d s2
    = (Ok tt, set_dirIo (map_delete (def_type d) (dirIo s2)) s2).
Proof.
  intros Hrun He.
  destruct (initDirective_cases W d s)
    as [[_ H] | [[_ (e' & He' & H)]
        | [Hhas (c & evs & Hc & [H | (e' & He' & H)])]]];
    rewrite H in Hrun; inversion Hrun; subst; try congruence.
  exists c. cbv zeta.
  assert (Hio : map_get (def_type d) (dirIo (log evs (wired c d s)))
                = Some (new_io c (injector s) (def_type d) (heap_next s)
                          (S (heap_next s))))
    by (cbn [dirIo log set_trace wired set_dirIo]; apply map_get_set_same).
  split; [exact Hc|]. split; [exact Hhas|]. split; [exact Hio|]. split.
  - intros d' Hd'. rewrite updateDirective_eq. unfold update_events.
    now rewrite Hd', Hio.
  - apply destroyDirective_absent. exact Hhas.
Qed.

(** X15: Which dependencies a class is constructed with, when the
    compiler left metadata.  If every listed parameter is described, they
    are the types of the parameters, in their order, even when the list is
    empty: the reflect service is not consulted, the injector is asked for
    the class with these, and [createDirective] returns a new instance or
    ends with the injector's exception.  If a listed parameter is [null],
    reading its type throws: the reflect service is not fallen back to, the
    injector is not asked, and [createDirective] ends with that
    [TypeError].  In both failures the directive is left as it was. *)
Theorem metadata_decides_dependencies t params c (s : St) :
  ctorParameters W t = Some params ->
  componentRef s = Defined c ->
  (forall ps,
      params = map Some ps ->
      resolveDirParamTypes W t = Ok (map param_type ps) /\
      createDirective W t s
      = match injectorGet W t (map param_type ps) c with
        | Returns =>
            (Ok (heap_next s),
             log [EvNew t (heap_next s)]
               (set_heap_next (S (heap_next s)) s))
        | Throws => (Throw (ResolutionError t), s)
        end) /\
  (In None params ->
   resolveDirParamTypes W t = Throw (NullParam t) /\
   createDirective W t s = (Throw (NullParam t), s)).
Proof.
  intros Hps Hc. split.
  - intros ps ->.
    assert (Hdeps : resolveDirParamTypes W t = Ok (map param_type ps)).
    { unfold resolveDirParamTypes, extractNgParamTypes.
      now rewrite Hps, param_types_some. }
    split; [exact Hdeps|].
    unfold createDirective.
    erewrite bind_ok by (unfold lift; rewrite Hdeps; reflexivity).
    erewrite bind_ok by (unfold componentRef_bang; rewrite Hc; reflexivity).
    cbv beta.
    destruct (injectorGet W t (map param_type ps) c); reflexivity.
  - intros Hnull.
    assert (Hdeps : resolveDirParamTypes W t = Throw (NullParam t)).
    { unfold resolveDirParamTypes, extractNgParamTypes.
      apply (param_types_null t) in Hnull. now rewrite Hps, Hnull. }
    split; [exact Hdeps|].
    unfold createDirective. apply bind_throw. unfold lift.
    now rewrite Hdeps.
Qed.

(** X16: What [initDirective] stores is what it returns.  When it returns a
    record, the class had none; the record has the class of the
    declaration, the injector [hostInjector] reads and the host instance
    [compInstance] reads; it is now the record of its class, with the port
    made for it, and the entries of the other classes are as they were. *)
Theorem created_record_is_stored d r (s s' : St) :
  initDirective W d s = (Ok (Some r), s') ->
  map_has (def_type d) (dirRef s) = false /\
  dr_type r = def_type d /\
  hostInjector s = Defined (dr_injector r) /\
  compInstance s = Defined (dr_hostComponent r) /\
  map_get (def_type d) (dirRef s') = Some r /\
  (exists io,
      map_get (def_type d) (dirIo s') = Some io /\
      port_for (injector s) r io) /\
  (forall k,
      k <> def_type d ->
      map_get k (dirRef s') = map_get k (dirRef s) /\
      map_get k (dirIo s') = map_get k (dirIo s)).
Proof.
  intros Hrun.
  destruct (initDirective_cases W d s)
    as [[_ H] | [[_ (e' & He' & H)]
        | [Hhas (c & evs & Hc & [H | (e' & He' & H)])]]];
    rewrite H in Hrun; inversion Hrun; subst.
  split; [exact Hhas|]. split; [reflexivity|].
  split; [unfold hostInjector; now rewrite Hc|].
  split; [unfold compInstance; now rewrite Hc|].
  cbn [dirRef dirIo set_dirRef set_dirIo log set_trace wired set_heap_next].
  split; [apply map_get_set_same|]. split.
  - eexists. split; [apply map_get_set_same|]. repeat split.
  - intros k Hk. now rewrite !map_get_set_other by exact Hk.
Qed.

(** X17: A class removed and added by the same change object is replaced:
    the removals run before the additions, so the stored record is torn
    down and deleted first and the added declaration, finding no record of
    its class, gets a new instance, which is the one notified. *)
Theorem removed_then_added_is_replaced c d_old d_new r_old (s : St) :
  never_throws W ->
  componentRef s = Defined c ->
  def_type d_old = def_type d_new ->
  map_get (def_type d_old) (dirRef s) = Some r_old ->
  exists s',
    processDirChanges W (mkChanges [d_old] [d_new]) s = (Ok tt, s') /\
    map_get (def_type d_new) (dirRef s')
    = Some (new_dirRef c (def_type d_new) (heap_next s)) /\
    trace s'
    = trace s ++ destroy_events W s r_old ++ create_events W c d_new s ++
      [EvEmit [new_dirRef c (def_type d_new) (heap_next s)]].
Proof.
  intros Hq Hc Ht Hold.
  eexists. split; [now apply processDirChanges_ok with (c := c)|].
  unfold processed. cbn [removedItems addedItems detach_all attach_all
                         created_all].
  assert (Hgone : map_has (def_type d_new) (dirRef (detached W d_old s))
                  = false).
  { rewrite dirRef_detached. unfold map_has.
    rewrite map_get_delete, Ht, Nat.eqb_refl. reflexivity. }
  rewrite Hgone. split.
  - cbn [dirRef log set_trace]. rewrite dirRef_attached.
    apply map_get_set_same.
  - cbn [trace log set_trace]. rewrite trace_attached, trace_detached, Hold.
    rewrite (create_events_ext W c d_new (detached W d_old s) s)
      by reflexivity.
    now rewrite <- !app_assoc.
Qed.

(** X18: The order of a creation.  For a class that constructs, whatever its
    hooks do: the instance is constructed, then its port is created, then
    the port is given the declared inputs and outputs, and only then are
    the hooks of the instance called, an initial part of the exposed ones
    in their order. *)
Theorem inputs_are_bound_before_hooks d c (s : St) :
  map_has (def_type d) (dirRef s) = false ->
  componentRef s = Defined c ->
  construction W (def_type d) c = Ok tt ->
  exists called rest,
    filter (exposes W (heap_next s)) initHooks = called ++ rest /\
    trace (snd (initDirective W d s))
    = trace s ++
      [EvNew (def_type d) (heap_next s);
       EvIoCreate (new_io c (injector s) (def_type d) (heap_next s)
                     (S (heap_next s)));
       EvIoUpdate (new_io c (injector s) (def_type d) (heap_next s)
                     (S (heap_next s))) (def_inputs d) (def_outputs d)] ++
      map (EvHook (heap_next s)) called.
Proof.
  intros Hhas Hc Hget.
  rewrite (initDirective_constructs W d c s Hhas Hc Hget).
  rewrite callInitHooks_forEach.
  destruct (forEach_callHook_prefix W (heap_next s) initHooks (wired c d s))
    as (called & rest & Hf & Hs).
  exists called, rest. split; [exact Hf|].
  destruct (forEach (callHook W (heap_next s)) initHooks (wired c d s))
    as [[[]|e] s2]; cbn [snd] in *; subst s2;
    cbn [trace set_dirRef log set_trace wired set_dirIo set_heap_next
         wiring_events];
    now rewrite <- app_assoc.
Qed.
End CreationSteps.

(* ------------------------------------------------------------------ *)
(** * Concrete runs of the further properties *)
(* ------------------------------------------------------------------ *)

Import Sample Faulty.

(** After the first tick on [host1], the host check of a second tick
    does nothing. *)
Lemma tick_records_host_witness :
  let s' := snd (ngDoCheck quiet_world
                   (set_inputs (Some [defA; defB]) None (present host1)
                      start)) in
  host_stable s' host1 /\
  maybeDestroyDirectives quiet_world s' = (Ok false, s').
Proof.
  cbv zeta.
  apply (proj2 (tick_records_host quiet_world
                  (set_inputs (Some [defA; defB]) None (present host1) start))
           host1).
  reflexivity.
Defined.

(** An empty [ndcDynamicDirectives] hides what the other input declares. *)
Lemma tick_reads_inputs_through_directives_witness :
  ngDoCheck quiet_world
    (set_inputs (Some []) (Some [defA]) (present host1) start)
  = (fst (ngDoCheck quiet_world
            (set_inputs (Some []) None (present host1) start)),
     set_inputs (Some []) (Some [defA]) (present host1)
       (snd (ngDoCheck quiet_world
               (set_inputs (Some []) None (present host1) start)))).
Proof.
  apply (tick_reads_inputs_through_directives quiet_world
           (Some []) None (Some []) (Some [defA]) (present host1) start).
  reflexivity.
Defined.

(** With A and B attached and the teardown method of B's instance
    throwing, the destruction of the directive fails, and fails the same
    way when called again. *)
Lemma failed_shutdown_repeats_witness :
  dirRef (snd (ngOnDestroy teardown_throws_world after_AB_faulty))
  = dirRef after_AB_faulty /\
  dirIo (snd (ngOnDestroy teardown_throws_world after_AB_faulty))
  = dirIo after_AB_faulty /\
  exists evs,
    snd (ngOnDestroy teardown_throws_world after_AB_faulty)
    = log evs after_AB_faulty /\
    ngOnDestroy teardown_throws_world
      (snd (ngOnDestroy teardown_throws_world after_AB_faulty))
    = (Throw (HookError 2 ngOnDestroy_hook),
       log evs (snd (ngOnDestroy teardown_throws_world after_AB_faulty))).
Proof.
  apply (failed_shutdown_repeats teardown_throws_world after_AB_faulty).
  vm_compute. reflexivity.
Defined.

(** The differ reports A and B removed and C added; the teardown method of
    B's instance throws. *)
Lemma failed_removal_keeps_record_witness :
  let s0 := snd (forEach (destroyDirective teardown_throws_world) [defA]
                   after_AB_faulty) in
  exists s',
    processDirChanges teardown_throws_world
      (mkChanges [defA; defB] [defC]) after_AB_faulty
    = (Throw (HookError (dr_instance recB) ngOnDestroy_hook), s') /\
    trace s' = trace s0 ++ destroy_events teardown_throws_world s0 recB /\
    dirRef s' = dirRef s0 /\ dirIo s' = dirIo s0 /\
    heap_next s' = heap_next s0.
Proof.
  cbv zeta.
  apply (failed_removal_keeps_record teardown_throws_world
           (mkChanges [defA; defB] [defC]) [defA] defB [] recB
           after_AB_faulty
           (snd (forEach (destroyDirective teardown_throws_world) [defA]
                   after_AB_faulty)));
    vm_compute; reflexivity.
Defined.

(** The host changes to [host2] while A and B are attached and the
    teardown method of B's instance throws. *)
Lemma failed_teardown_is_not_retried_witness :
  let s := set_inputs (Some [defA; defB]) None (present host2)
             after_AB_faulty in
  exists o s',
    ngDoCheck teardown_throws_world s
    = (Throw (HookError o ngOnDestroy_hook), s') /\
    dirRef s' = dirRef s /\ dirIo s' = dirIo s /\
    host_stable s' host2 /\
    maybeDestroyDirectives teardown_throws_world s' = (Ok false, s').
Proof.
  cbv zeta.
  apply (failed_teardown_is_not_retried teardown_throws_world host2
           (set_inputs (Some [defA; defB]) None (present host2)
              after_AB_faulty)).
  - reflexivity.
  - vm_compute. reflexivity.
  - vm_compute. apply Exists_cons_tl, Exists_cons_hd. reflexivity.
Defined.

(** The port stored for A after the first tick is the one made for the
    record of A. *)
Lemma ports_match_records_witness :
  exists io,
    map_get A
      (dirIo (snd (run quiet_world
                     [OpTick (Some [defA; defB]) None (present host1)]
                     (new_directive 7 None))))
    = Some io /\
    port_for 7 recA io.
Proof.
  apply (ports_match_records quiet_world 7 None
           [OpTick (Some [defA; defB]) None (present host1)] A recA).
  vm_compute. reflexivity.
Defined.

(** B, attached on the second tick, after the host changed to [host2]. *)
Lemma records_belong_to_remembered_host_witness :
  lastCompInstance
    (snd (run quiet_world
            [OpTick (Some [defA]) None (present host1);
             OpTick (Some [defA; defB]) None (present host2)]
            (new_directive 7 None)))
  = Defined (dr_hostComponent (new_dirRef host2 B 4)).
Proof.
  apply (records_belong_to_remembered_host quiet_world
           ltac:(intros o; simpl; discriminate) 7 None
           [OpTick (Some [defA]) None (present host1);
            OpTick (Some [defA; defB]) None (present host2)]
           B (new_dirRef host2 B 4)).
  vm_compute. reflexivity.
Defined.

(** An instance whose [ngAfterContentInit] is no function: [ngOnInit] is
    called, [ngDoCheck] is absent, and the third lookup throws. *)
Lemma init_hooks_stop_at_first_failure_witness :
  callInitHooks odd_members_world 0 start
  = (Throw (NotAFunction 0 ngAfterContentInit),
     log [EvHook 0 ngOnInit] start).
Proof.
  apply (init_hooks_stop_at_first_failure odd_members_world 0
           [ngOnInit; ngDoCheck_hook] ngAfterContentInit
           [ngAfterContentChecked; ngAfterViewInit; ngAfterViewChecked]
           start).
  - reflexivity.
  - intros h' [<- | [<- | []]]; reflexivity.
  - reflexivity.
Defined.

Lemma non_function_member_fails_only_at_creation_witness :
  callHook odd_members_world 0 ngAfterContentInit after_AB
  = (Throw (NotAFunction 0 ngAfterContentInit), after_AB) /\
  isOnDestroy odd_members_world (dr_instance recA) = false /\
  destroyDirRef odd_members_world recA after_AB
  = (Ok tt, log (port_teardown after_AB recA) after_AB).
Proof.
  split.
  - apply (proj1 (non_function_member_fails_only_at_creation
                    odd_members_world 0 ngAfterContentInit recA after_AB)).
    reflexivity.
  - apply (proj2 (non_function_member_fails_only_at_creation
                    odd_members_world 0 ngAfterContentInit recA after_AB)).
    reflexivity.
Defined.

(** The creation of A in a world where [ngOnInit] throws. *)
Lemma aborted_creation_leaves_port_witness :
  exists c,
    let s := set_inputs (Some [defA]) None (present host1) start in
    let s2 := snd (initDirective init_throws_world defA s) in
    let io := new_io c (injector s) (def_type defA) (heap_next s)
                (S (heap_next s)) in
    componentRef s = Defined c /\
    map_has (def_type defA) (dirRef s2) = false /\
    map_get (def_type defA) (dirIo s2) = Some io /\
    (forall d',
        def_type d' = def_type defA ->
        updateDirective d' s2
        = (Ok tt,
           log [EvIoUpdate io (def_inputs d') (def_outputs d')] s2)) /\
    destroyDirective init_throws_world defA s2
    = (Ok tt, set_dirIo (map_delete (def_type defA) (dirIo s2)) s2).
Proof.
  apply (aborted_creation_leaves_port init_throws_world defA
           (HookError 0 ngOnInit)
           (set_inputs (Some [defA]) None (present host1) start)
           (snd (initDirective init_throws_world defA
                   (set_inputs (Some [defA]) None (present host1) start))));
    vm_compute; reflexivity.
Defined.

(** Class A, whose metadata lists no parameter, is constructed with no
    dependency although the reflect service would list one; class B, whose
    metadata lists a [null] parameter, is not constructed. *)
Lemma metadata_decides_dependencies_witness :
  (resolveDirParamTypes metadata_world A = Ok (map param_type []) /\
   createDirective metadata_world A
     (set_inputs None None (present host1) start)
   = match injectorGet metadata_world A (map param_type []) host1 with
     | Returns =>
         (Ok (heap_next (set_inputs None None (present host1) start)),
          log [EvNew A
                 (heap_next (set_inputs None None (present host1) start))]
            (set_heap_next
               (S (heap_next (set_inputs None None (present host1) start)))
               (set_inputs None None (present host1) start)))
     | Throws =>
         (Throw (ResolutionError A),
          set_inputs None None (present host1) start)
     end) /\
  (resolveDirParamTypes metadata_world B = Throw (NullParam B) /\
   createDirective metadata_world B
     (set_inputs None None (present host1) start)
   = (Throw (NullParam B), set_inputs None None (present host1) start)).
Proof.
  split.
  - apply (proj1 (metadata_decides_dependencies metadata_world A [] host1
                    (set_inputs None None (present host1) start)
                    eq_refl eq_refl) []).
    reflexivity.
  - apply (proj2 (metadata_decides_dependencies metadata_world B
                    [Some (mkCtorParam 5); None] host1
                    (set_inputs None None (present host1) start)
                    eq_refl eq_refl)).
    simpl. right. left. reflexivity.
Defined.

Lemma created_record_is_stored_witness :
  let s := set_inputs (Some [defA]) None (present host1) start in
  let s' := snd (initDirective quiet_world defA s) in
  map_has A (dirRef s) = false /\
  dr_type recA = A /\
  hostInjector s = Defined (dr_injector recA) /\
  compInstance s = Defined (dr_hostComponent recA) /\
  map_get A (dirRef s') = Some recA /\
  (exists io, map_get A (dirIo s') = Some io /\ port_for 7 recA io) /\
  (forall k,
      k <> A ->
      map_get k (dirRef s') = map_get k (dirRef s) /\
      map_get k (dirIo s') = map_get k (dirIo s)).
Proof.
  apply (created_record_is_stored quiet_world defA recA
           (set_inputs (Some [defA]) None (present host1) start)
           (snd (initDirective quiet_world defA
                   (set_inputs (Some [defA]) None (present host1) start)))).
  vm_compute. reflexivity.
Defined.

(** With A and B attached, the change object removes [defA] and adds
    [defA'], another declaration of class A. *)
Lemma removed_then_added_is_replaced_witness :
  exists s',
    processDirChanges quiet_world (mkChanges [defA] [defA']) after_AB
    = (Ok tt, s') /\
    map_get (def_type defA') (dirRef s')
    = Some (new_dirRef host1 (def_type defA') (heap_next after_AB)) /\
    trace s'
    = trace after_AB ++ destroy_events quiet_world after_AB recA ++
      create_events quiet_world host1 defA' after_AB ++
      [EvEmit [new_dirRef host1 (def_type defA') (heap_next after_AB)]].
Proof.
  apply (removed_then_added_is_replaced quiet_world host1 defA defA' recA
           after_AB quiet_world_never_throws);
    vm_compute; reflexivity.
Defined.

(** The creation of A in a world where [ngOnInit] throws: the port has
    its inputs before the hook is called. *)
Lemma inputs_are_bound_before_hooks_witness :
  exists called rest,
    filter (exposes init_throws_world 0) initHooks = called ++ rest /\
    trace (snd (initDirective init_throws_world defA
                  (set_inputs (Some [defA]) None (present host1) start)))
    = [] ++
      [EvNew A 0; EvIoCreate portA;
       EvIoUpdate portA (Some [("a"%string, 1)]) None] ++
      map (EvHook 0) called.
Proof.
  apply (inputs_are_bound_before_hooks init_throws_world defA host1
           (set_inputs (Some [defA]) None (present host1) start));
    reflexivity.
Defined.

(** The first tick in a world where the metadata of class B lists a
    parameter without type information. *)
Lemma operation_exceptions_have_causes_witness :
  raised metadata_world (NullParam B).
Proof.
  apply (operation_exceptions_have_causes metadata_world
           (OpTick (Some [defA; defB]) None (present host1)) start
           (NullParam B)).
  vm_compute. reflexivity.
Defined.

(** With A and B attached, a change object that removes [defA] and adds
    [defC] leaves the entries of B alone. *)
Lemma changes_touch_only_their_classes_witness :
  map_get B
    (dirRef (snd (processDirChanges quiet_world (mkChanges [defA] [defC])
                    after_AB)))
  = map_get B (dirRef after_AB) /\
  map_get B
    (dirIo (snd (processDirChanges quiet_world (mkChanges [defA] [defC])
                   after_AB)))
  = map_get B (dirIo after_AB).
Proof.
  apply (changes_touch_only_their_classes quiet_world
           (mkChanges [defA] [defC]) B after_AB).
  - simpl. intros [H | []]. discriminate.
  - simpl. intros [H | []]. discriminate.
Defined.
